(** * relenv build orchestration: a shallow embedding of [relenv/build/common.py]

    The development follows the layout of the Python module: the artifact
    descriptor ([Download]), the download phase runner
    ([Builder.download_files]), the scheduler ([Builder.build]), the step
    runner ([Builder.run]), the packager's archive filter ([create_archive]),
    the version check ([check_files] / [compare_versions]) and the pickling
    protocol of [Dirs]. *)

From stdpp Require Import gmap strings list fin_maps.
From Stdlib Require Import ZArith Ascii String.

Set Default Proof Using "Type".
Set Warnings "-clear-no-such-hyp,-register-all".


(** ** Python runtime conventions shared by all components *)
Module Py.

(** The exceptions the module can raise.  All constructors except
    [SystemExit] and [KeyboardInterrupt] are subclasses of [Exception], which
    is what a bare [except Exception] clause catches. *)
Inductive exn :=
| TransportError (url : string)
| TypeError (msg : string)
| ValueError (msg : string)
| KeyError (key : string)
| AttributeError (attr : string)
| FileNotFoundError (path : string)
| RelenvException (msg : string)
| SystemExit (code : Z)
| KeyboardInterrupt.

Definition is_Exception (e : exn) : bool :=
  match e with
  | SystemExit _ | KeyboardInterrupt => false
  | _ => true
  end.

Inductive result (A : Type) :=
| Ok (a : A)
| Raise (e : exn).
Arguments Ok {A} a.
Arguments Raise {A} e.

(** Exit status of a [multiprocessing.Process] whose target finished with the
    given result: the value a target returns is discarded, a normal return
    gives 0, [sys.exit(n)] gives [n], and any other exception that escapes the
    target gives 1. *)
Definition exitcode {A} (r : result A) : Z :=
  match r with
  | Ok _ => 0
  | Raise (SystemExit c) => c
  | Raise _ => 1
  end.

(** Exit status reported for a worker killed by [Process.terminate]
    (SIGTERM): the negated signal number. *)
Definition SIGTERM_exit : Z := -15.

End Py.

(** ** Artifact descriptor: [class Download] *)
Module Download.
Import Py.

(** The part of the outside world a download touches: the files on disk, what
    each URL currently serves (an absent URL is a transport failure), and the
    list of URLs requested over the network so far, most recent first. *)
Record World := mkWorld {
  fs : gmap string string;
  net : gmap string string;
  requests : list string;
}.

Definition log_request (url : string) (w : World) : World :=
  mkWorld (fs w) (net w) (url :: requests w).

Definition write_file (path body : string) (w : World) : World :=
  mkWorld (<[path := body]> (fs w)) (net w) (requests w).

(** Computations over the world that may raise. *)
Definition M (A : Type) : Type := World → result A * World.

Definition ret {A} (a : A) : M A := λ w, (Ok a, w).
Definition raise {A} (e : exn) : M A := λ w, (Raise e, w).
Definition bind {A B} (m : M A) (k : A → M B) : M B := λ w,
  match m w with
  | (Ok a, w') => k a w'
  | (Raise e, w') => (Raise e, w')
  end.

Notation "x <~ m ;; k" := (bind m (λ x, k))
  (at level 100, m at next level, right associativity).

(** [try: m  except Exception as exc: h exc] *)
Definition try_except {A} (m : M A) (h : exn → M A) : M A := λ w,
  match m w with
  | (Ok a, w') => (Ok a, w')
  | (Raise e, w') => if is_Exception e then h e w' else (Raise e, w')
  end.

Record Download := mkDownload {
  name : string;
  url_tpl : string;
  fallback_url_tpl : option string;
  signature_tpl : option string;
  destination : string;
  version : string;
  md5sum : option string;
}.

(** [tpl.format(version=v)] for templates whose only replacement field is
    [{version}]: every occurrence of the field is replaced by [v]. *)
Fixpoint format_from (skip : nat) (tpl v : string) : string :=
  match tpl with
  | EmptyString => EmptyString
  | String c rest =>
      match skip with
      | S k => format_from k rest v
      | O => if String.prefix "{version}" tpl
             then (v +:+ format_from 8 rest v)
             else String c (format_from 0 rest v)
      end
  end.

Definition format (tpl v : string) : string := format_from 0 tpl v.

Definition truthy (s : string) : bool := negb (String.eqb s EmptyString).

Definition url (d : Download) : string := format (url_tpl d) (version d).

Definition fallback_url (d : Download) : option string :=
  match fallback_url_tpl d with
  | Some tpl => if truthy tpl then Some (format tpl (version d)) else None
  | None => None
  end.

(** [s.rsplit("/", 1)[1]]: the text after the last slash, [None] when [s] has
    no slash (the two-name unpacking in [filepath] then raises). *)
Fixpoint after_last_slash (s : string) : option string :=
  match s with
  | EmptyString => None
  | String c r =>
      match after_last_slash r with
      | Some t => Some t
      | None => if Ascii.eqb c "/" then Some r else None
      end
  end.

Definition path_join (dir file : string) : string := dir +:+ "/" +:+ file.

(** [os.path.basename] *)
Definition basename (s : string) : string := default s (after_last_slash s).

Definition filepath (d : Download) : result string :=
  match after_last_slash (url d) with
  | Some n => Ok (path_join (destination d) n)
  | None => Raise (ValueError "not enough values to unpack")
  end.

(** Modelled from the spec: [relenv.common.get_download_location] is not under
    src/; the data model gives the resolved file path as the basename of the
    URL under the destination directory. *)
Definition get_download_location (u dest : string) : string :=
  path_join dest (basename u).

(** Modelled from the spec: [relenv.common.download_url] is not under src/.
    It requests [u] over the network and stores the body at the download
    location, which it returns; a transport failure is raised to the caller. *)
Definition download_url (u dest : string) : M string := λ w,
  let w1 := log_request u w in
  match net w !! u with
  | Some body =>
      let loc := get_download_location u dest in
      (Ok loc, write_file loc body w1)
  | None => (Raise (TransportError u), w1)
  end.

(** [Download.fetch_file].  The function has no [return] on the path where the
    primary download failed and no fallback is configured, so Python returns
    [None] there; that is the [None] of the result type. *)
Definition fetch_file (d : Download) : M (option (string * bool)) :=
  try_except
    (p <~ download_url (url d) (destination d) ;; ret (Some (p, true)))
    (λ exc,
       match fallback_url d with
       | Some fb =>
           if truthy fb
           then (p <~ download_url fb (destination d) ;; ret (Some (p, true)))
           else ret None
       | None => ret None
       end).

(** [_, downloaded = self.fetch_file()] *)
Definition unpack_pair {A B} (v : option (A * B)) : M (A * B) :=
  match v with
  | Some p => ret p
  | None => raise (TypeError "cannot unpack non-iterable NoneType object")
  end.

Section WithDigest.

(** [hashlib.md5(data).hexdigest()] *)
Variable md5 : string → string.

(** [verify_checksum] *)
Definition verify_checksum (file : string) (checksum : option string) : M bool :=
  match checksum with
  | None => ret false
  | Some sum => λ w,
      match fs w !! file with
      | None => (Raise (FileNotFoundError file), w)
      | Some data =>
          if String.eqb sum (md5 data) then (Ok true, w)
          else (Raise (RelenvException "md5 checksum verification failed"), w)
      end
  end.

(** [Download.validate_md5sum]: only [RelenvException] is handled. *)
Definition validate_md5sum (archive : string) (sum : option string) : M bool := λ w,
  match verify_checksum archive sum w with
  | (Ok _, w') => (Ok true, w')
  | (Raise (RelenvException _), w') => (Ok false, w')
  | (Raise e, w') => (Raise e, w')
  end.

Definition exists_file (path : string) : M bool := λ w,
  (Ok (bool_decide (is_Some (fs w !! path))), w).

Definition md5sum_truthy (d : Download) : bool :=
  match md5sum d with
  | Some s => truthy s
  | None => false
  end.

(** The first half of [Download.__call__]: decide whether to fetch. *)
Definition obtain (d : Download) (force_download : bool) : M bool :=
  if force_download then
    p <~ (v <~ fetch_file d ;; unpack_pair v) ;; ret (snd p)
  else
    let dest := get_download_location (url d) (destination d) in
    present <~ exists_file dest ;;
    file_is_valid <~ (if md5sum_truthy d && present
                      then validate_md5sum dest (md5sum d)
                      else ret false) ;;
    if file_is_valid then ret false
    else p <~ (v <~ fetch_file d ;; unpack_pair v) ;; ret (snd p).

(** The second half: validate what was fetched.  [self.fetch_signature()] is
    called without the [version] argument its definition requires, so that
    call raises [TypeError] before any signature is fetched or checked. *)
Definition validate (d : Download) (fp : string) (downloaded : bool) : M bool :=
  if downloaded then
    valid <~ (match signature_tpl d with
              | Some _ =>
                  raise (TypeError "fetch_signature() missing 1 required positional argument: 'version'")
              | None => ret true
              end) ;;
    match md5sum d with
    | Some _ =>
        valid_md5 <~ validate_md5sum fp (md5sum d) ;;
        ret (valid && valid_md5)
    | None => ret valid
    end
  else ret true.

(** [Download.__call__].  [os.makedirs(self.filepath.parent, exist_ok=True)]
    evaluates [self.filepath] first; directories are not part of [fs]. *)
Definition call (d : Download) (force_download : bool) : M bool := λ w,
  match filepath d with
  | Raise e => (Raise e, w)
  | Ok fp =>
      (downloaded <~ obtain d force_download ;; validate d fp downloaded) w
  end.

End WithDigest.

(** *** Concrete descriptors used to exercise the definitions *)

Definition python_dl : Download :=
  mkDownload "python" "https://www.python.org/ftp/python/{version}/Python-{version}.tar.xz"
    None None "download" "3.10.9" (Some "d41d8").

Definition openssl_dl : Download :=
  mkDownload "openssl" "https://www.openssl.org/source/openssl-{version}.tar.gz"
    (Some "https://mirror.example/openssl-{version}.tar.gz") None "download" "1.1.1t"
    (Some "1cfee").

Definition offline : World := mkWorld ∅ ∅ [].

(** A world in which the python tarball is already cached with the digest the
    descriptor expects, under a toy digest function (the first five
    characters) that stands in for md5 in examples only. *)
Definition head5 (s : string) : string := String.substring 0 5 s.

Definition cached_world : World :=
  mkWorld {[ "download/Python-3.10.9.tar.xz" := "d41d8cd98f" ]} ∅ [].

Example url_python :
  url python_dl = "https://www.python.org/ftp/python/3.10.9/Python-3.10.9.tar.xz".
Proof. reflexivity. Qed.

Example filepath_python : filepath python_dl = Ok "download/Python-3.10.9.tar.xz".
Proof. reflexivity. Qed.

Example filepath_no_slash :
  filepath (mkDownload "x" "archive.tar.gz" None None "download" "1" None)
  = Raise (ValueError "not enough values to unpack").
Proof. reflexivity. Qed.

(** *** Properties of [fetch_file] *)

Lemma filepath_location d fp :
  filepath d = Ok fp → get_download_location (url d) (destination d) = fp.
Proof.
  unfold filepath, get_download_location, basename.
  destruct (after_last_slash (url d)) as [n|]; [|discriminate].
  intros [= <-]. reflexivity.
Qed.

(** A primary download that succeeds yields the local path paired with
    [True], after exactly one request. *)
Lemma fetch_file_primary d w body :
  net w !! url d = Some body →
  fetch_file d w =
    (Ok (Some (get_download_location (url d) (destination d), true)),
     write_file (get_download_location (url d) (destination d)) body
       (log_request (url d) w)).
Proof.
  intros Hn. unfold fetch_file, try_except, bind, download_url. rewrite Hn. reflexivity.
Qed.

(** With a fallback configured, a failed primary download is retried once
    against the fallback; a failure of the retry reaches the caller. *)
Lemma fetch_file_fallback d w fb :
  net w !! url d = None → fallback_url d = Some fb → truthy fb = true →
  fetch_file d w = (p <~ download_url fb (destination d) ;; ret (Some (p, true)))
                     (log_request (url d) w).
Proof.
  intros Hn Hfb Ht. unfold fetch_file, try_except.
  unfold bind at 1. unfold download_url at 1. rewrite Hn. simpl.
  rewrite Hfb, Ht. reflexivity.
Qed.

Lemma fetch_file_fallback_fails d w fb :
  net w !! url d = None → fallback_url d = Some fb → truthy fb = true →
  net w !! fb = None →
  fst (fetch_file d w) = Raise (TransportError fb).
Proof.
  intros Hn Hfb Ht Hn2. rewrite (fetch_file_fallback d w fb) by assumption.
  unfold bind, download_url. simpl. rewrite Hn2. reflexivity.
Qed.

(** Whenever [fetch_file] returns a pair, its boolean is [True], the path is
    the download location of the URL that was served, and the file was
    fetched over the network by this call. *)
Lemma fetch_file_pair d w p b w' :
  fetch_file d w = (Ok (Some (p, b)), w') →
  b = true
  ∧ ∃ u body, net w !! u = Some body
      ∧ p = get_download_location u (destination d)
      ∧ fs w' !! p = Some body ∧ u ∈ requests w'.
Proof.
  unfold fetch_file, try_except, bind, download_url, ret.
  destruct (net w !! url d) as [body|] eqn:Hn; simpl.
  - intros [= <- <- <-]. split; [done|]. exists (url d), body.
    split; [done|]. split; [done|]. simpl.
    rewrite lookup_insert_eq. split; [done|]. by left.
  - destruct (fallback_url d) as [fb|]; simpl; [|discriminate].
    destruct (truthy fb); simpl; [|discriminate].
    destruct (net w !! fb) as [body|] eqn:Hfb; simpl; [|discriminate].
    intros [= <- <- <-]. split; [done|]. exists fb, body.
    split; [done|]. split; [done|]. simpl.
    rewrite lookup_insert_eq. split; [done|]. by left.
Qed.

(** C2 (code defect): when the primary download fails and no fallback is
    configured, [fetch_file] does not let the failure reach its caller: the
    handler falls off its end and the call returns [None] normally, after the
    single request to the primary URL. *)
Theorem fetch_file_swallows_failure d w :
  net w !! url d = None → fallback_url d = None →
  fetch_file d w = (Ok None, log_request (url d) w).
Proof.
  intros Hn Hfb. unfold fetch_file, try_except, bind, download_url.
  rewrite Hn. simpl. rewrite Hfb. reflexivity.
Qed.

Lemma fetch_file_swallows_failure_witness :
  net offline !! url python_dl = None ∧ fallback_url python_dl = None ∧
  fetch_file python_dl offline =
    (Ok None,
     mkWorld ∅ ∅ ["https://www.python.org/ftp/python/3.10.9/Python-3.10.9.tar.xz"]).
Proof.
  split; [reflexivity|]. split; [reflexivity|].
  apply (fetch_file_swallows_failure python_dl offline); reflexivity.
Defined.

(** *** Properties of [Download.__call__] *)

Section CallProperties.
Variable md5 : string → string.

Lemma requests_fetch_file d w :
  ∃ later, requests (snd (fetch_file d w)) = later ++ url d :: requests w.
Proof.
  unfold fetch_file, try_except, bind, download_url.
  destruct (net w !! url d) as [body|] eqn:Hn; simpl.
  - exists []. reflexivity.
  - destruct (fallback_url d) as [fb|]; simpl; [|by exists []].
    destruct (truthy fb); simpl; [|by exists []].
    destruct (net w !! fb); simpl; by exists [fb].
Qed.

Lemma requests_validate_md5sum p s w :
  requests (snd (validate_md5sum md5 p s w)) = requests w
  ∧ snd (validate_md5sum md5 p s w) = w.
Proof.
  unfold validate_md5sum, verify_checksum, ret.
  destruct s as [sum|]; simpl; [|done].
  destruct (fs w !! p) as [data|]; simpl; [|done].
  destruct (String.eqb sum (md5 data)); done.
Qed.

Lemma requests_validate d fp dl w :
  requests (snd (validate md5 d fp dl w)) = requests w.
Proof.
  unfold validate, bind, ret, raise. destruct dl; [|done].
  destruct (signature_tpl d); simpl; [done|].
  destruct (md5sum d) as [sum|] eqn:Hs; [|done].
  pose proof (requests_validate_md5sum fp (Some sum) w) as [_ Hw].
  destruct (validate_md5sum md5 fp (Some sum) w) as [[v|e] w'] eqn:Hv;
    simpl in *; by subst.
Qed.

Lemma obtain_miss d w sum fp :
  md5sum d = Some sum → truthy sum = true → filepath d = Ok fp →
  (fs w !! fp = None ∨ ∃ body, fs w !! fp = Some body ∧ md5 body ≠ sum) →
  obtain md5 d false w = (p <~ (v <~ fetch_file d ;; unpack_pair v) ;; ret (snd p)) w.
Proof.
  intros Hsum Ht Hfp Hmiss. pose proof (filepath_location d fp Hfp) as Hloc.
  unfold obtain. rewrite Hloc. unfold md5sum_truthy. rewrite Hsum, Ht.
  unfold bind at 1. unfold exists_file. unfold bind at 1.
  destruct Hmiss as [Hnone | (body & Hbody & Hne)].
  - rewrite Hnone. rewrite bool_decide_eq_false_2 by (intros [? ?]; discriminate).
    reflexivity.
  - rewrite Hbody. rewrite bool_decide_eq_true_2 by eauto. simpl.
    unfold validate_md5sum, verify_checksum. rewrite Hbody.
    destruct (String.eqb sum (md5 body)) eqn:He; [|reflexivity].
    apply String.eqb_eq in He. congruence.
Qed.

(** C6: with [force_download] false and a (non-empty) checksum configured, a
    destination file whose md5 digest equals the checksum makes
    [Download.__call__] return [True] without any network request and without
    touching the world; an absent destination file or one whose digest
    differs makes it request the primary URL. *)
Theorem call_cached_or_fetch d w sum fp :
  md5sum d = Some sum → truthy sum = true → filepath d = Ok fp →
  (∀ body, fs w !! fp = Some body → md5 body = sum →
     call md5 d false w = (Ok true, w))
  ∧ ((fs w !! fp = None ∨ ∃ body, fs w !! fp = Some body ∧ md5 body ≠ sum) →
     ∃ later, requests (snd (call md5 d false w)) = later ++ url d :: requests w).
Proof.
  intros Hsum Ht Hfp. pose proof (filepath_location d fp Hfp) as Hloc.
  split.
  - intros body Hbody Hmd5.
    unfold call, obtain, bind, exists_file, md5sum_truthy. rewrite Hfp, Hloc, Hsum, Ht.
    simpl. rewrite Hbody. rewrite bool_decide_eq_true_2 by eauto. simpl.
    unfold validate_md5sum, verify_checksum. rewrite Hbody, Hmd5, String.eqb_refl.
    reflexivity.
  - intros Hmiss. unfold call. rewrite Hfp. unfold bind at 1.
    rewrite (obtain_miss d w sum fp Hsum Ht Hfp Hmiss).
    destruct (requests_fetch_file d w) as [later Hlater]. exists later.
    unfold bind, unpack_pair, ret, raise.
    destruct (fetch_file d w) as [[[[p b]|]|e] w2]; simpl in *;
      rewrite ?requests_validate; exact Hlater.
Qed.

End CallProperties.

Lemma call_cached_or_fetch_witness :
  (call head5 python_dl false cached_world = (Ok true, cached_world))
  ∧ (∃ later, requests (snd (call head5 python_dl false offline))
              = later ++ url python_dl :: requests offline).
Proof.
  destruct (call_cached_or_fetch head5 python_dl cached_world "d41d8"
              "download/Python-3.10.9.tar.xz" eq_refl eq_refl eq_refl) as [Hhit _].
  destruct (call_cached_or_fetch head5 python_dl offline "d41d8"
              "download/Python-3.10.9.tar.xz" eq_refl eq_refl eq_refl) as [_ Hmiss].
  split.
  - apply (Hhit "d41d8cd98f"); reflexivity.
  - apply Hmiss. left. reflexivity.
Defined.

End Download.

(** ** Step registry: the entries of [Builder.recipies] *)
Module Registry.

(** A recipe as stored by [Builder.add].  The pluggable [build_func] is not
    part of the scheduling data and is represented in the step runner. *)
Record Recipe := mkRecipe {
  wait_on : list string;
  download : option Download.Download;
}.

(** Insertion of a key into a Python [dict] seen as its ordered key list: a
    key that is already present keeps its position. *)
Definition dict_add (k : string) (keys : list string) : list string :=
  if bool_decide (k ∈ keys) then keys else keys ++ [k].

(** [dict.pop(k)] on the key list. *)
Definition dict_pop (k : string) (keys : list string) : list string :=
  filter (λ x, x ≠ k) keys.

Lemma elem_of_dict_add k keys n : n ∈ dict_add k keys ↔ n ∈ keys ∨ n = k.
Proof.
  unfold dict_add. case_bool_decide as Hk.
  - split; [auto|]. intros [?|Heq]; [done|]. by subst.
  - rewrite elem_of_app, list_elem_of_singleton. done.
Qed.

Lemma elem_of_dict_pop k keys n : n ∈ dict_pop k keys ↔ n ∈ keys ∧ n ≠ k.
Proof. unfold dict_pop. rewrite list_elem_of_filter. tauto. Qed.

End Registry.

(** ** Download phase runner: [Builder.download_files] *)
Module DownloadPhase.
Import Py Registry.

(** The local state of [download_files]: the key list of the [processes]
    dictionary, the failure list, and a clock that counts the
    [proc.join(0.3)] calls made so far.  The [events] dictionary is only
    handed to [print_ui], which draws the progress line and changes nothing;
    both are left out. *)
Record state := mkState {
  clock : nat;
  processes : list string;
  fails : list string;
}.

(** How a call of [download_files] ends: normally or with [sys.exit(1)],
    what it wrote to stderr, and its last local state. *)
Record report := mkReport {
  outcome : result unit;
  stderr : list string;
  final : state;
}.

(** The spawning loop: one worker per requested step that has a download.  A
    worker is identified with its step name, as [proc.name] is. *)
Fixpoint spawn (recipies : gmap string Recipe) (steps procs : list string)
  : result (list string) :=
  match steps with
  | [] => Ok procs
  | name :: rest =>
      match recipies !! name with
      | None => Raise (KeyError name)
      | Some r =>
          match download r with
          | None => spawn recipies rest procs
          | Some _ => spawn recipies rest (dict_add name procs)
          end
      end
  end.

(** *** A concrete download phase *)

Definition demo_recipies : gmap string Recipe :=
  {[ "openssl" := mkRecipe [] (Some Download.openssl_dl);
     "python" := mkRecipe ["openssl"] (Some Download.python_dl);
     "relenv-finalize" := mkRecipe ["python"] None ]}.

Definition demo_steps : list string := ["openssl"; "python"; "relenv-finalize"].

(** The openssl worker terminates after three polls with status 1, the
    python worker after two polls with status 0. *)
Definition demo_behaviour (p : string) : nat * Z :=
  if String.eqb p "openssl" then (3, 1%Z) else (2, 0%Z).

(** The behaviour of the worker that runs [Download.__call__] for [d]: it
    terminates after [t] polls with the exit status of that call. *)
Definition worker_of (md5 : string → string) (d : Download.Download)
    (force : bool) (w : Download.World) (t : nat) : string → nat * Z :=
  λ _, (t, exitcode (fst (Download.call md5 d force w))).

Section Workers.

(** What each worker does, seen from the runner: the number of
    [proc.join(0.3)] calls after which it has terminated, and the exit status
    it terminates with. *)
Variable behaviour : string → nat * Z.

Definition exit_at (p : string) : nat := fst (behaviour p).
Definition code (p : string) : Z := snd (behaviour p).

(** [proc.exitcode] when the clock reads [now]. *)
Definition exitcode_at (p : string) (now : nat) : option Z :=
  if bool_decide (exit_at p ≤ now) then Some (code p) else None.

(** One iteration of the inner [for proc in list(processes.values())] loop. *)
Definition poll (st : state) (p : string) : state :=
  let now := S (clock st) in
  match exitcode_at p now with
  | None => mkState now (processes st) (fails st)
  | Some c =>
      mkState now (dict_pop p (processes st))
        (if bool_decide (c ≠ 0%Z) then fails st ++ [p] else fails st)
  end.

Definition sweep (st : state) : state := foldl poll st (processes st).

(** [while processes: ...] *)
Fixpoint wait_all (fuel : nat) (st : state) : option state :=
  match processes st with
  | [] => Some st
  | _ :: _ =>
      match fuel with
      | O => None
      | S f => wait_all f (sweep st)
      end
  end.

Definition newline : string := String "010"%char EmptyString.

Definition failure_header : string :=
  "The following failures were reported" +:+ newline.

(** [Builder.download_files]; [None] only when the fuel for the polling loop
    runs out. *)
Definition download_files (fuel : nat) (recipies : gmap string Recipe)
    (steps : list string) : option report :=
  match spawn recipies steps [] with
  | Raise e => Some (mkReport (Raise e) [] (mkState 0 [] []))
  | Ok procs =>
      match wait_all fuel (mkState 0 procs []) with
      | None => None
      | Some st =>
          match fails st with
          | [] => Some (mkReport (Ok tt) [] st)
          | _ :: _ =>
              Some (mkReport (Raise (SystemExit 1))
                      (failure_header :: map (λ f, f +:+ newline) (fails st)) st)
          end
      end
  end.

(** The tail of [Builder.__call__]: [self.download_files(...)] followed by
    [self.build(...)].  The boolean records whether the build phase was
    entered. *)
Definition builder_call (fuel : nat) (recipies : gmap string Recipe)
    (steps : list string) (build : list string → result unit)
  : option (result unit * bool) :=
  match download_files fuel recipies steps with
  | None => None
  | Some r =>
      match outcome r with
      | Ok _ => Some (build steps, true)
      | Raise e => Some (Raise e, false)
      end
  end.

(** The steps for which a worker is spawned. *)
Definition spawned (recipies : gmap string Recipe) (steps : list string)
    (n : string) : Prop :=
  n ∈ steps ∧ ∃ r d, recipies !! n = Some r ∧ download r = Some d.

(** Bookkeeping invariant of the loop over the spawned workers [S]: the
    failure list holds exactly the reaped workers with a non-zero status, and
    a worker leaves [processes] only after it has terminated. *)
Definition accounted (W : list string) (st : state) : Prop :=
  (∀ n, n ∈ fails st ↔ n ∈ W ∧ (n ∉ processes st) ∧ code n ≠ 0%Z) ∧
  (∀ n, n ∈ W → n ∉ processes st → exit_at n ≤ clock st) ∧
  (∀ n, n ∈ processes st → n ∈ W).

(** *** The spawning loop *)

Lemma spawn_spec recipies steps : ∀ procs,
  (∀ n, n ∈ steps → is_Some (recipies !! n)) →
  ∃ procs', spawn recipies steps procs = Ok procs' ∧
    ∀ n, n ∈ procs' ↔ n ∈ procs ∨ spawned recipies steps n.
Proof.
  induction steps as [|s steps IH]; intros procs Hrec; simpl.
  - exists procs. split; [done|]. intros n. unfold spawned. split; [auto|].
    intros [?|[H _]]; [done|]. by apply elem_of_nil in H.
  - destruct (Hrec s) as [r Hr]; [left|]. rewrite Hr.
    assert (Hrest : ∀ n, n ∈ steps → is_Some (recipies !! n))
      by (intros; apply Hrec; by right).
    destruct (download r) as [d|] eqn:Hd.
    + destruct (IH (dict_add s procs) Hrest) as (procs' & Heq & Hin).
      exists procs'. split; [done|]. intros n.
      rewrite Hin, elem_of_dict_add. unfold spawned. rewrite elem_of_cons.
      split.
      * intros [[?|Heq']|[? ?]]; subst; eauto 10.
      * intros [?|[[Heq'|?] ?]]; subst; eauto.
    + destruct (IH procs Hrest) as (procs' & Heq & Hin).
      exists procs'. split; [done|]. intros n.
      rewrite Hin. unfold spawned. rewrite elem_of_cons.
      split.
      * intros [?|[? ?]]; eauto.
      * intros [?|[[Heq'|?] (r' & d & Hr' & Hd')]]; subst; eauto 10.
        rewrite Hr in Hr'. injection Hr' as <-. congruence.
Qed.

(** *** The polling loop *)

Lemma poll_accounted W st p :
  accounted W st → p ∈ W → accounted W (poll st p).
Proof.
  intros (Hf & Ht & Hs) Hp. unfold poll, exitcode_at.
  case_bool_decide as Hexit; unfold accounted; cbn [clock processes fails].
  - split; [|split].
    + intros n. destruct (decide (n = p)) as [->|Hne].
      * case_bool_decide as Hc;
          rewrite ?elem_of_app, ?list_elem_of_singleton, Hf, elem_of_dict_pop;
          tauto.
      * case_bool_decide as Hc;
          rewrite ?elem_of_app, ?list_elem_of_singleton, Hf, elem_of_dict_pop;
          tauto.
    + intros n Hn Hnp. rewrite elem_of_dict_pop in Hnp.
      destruct (decide (n = p)) as [->|Hne]; [lia|].
      assert (Hnot : n ∉ processes st) by tauto.
      specialize (Ht n Hn Hnot). lia.
    + intros n. rewrite elem_of_dict_pop. intros [? _]. by apply Hs.
  - split; [done|]. split; [|done].
    intros n Hn Hnp. specialize (Ht n Hn Hnp). lia.
Qed.

Lemma foldl_poll_accounted W l : ∀ st,
  accounted W st → (∀ p, p ∈ l → p ∈ W) → accounted W (foldl poll st l).
Proof.
  induction l as [|p l IH]; intros st Hacc Hl; simpl; [done|].
  apply IH.
  - apply poll_accounted; [done|]. apply Hl. by left.
  - intros; apply Hl. by right.
Qed.

Lemma poll_clock st p : clock (poll st p) = S (clock st).
Proof. unfold poll. by destruct (exitcode_at p (S (clock st))). Qed.

Lemma foldl_poll_clock l : ∀ st, clock (foldl poll st l) = clock st + List.length l.
Proof.
  induction l as [|p l IH]; intros st; simpl; [lia|].
  rewrite IH, poll_clock. lia.
Qed.

Lemma poll_sub st p n : n ∈ processes (poll st p) → n ∈ processes st.
Proof.
  unfold poll. destruct (exitcode_at p (S (clock st))); simpl; [|done].
  rewrite elem_of_dict_pop. naive_solver.
Qed.

Lemma foldl_poll_sub l : ∀ st n,
  n ∈ processes (foldl poll st l) → n ∈ processes st.
Proof.
  induction l as [|p l IH]; intros st n; simpl; [done|].
  intros H. eapply poll_sub, IH, H.
Qed.

(** A worker that was polled during a sweep and is still in [processes]
    afterwards had not terminated when the sweep began. *)
Lemma foldl_poll_pending l : ∀ st t0 n,
  t0 ≤ clock st → n ∈ l → n ∈ processes (foldl poll st l) → t0 < exit_at n.
Proof.
  induction l as [|p l IH]; intros st t0 n Ht Hin Hproc; simpl in *.
  - by apply elem_of_nil in Hin.
  - destruct (decide (n = p)) as [->|Hne].
    + apply foldl_poll_sub in Hproc. revert Hproc. unfold poll, exitcode_at.
      case_bool_decide as Hexit; simpl.
      * rewrite elem_of_dict_pop. naive_solver.
      * intros _. lia.
    + apply elem_of_cons in Hin as [?|Hin]; [done|].
      apply (IH (poll st p)); [rewrite poll_clock; lia|done..].
Qed.

Lemma wait_all_nil fuel st : processes st = [] → wait_all fuel st = Some st.
Proof. intros H. destruct fuel; simpl; by rewrite H. Qed.

Lemma wait_all_cons fuel st :
  processes st ≠ [] → wait_all (S fuel) st = wait_all fuel (sweep st).
Proof. intros H. simpl. by destruct (processes st). Qed.

(** If every spawned worker terminates by time [T], the loop ends within
    [T + 1] sweeps, with every worker reaped. *)
Lemma wait_all_terminates W T : ∀ fuel st,
  accounted W st → (∀ n, n ∈ W → exit_at n ≤ T) → T + 1 - clock st < fuel →
  ∃ st', wait_all fuel st = Some st' ∧ accounted W st' ∧ processes st' = [].
Proof.
  induction fuel as [|fuel IH]; intros st Hacc HT Hfuel; [lia|].
  destruct (processes st) as [|p ps] eqn:Hp.
  - exists st. by rewrite wait_all_nil.
  - rewrite wait_all_cons by (rewrite Hp; done).
    assert (Hacc1 : accounted W (sweep st)).
    { apply foldl_poll_accounted; [done|]. apply Hacc. }
    destruct (processes (sweep st)) as [|q qs] eqn:Hq.
    + exists (sweep st). by rewrite wait_all_nil.
    + apply IH; [done..|].
      assert (Hqin : q ∈ processes (sweep st)) by (rewrite Hq; left).
      assert (clock st < exit_at q).
      { apply (foldl_poll_pending (processes st) st); [lia| |exact Hqin].
        eapply foldl_poll_sub, Hqin. }
      assert (exit_at q ≤ T) by (apply HT, Hacc1, Hqin).
      unfold sweep. rewrite foldl_poll_clock, Hp. simpl. lia.
Qed.

(** C5: for distinct requested steps that all have a recipe, and workers that
    all terminate, [download_files] returns once the polling loop has fuel for
    the slowest worker.  When it does, no worker is left in [processes] and
    each spawned worker had terminated by then; the failure list holds exactly
    the spawned workers whose exit status is non-zero; with no failure the
    call returns normally and the build phase is entered; with a failure every
    failing name is written to stderr after the header, the call exits with
    status 1, and the build phase is not entered. *)
Theorem download_files_all_or_nothing recipies steps build :
  NoDup steps → (∀ n, n ∈ steps → is_Some (recipies !! n)) →
  ∃ fuel0, ∀ fuel, fuel0 ≤ fuel →
    ∃ r, download_files fuel recipies steps = Some r ∧
      processes (final r) = [] ∧
      (∀ n, spawned recipies steps n → exit_at n ≤ clock (final r)) ∧
      (∀ n, n ∈ fails (final r) ↔ spawned recipies steps n ∧ code n ≠ 0%Z) ∧
      (fails (final r) = [] →
         outcome r = Ok tt ∧ stderr r = [] ∧
         builder_call fuel recipies steps build = Some (build steps, true)) ∧
      (fails (final r) ≠ [] →
         outcome r = Raise (SystemExit 1) ∧
         stderr r = failure_header :: map (λ f, f +:+ newline) (fails (final r)) ∧
         builder_call fuel recipies steps build = Some (Raise (SystemExit 1), false)).
Proof.
  intros _ Hrec.
  destruct (spawn_spec recipies steps [] Hrec) as (procs & Hspawn & Hprocs).
  assert (Hin : ∀ n, n ∈ procs ↔ spawned recipies steps n).
  { intros n. rewrite Hprocs. split; [|auto]. intros [H|?]; [|done].
    by apply elem_of_nil in H. }
  set (T := max_list (exit_at <$> procs)).
  exists (T + 2). intros fuel Hfuel.
  destruct (wait_all_terminates procs T fuel (mkState 0 procs [])) as (st & Hw & Hacc & Hnil).
  - split; [|split]; simpl.
    + intros n. split; [by intros ?%elem_of_nil|]. naive_solver.
    + intros n Hn Hnot. done.
    + done.
  - intros n Hn. apply max_list_elem_of_le, list_elem_of_fmap_2, Hn.
  - simpl. lia.
  - destruct Hacc as (Hf & Ht & Hs).
    assert (Hfails : ∀ n, n ∈ fails st ↔ spawned recipies steps n ∧ code n ≠ 0%Z).
    { intros n. rewrite Hf, Hnil, Hin. split; [naive_solver|].
      intros [? ?]. split; [done|]. split; [apply not_elem_of_nil|done]. }
    assert (Htime : ∀ n, spawned recipies steps n → exit_at n ≤ clock st).
    { intros n Hn. apply Ht; [by apply Hin|]. rewrite Hnil. apply not_elem_of_nil. }
    unfold builder_call, download_files. rewrite Hspawn, Hw.
    destruct (fails st) as [|f fs] eqn:Hfs.
    + exists (mkReport (Ok tt) [] st). split; [done|].
      cbn [final outcome stderr]. rewrite Hfs.
      split; [done|]. split; [done|]. split; [done|]. split; [done|].
      intros Hne. done.
    + exists (mkReport (Raise (SystemExit 1))
                (failure_header :: map (λ f, f +:+ newline) (f :: fs)) st).
      split; [done|]. cbn [final outcome stderr]. rewrite Hfs.
      split; [done|]. split; [done|]. split; [done|]. split; [done|].
      intros _. done.
Qed.

End Workers.

(** *** The concrete download phase, run *)

Example demo_download_files :
  download_files demo_behaviour 10 demo_recipies demo_steps
  = Some (mkReport (Raise (SystemExit 1))
            [failure_header; "openssl" +:+ newline]
            (mkState 3 [] ["openssl"])).
Proof. vm_compute. reflexivity. Qed.

Example demo_builder_call build :
  builder_call demo_behaviour 10 demo_recipies demo_steps build
  = Some (Raise (SystemExit 1), false).
Proof. vm_compute. reflexivity. Qed.

Lemma download_files_all_or_nothing_witness :
  NoDup demo_steps ∧ (∀ n, n ∈ demo_steps → is_Some (demo_recipies !! n)) ∧
  ∃ fuel0, ∀ fuel, fuel0 ≤ fuel →
    ∃ r, download_files demo_behaviour fuel demo_recipies demo_steps = Some r ∧
      processes (final r) = [] ∧
      (∀ n, spawned demo_recipies demo_steps n →
            exit_at demo_behaviour n ≤ clock (final r)) ∧
      (∀ n, n ∈ fails (final r) ↔
            spawned demo_recipies demo_steps n ∧ code demo_behaviour n ≠ 0%Z) ∧
      (fails (final r) = [] →
         outcome r = Ok tt ∧ stderr r = [] ∧
         builder_call demo_behaviour fuel demo_recipies demo_steps (λ _, Ok tt)
         = Some (Ok tt, true)) ∧
      (fails (final r) ≠ [] →
         outcome r = Raise (SystemExit 1) ∧
         stderr r = failure_header :: map (λ f, f +:+ newline) (fails (final r)) ∧
         builder_call demo_behaviour fuel demo_recipies demo_steps (λ _, Ok tt)
         = Some (Raise (SystemExit 1), false)).
Proof.
  assert (Hnd : NoDup demo_steps).
  { unfold demo_steps. repeat (apply NoDup_cons; split; [set_solver|]).
    apply NoDup_nil_2. }
  assert (Hrec : ∀ n, n ∈ demo_steps → is_Some (demo_recipies !! n)).
  { intros n Hn. unfold demo_steps in Hn.
    repeat (apply elem_of_cons in Hn as [->|Hn]; [eexists; vm_compute; reflexivity|]).
    by apply elem_of_nil in Hn. }
  split; [exact Hnd|]. split; [exact Hrec|].
  exact (download_files_all_or_nothing demo_behaviour demo_recipies demo_steps
           (λ _, Ok tt) Hnd Hrec).
Defined.

(** *** Validation failures and the download phase *)

Lemma call_checksum_mismatch md5 d w sum fp body force :
  Download.signature_tpl d = None → Download.md5sum d = Some sum →
  Download.filepath d = Ok fp →
  Download.net w !! Download.url d = Some body → md5 body ≠ sum →
  (force = true ∨ Download.fs w !! fp = None) →
  fst (Download.call md5 d force w) = Ok false.
Proof.
  intros Hsig Hsum Hfp Hnet Hne Hforce.
  pose proof (Download.filepath_location d fp Hfp) as Hloc.
  assert (Hobtain : Download.obtain md5 d force w =
            (Ok true, Download.write_file fp body
                        (Download.log_request (Download.url d) w))).
  { unfold Download.obtain.
    assert (Hfetch : Download.bind
              (Download.bind (Download.fetch_file d) Download.unpack_pair)
              (λ p, Download.ret (snd p)) w
            = (Ok true, Download.write_file fp body
                          (Download.log_request (Download.url d) w))).
    { unfold Download.bind. rewrite (Download.fetch_file_primary d w body Hnet).
      rewrite Hloc. reflexivity. }
    destruct force; [exact Hfetch|].
    destruct Hforce as [?|Hnone]; [discriminate|].
    rewrite Hloc. unfold Download.bind at 1. unfold Download.exists_file.
    rewrite Hnone. rewrite bool_decide_eq_false_2 by (intros [? ?]; discriminate).
    rewrite andb_false_r. unfold Download.bind at 1. unfold Download.ret at 1.
    exact Hfetch. }
  unfold Download.call. rewrite Hfp. unfold Download.bind at 1. rewrite Hobtain.
  unfold Download.validate. rewrite Hsig, Hsum.
  unfold Download.bind, Download.ret, Download.validate_md5sum,
    Download.verify_checksum, Download.write_file. simpl.
  rewrite lookup_insert_eq.
  destruct (String.eqb sum (md5 body)) eqn:He; [|reflexivity].
  apply String.eqb_eq in He. congruence.
Qed.

(** C1 (code defect): a freshly downloaded artifact whose md5 digest differs
    from the configured checksum makes [Download.__call__] return [False], but
    the worker process that runs it still exits with status 0; the download
    phase therefore records no failure for the step, returns normally, and
    the build phase is entered. *)
Theorem checksum_failure_not_fatal md5 d w sum fp body force t wait build fuel :
  Download.signature_tpl d = None → Download.md5sum d = Some sum →
  Download.filepath d = Ok fp →
  Download.net w !! Download.url d = Some body → md5 body ≠ sum →
  (force = true ∨ Download.fs w !! fp = None) →
  t + 2 ≤ fuel →
  fst (Download.call md5 d force w) = Ok false ∧
  exitcode (fst (Download.call md5 d force w)) = 0%Z ∧
  (∃ r, download_files (worker_of md5 d force w t) fuel
          {[ Download.name d := mkRecipe wait (Some d) ]} [Download.name d] = Some r
        ∧ outcome r = Ok tt ∧ fails (final r) = []) ∧
  builder_call (worker_of md5 d force w t) fuel
    {[ Download.name d := mkRecipe wait (Some d) ]} [Download.name d] build
  = Some (build [Download.name d], true).
Proof.
  intros Hsig Hsum Hfp Hnet Hne Hforce Hfuel.
  pose proof (call_checksum_mismatch md5 d w sum fp body force
                Hsig Hsum Hfp Hnet Hne Hforce) as Hcall.
  split; [exact Hcall|]. split; [by rewrite Hcall|].
  set (beh := worker_of md5 d force w t).
  set (n := Download.name d).
  assert (Hcode : ∀ p, code beh p = 0%Z).
  { intros p. unfold code, beh, worker_of. simpl. by rewrite Hcall. }
  assert (Hspawn : spawn {[ n := mkRecipe wait (Some d) ]} [n] [] = Ok [n]).
  { simpl. rewrite lookup_singleton_eq. reflexivity. }
  destruct (wait_all_terminates beh [n] t fuel (mkState 0 [n] []))
    as (st & Hw & (Hf & _ & _) & Hnil).
  { split; [|split]; simpl; [|done..].
    intros p. split; [by intros ?%elem_of_nil|]. intros (? & ? & ?). done. }
  { intros p _. reflexivity. }
  { simpl. lia. }
  assert (Hfails : fails st = []).
  { apply elem_of_nil_inv. intros p Hp. apply Hf in Hp as (_ & _ & Hc).
    apply Hc, Hcode. }
  unfold builder_call, download_files. rewrite Hspawn, Hw, Hfails.
  split; [|done]. eexists. split; [reflexivity|]. done.
Qed.

Lemma checksum_failure_not_fatal_witness :
  fst (Download.call Download.head5 Download.python_dl false
         (Download.mkWorld ∅ {[ Download.url Download.python_dl := "tampered" ]} []))
  = Ok false ∧
  builder_call
    (worker_of Download.head5 Download.python_dl false
       (Download.mkWorld ∅ {[ Download.url Download.python_dl := "tampered" ]} []) 1)
    3 {[ "python" := mkRecipe [] (Some Download.python_dl) ]} ["python"]
    (λ _, Ok tt)
  = Some (Ok tt, true).
Proof.
  destruct (checksum_failure_not_fatal Download.head5 Download.python_dl
              (Download.mkWorld ∅ {[ Download.url Download.python_dl := "tampered" ]} [])
              "d41d8" "download/Python-3.10.9.tar.xz" "tampered" false 1 []
              (λ _, Ok tt) 3)
    as (H1 & _ & _ & H4).
  - reflexivity.
  - reflexivity.
  - reflexivity.
  - vm_compute. reflexivity.
  - vm_compute. discriminate.
  - right. reflexivity.
  - lia.
  - split; [exact H1|exact H4].
Defined.

End DownloadPhase.

(** ** Scheduler: [Builder.build] *)
Module Scheduler.
Import Py Registry.

(** [list.remove(x)]: drop the first occurrence. *)
Fixpoint remove_first (x : string) (l : list string) : list string :=
  match l with
  | [] => []
  | y :: l' => if bool_decide (x = y) then l' else y :: remove_first x l'
  end.

(** The pruning loop [for _ in wait_on[:]: if _ not in steps: wait_on.remove(_)]
    iterates over a copy and mutates the list itself. *)
Definition prune (steps wait_on : list string) : list string :=
  foldl (λ w d, if bool_decide (d ∈ steps) then w else remove_first d w)
        wait_on wait_on.

(** What the operating system knows about a worker process running
    [Builder.run]. *)
Inductive worker :=
| Blocked               (* in the [while event.is_set() is False] loop *)
| Building              (* past the gate: the build action was invoked *)
| Done (c : Z)          (* the build action ended; the process exited with [c] *)
| Killed (ran : bool).  (* ended by [terminate()]; [ran]: was it building? *)

(** [proc.exitcode] *)
Definition exit_status (w : worker) : option Z :=
  match w with
  | Blocked | Building => None
  | Done c => Some c
  | Killed _ => Some SIGTERM_exit
  end.

(** Has the build action of this worker been invoked? *)
Definition invoked (w : worker) : bool :=
  match w with
  | Building | Done _ | Killed true => true
  | Blocked | Killed false => false
  end.

(** [proc.terminate()]: SIGTERM ends a live worker at once and does nothing to
    one that has already exited. *)
Definition terminate (w : worker) : worker :=
  match w with
  | Blocked => Killed false
  | Building => Killed true
  | Done c => Done c
  | Killed r => Killed r
  end.

(** The local dictionaries of [Builder.build] together with the worker
    processes they refer to.  [order] is the key order of [waits];
    [processes] is the key list of the dictionary of process handles. *)
Record state := mkState {
  fails : list string;
  events : gmap string bool;
  waits : gmap string (list string);
  order : list string;
  processes : list string;
  workers : gmap string worker;
}.

Definition empty_state : state := mkState [] ∅ ∅ [] [] ∅.

(** One iteration of the start-up loop.  [waits[name]] is the recipe's own
    [wait_on] list object, pruned in place; one call of [build] is modelled.
    The list is held by value here: this is the scheduler of a build whose
    requested steps were registered with a list each.  The module
    [Aliasing] holds the lists by reference, shows that the two schedulers
    agree for such builds, and what happens when two steps share a list. *)
Definition start (steps : list string) (st : state) (name : string) (r : Recipe)
  : state :=
  let wait_on := prune steps (wait_on r) in
  mkState (fails st)
    (<[name := bool_decide (wait_on = [])]> (events st))
    (<[name := wait_on]> (waits st))
    (dict_add name (order st))
    (dict_add name (processes st))
    (<[name := Blocked]> (workers st)).

Fixpoint start_all (recipies : gmap string Recipe) (steps todo : list string)
    (st : state) : result state :=
  match todo with
  | [] => Ok st
  | name :: rest =>
      match recipies !! name with
      | None => Raise (KeyError name)
      | Some r => start_all recipies steps rest (start steps st name r)
      end
  end.

Definition init (recipies : gmap string Recipe) (steps : list string) : result state :=
  start_all recipies steps steps empty_state.

(** The body of [for name in waits:] after worker [p] was found terminated.
    [waits[name].remove] acts on the list of [name] alone, each step having
    a list of its own (see [start]). *)
Definition visit (p : string) (is_failure : bool) (st : state) (name : string)
  : state :=
  let w := default [] (waits st !! name) in
  let st1 :=
    if bool_decide (p ∈ w) then
      mkState (fails st) (events st)
        (<[name := remove_first p w]> (waits st))
        (order st) (processes st)
        (if is_failure && bool_decide (name ∈ processes st)
         then alter terminate name (workers st) else workers st)
    else st in
  if bool_decide (default [] (waits st1 !! name) = [])
     && negb (default false (events st1 !! name))
  then mkState (fails st1) (<[name := true]> (events st1)) (waits st1)
         (order st1) (processes st1) (workers st1)
  else st1.

(** The state after [processes.pop] and the update of the failure record. *)
Definition popped (p : string) (c : Z) (st : state) : state :=
  mkState (if bool_decide (c ≠ 0%Z) then fails st ++ [p] else fails st)
    (events st) (waits st) (order st) (dict_pop p (processes st)) (workers st).

(** The orchestrator's reaction to finding worker [p] exited with status [c]:
    [processes.pop], the failure record, and the loop over [waits]. *)
Definition reap (p : string) (c : Z) (st : state) : state :=
  foldl (visit p (bool_decide (c ≠ 0%Z))) (popped p c st) (order st).

Definition set_worker (n : string) (w : worker) (st : state) : state :=
  mkState (fails st) (events st) (waits st) (order st) (processes st)
    (<[n := w]> (workers st)).

(** One iteration of [for proc in list(processes.values())]: a worker that
    has not exited is skipped. *)
Definition poll (st : state) (p : string) : state :=
  match workers st !! p with
  | Some w =>
      match exit_status w with
      | Some c => reap p c st
      | None => st
      end
  | None => st
  end.

(** One pass of the inner loop over a snapshot of the handles. *)
Definition sweep (st : state) : state := foldl poll st (processes st).

(** The moves of the system made of the orchestrator and its workers.  A
    poll that finds [proc.exitcode is None] changes nothing and is left out;
    workers move between any two polls, and every pass of the Python loop is
    a sequence of these moves ([sweep_moves]). *)
Inductive step : state → state → Prop :=
| step_pass n st :
    workers st !! n = Some Blocked → events st !! n = Some true →
    step st (set_worker n Building st)
| step_finish n c st :
    workers st !! n = Some Building →
    step st (set_worker n (Done c) st)
| step_reap n w c st :
    n ∈ processes st → workers st !! n = Some w → exit_status w = Some c →
    step st (reap n c st).

Inductive reachable (s0 : state) : state → Prop :=
| reach_init : reachable s0 s0
| reach_step s s' : reachable s0 s → step s s' → reachable s0 s'.

(** An executable form of the moves, used to build concrete runs. *)
Inductive action :=
| PassGate (n : string)
| Finish (n : string) (c : Z)
| Reap (n : string)
| Sweep.

Definition exec (a : action) (st : state) : option state :=
  match a with
  | PassGate n =>
      match workers st !! n, events st !! n with
      | Some Blocked, Some true => Some (set_worker n Building st)
      | _, _ => None
      end
  | Finish n c =>
      match workers st !! n with
      | Some Building => Some (set_worker n (Done c) st)
      | _ => None
      end
  | Reap n =>
      if bool_decide (n ∈ processes st) then
        match workers st !! n with
        | Some w =>
            match exit_status w with
            | Some c => Some (reap n c st)
            | None => None
            end
        | None => None
        end
      else None
  | Sweep => if bool_decide (NoDup (processes st)) then Some (sweep st) else None
  end.

Fixpoint run (acts : list action) (st : state) : option state :=
  match acts with
  | [] => Some st
  | a :: rest =>
      match exec a st with
      | Some st' => run rest st'
      | None => None
      end
  end.

(** A dependency path: [path D a b] when [b] depends on [a] through one or
    more edges of the dependency map [D]. *)
Inductive path (D : gmap string (list string)) : string → string → Prop :=
| path_edge a b ds : D !! b = Some ds → a ∈ ds → path D a b
| path_next a b c ds : path D a b → D !! c = Some ds → b ∈ ds → path D a c.

(** A step counts as cancelled when its worker was terminated by the
    orchestrator. *)
Definition cancelled (st : state) (n : string) : Prop :=
  ∃ ran, workers st !! n = Some (Killed ran).

Definition failed (st : state) (n : string) : Prop :=
  ∃ w c, workers st !! n = Some w ∧ exit_status w = Some c ∧ c ≠ 0%Z.

Definition never_ran (st : state) (n : string) : Prop :=
  ∃ w, workers st !! n = Some w ∧ invoked w = false.

(** The entries of one step after a pass over [waits]: its gate and its
    worker. *)
Definition ev_after (p : string) (ow : option (list string)) (oe : option bool)
  : option bool :=
  if bool_decide (default [] (remove_first p <$> ow) = []) && negb (default false oe)
  then Some true else oe.

Definition wk_after (p : string) (f : bool) (procs : list string) (n : string)
    (ow : option (list string)) (owk : option worker) : option worker :=
  if bool_decide (p ∈ default [] ow) && f && bool_decide (n ∈ procs)
  then terminate <$> owk else owk.

(** The state after the start-up loop has handled the steps in [done]. *)
Definition started (recipies : gmap string Recipe) (steps done : list string)
    (st : state) : Prop :=
  fails st = [] ∧ order st = done ∧ processes st = done
  ∧ (∀ n, n ∈ done → ∃ r, recipies !! n = Some r
       ∧ waits st !! n = Some (filter (λ d, d ∈ steps) (wait_on r))
       ∧ events st !! n
         = Some (bool_decide (filter (λ d, d ∈ steps) (wait_on r) = []))
       ∧ workers st !! n = Some Blocked)
  ∧ (∀ n, n ∉ done →
       waits st !! n = None ∧ events st !! n = None ∧ workers st !! n = None).

(** The scheduling invariant.  [D] is the dependency map fixed at start-up
    (each requested step with its dependencies inside the requested set). *)
Record inv (D : gmap string (list string)) (st : state) : Prop := mkInv {
  inv_nodup : NoDup (order st);
  inv_order : ∀ n, n ∈ order st ↔ is_Some (D !! n);
  inv_closed : ∀ n ds d, D !! n = Some ds → d ∈ ds → is_Some (D !! d);
  inv_waits : ∀ n ds, D !! n = Some ds →
    ∃ w, waits st !! n = Some w ∧ ∀ d, d ∈ w → d ∈ ds;
  inv_events : ∀ n ds, D !! n = Some ds →
    ∃ e, events st !! n = Some e ∧ (e = true ↔ waits st !! n = Some []);
  inv_workers : ∀ n ds, D !! n = Some ds → is_Some (workers st !! n);
  inv_procs : ∀ n, n ∈ processes st → is_Some (D !! n);
  inv_procs_nodup : NoDup (processes st);
  inv_pending : ∀ n ds d w, D !! n = Some ds → d ∈ ds → d ∈ processes st →
    waits st !! n = Some w → d ∈ w;
  inv_gate : ∀ n wk, workers st !! n = Some wk → invoked wk = true →
    events st !! n = Some true;
  inv_cascade : ∀ n ds d, D !! n = Some ds → d ∈ ds → d ∉ processes st →
    failed st d → workers st !! n = Some (Killed false);
  inv_reaped : ∀ n ds, D !! n = Some ds → n ∉ processes st →
    ∃ wk c, workers st !! n = Some wk ∧ exit_status wk = Some c
            ∧ (n ∈ fails st ↔ c ≠ 0%Z);
  inv_fails : ∀ n, n ∈ fails st → is_Some (D !! n) ∧ n ∉ processes st;
  inv_killed : ∀ n, cancelled st n →
    ∃ F c, workers st !! F = Some (Done c) ∧ c ≠ 0%Z ∧ path D F n;
}.

(** *** A concrete build: the graph [{A: [], B: [], C: [A, B], D: [C]}] *)

Definition abcd : gmap string Recipe :=
  {[ "A" := mkRecipe [] None; "B" := mkRecipe ["zlib"] None;
     "C" := mkRecipe ["A"; "B"] None; "D" := mkRecipe ["C"] None ]}.

Definition abcd_steps : list string := ["A"; "B"; "C"; "D"].

Definition abcd_init : state :=
  mkState []
    {[ "A" := true; "B" := true; "C" := false; "D" := false ]}
    {[ "A" := []; "B" := []; "C" := ["A"; "B"]; "D" := ["C"] ]}
    abcd_steps abcd_steps
    {[ "A" := Blocked; "B" := Blocked; "C" := Blocked; "D" := Blocked ]}.

Example init_abcd : init abcd abcd_steps = Ok abcd_init.
Proof. vm_compute. reflexivity. Qed.

(** [B] fails while [A] succeeds. *)
Definition b_fails : list action :=
  [PassGate "A"; PassGate "B"; Finish "B" 1; Sweep; Finish "A" 0; Sweep].

(** The first pass reaps [B], then [C], which the reaping of [B] terminated,
    then [D], which the reaping of [C] terminated. *)
Example first_sweep :
  run [PassGate "A"; PassGate "B"; Finish "B" 1; Sweep] abcd_init
  = run [PassGate "A"; PassGate "B"; Finish "B" 1; Reap "B"; Reap "C"; Reap "D"]
        abcd_init.
Proof. vm_compute. reflexivity. Qed.

Definition abcd_final : state :=
  mkState ["B"; "C"; "D"]
    {[ "A" := true; "B" := true; "C" := true; "D" := true ]}
    {[ "A" := []; "B" := []; "C" := []; "D" := [] ]}
    abcd_steps []
    {[ "A" := Done 0; "B" := Done 1; "C" := Killed false; "D" := Killed false ]}.

Example run_b_fails : run b_fails abcd_init = Some abcd_final.
Proof. vm_compute. reflexivity. Qed.

(** Both prerequisites succeed. *)
Example run_all_succeed :
  run [PassGate "A"; PassGate "B"; Finish "B" 0; Sweep; Finish "A" 0; Sweep;
       PassGate "C"; Finish "C" 0; Sweep; PassGate "D"; Finish "D" 0; Sweep]
      abcd_init
  = Some (mkState []
            {[ "A" := true; "B" := true; "C" := true; "D" := true ]}
            {[ "A" := []; "B" := []; "C" := []; "D" := [] ]}
            abcd_steps []
            {[ "A" := Done 0; "B" := Done 0; "C" := Done 0; "D" := Done 0 ]}).
Proof. vm_compute. reflexivity. Qed.

(** [C] cannot pass its gate while a prerequisite is still running. *)
Example run_gate_closed :
  run [PassGate "A"; Finish "A" 0; Sweep; PassGate "C"] abcd_init = None.
Proof. vm_compute. reflexivity. Qed.

(** *** List removal and pruning *)

Lemma remove_first_notin p l : p ∉ l → remove_first p l = l.
Proof.
  induction l as [|y l IH]; intros Hp; simpl; [done|].
  apply not_elem_of_cons in Hp as [Hne Hp].
  rewrite bool_decide_eq_false_2 by done. by rewrite IH.
Qed.

Lemma elem_of_remove_first p l d : d ∈ remove_first p l → d ∈ l.
Proof.
  induction l as [|y l IH]; simpl; [done|].
  case_bool_decide; [by right|].
  rewrite !elem_of_cons. intros [?|?]; auto.
Qed.

Lemma elem_of_remove_first_ne p l d : d ≠ p → d ∈ l → d ∈ remove_first p l.
Proof.
  intros Hne. induction l as [|y l IH]; simpl; [done|].
  rewrite elem_of_cons. case_bool_decide as Hy.
  - intros [?|?]; [congruence|done].
  - rewrite elem_of_cons. intros [?|?]; auto.
Qed.

Lemma remove_first_middle p l1 l2 :
  p ∉ l1 → remove_first p (l1 ++ p :: l2) = l1 ++ l2.
Proof.
  induction l1 as [|y l1 IH]; intros Hp; simpl.
  - by rewrite bool_decide_eq_true_2.
  - apply not_elem_of_cons in Hp as [Hne Hp].
    rewrite bool_decide_eq_false_2 by done. by rewrite IH.
Qed.

Lemma prune_from (steps suf : list string) : ∀ pre,
  foldl (λ w d, if bool_decide (d ∈ steps) then w else remove_first d w)
        (filter (λ d, d ∈ steps) pre ++ suf) suf
  = filter (λ d, d ∈ steps) (pre ++ suf).
Proof.
  induction suf as [|d suf IH]; intros pre; simpl.
  - by rewrite !app_nil_r.
  - replace (pre ++ d :: suf) with ((pre ++ [d]) ++ suf) by (by rewrite <- app_assoc).
    rewrite <- IH. f_equal. rewrite filter_app. case_bool_decide as Hd.
    + rewrite filter_cons_True by done. rewrite filter_nil.
      by rewrite <- app_assoc.
    + rewrite filter_cons_False by done. rewrite filter_nil, app_nil_r.
      apply remove_first_middle. rewrite list_elem_of_filter. tauto.
Qed.

(** The in-place pruning keeps exactly the dependencies that are requested
    steps, in their original order. *)
Lemma prune_filter (steps w : list string) : prune steps w = filter (λ d, d ∈ steps) w.
Proof. apply (prune_from steps w []). Qed.

(** *** What one pass over [waits] does to each entry *)

Ltac split_key n name :=
  destruct (decide (n = name)) as [->|?];
  [ rewrite (bool_decide_eq_true_2 (name = name)) by done
  | rewrite (bool_decide_eq_false_2 (n = name)) by done ].

Lemma visit_frame p f st name :
  fails (visit p f st name) = fails st ∧ order (visit p f st name) = order st
  ∧ processes (visit p f st name) = processes st.
Proof. unfold visit. repeat case_match; done. Qed.

Lemma visit_waits p f st name n :
  waits (visit p f st name) !! n =
    if bool_decide (n = name) then remove_first p <$> waits st !! n
    else waits st !! n.
Proof.
  assert (Hgoal : ∀ st1, st1 =
    (if bool_decide (p ∈ default [] (waits st !! name)) then
       mkState (fails st) (events st)
         (<[name := remove_first p (default [] (waits st !! name))]> (waits st))
         (order st) (processes st)
         (if f && bool_decide (name ∈ processes st)
          then alter terminate name (workers st) else workers st)
     else st) →
    waits st1 !! n = if bool_decide (n = name) then remove_first p <$> waits st !! n
                     else waits st !! n).
  { intros st1 ->. split_key n name.
    - case_bool_decide as Hp; simpl.
      + rewrite lookup_insert_eq. destruct (waits st !! name); [done|].
        by apply elem_of_nil in Hp.
      + destruct (waits st !! name) as [w|]; simpl in *; [|done].
        by rewrite remove_first_notin.
    - case_bool_decide as Hp; simpl; [|done]. by rewrite lookup_insert_ne. }
  unfold visit. cbv zeta.
  match goal with
  | |- context [if ?b && negb ?e then _ else _] => destruct (b && negb e)
  end; simpl; by apply Hgoal.
Qed.

Lemma visit_events p f st name n :
  events (visit p f st name) !! n =
    if bool_decide (n = name) then ev_after p (waits st !! n) (events st !! n)
    else events st !! n.
Proof.
  pose proof (visit_waits p f st name name) as Hw.
  rewrite bool_decide_eq_true_2 in Hw by done.
  unfold visit in *. cbv zeta in *. unfold ev_after.
  set (st1 := if bool_decide (p ∈ default [] (waits st !! name)) then _ else st) in *.
  assert (He : events st1 = events st).
  { unfold st1. by destruct (bool_decide (p ∈ default [] (waits st !! name))). }
  assert (Hw1 : waits st1 !! name = remove_first p <$> waits st !! name).
  { destruct (bool_decide (default [] (waits st1 !! name) = [])
              && negb (default false (events st1 !! name))); exact Hw. }
  clear Hw. rewrite He in *. clearbody st1.
  split_key n name.
  - rewrite <- Hw1.
    destruct (bool_decide (default [] (waits st1 !! name) = [])
              && negb (default false (events st !! name))); simpl.
    + rewrite lookup_insert_eq. done.
    + by rewrite He.
  - destruct (bool_decide (default [] (waits st1 !! name) = [])
              && negb (default false (events st !! name))); simpl.
    + by rewrite lookup_insert_ne.
    + by rewrite He.
Qed.

Lemma visit_workers p f st name n :
  workers (visit p f st name) !! n =
    if bool_decide (n = name)
    then wk_after p f (processes st) n (waits st !! n) (workers st !! n)
    else workers st !! n.
Proof.
  unfold visit. cbv zeta. unfold wk_after.
  set (st1 := if bool_decide (p ∈ default [] (waits st !! name)) then _ else st).
  assert (Hk : workers st1 !! n =
    if bool_decide (n = name)
    then (if bool_decide (p ∈ default [] (waits st !! n)) && f
             && bool_decide (n ∈ processes st)
          then terminate <$> workers st !! n else workers st !! n)
    else workers st !! n).
  { unfold st1. split_key n name.
    - case_bool_decide as Hp; simpl; [|done].
      destruct f; simpl; [|done]. case_bool_decide; simpl; [|done].
      by rewrite lookup_alter_eq.
    - case_bool_decide as Hp; simpl; [|done].
      destruct (f && bool_decide (name ∈ processes st)); [|done].
      by rewrite lookup_alter_ne. }
  match goal with
  | |- context [if ?b && negb ?e then _ else _] => destruct (b && negb e)
  end; simpl; exact Hk.
Qed.

Lemma cascade_frame p f l : ∀ st,
  fails (foldl (visit p f) st l) = fails st
  ∧ order (foldl (visit p f) st l) = order st
  ∧ processes (foldl (visit p f) st l) = processes st.
Proof.
  induction l as [|a l IH]; intros st; simpl; [done|].
  destruct (IH (visit p f st a)) as (-> & -> & ->). apply visit_frame.
Qed.

Lemma cascade_waits p f (l : list string) : ∀ st n, NoDup l →
  waits (foldl (visit p f) st l) !! n =
    if bool_decide (n ∈ l) then remove_first p <$> waits st !! n else waits st !! n.
Proof.
  induction l as [|a l IH]; intros st n Hnd; cbn [foldl].
  - rewrite bool_decide_eq_false_2 by apply not_elem_of_nil. done.
  - apply NoDup_cons in Hnd as [Ha Hnd]. rewrite IH by done.
    rewrite visit_waits. destruct (decide (n = a)) as [->|Hne].
    + rewrite (bool_decide_eq_false_2 (a ∈ l)) by done.
      rewrite (bool_decide_eq_true_2 (a = a)) by done.
      rewrite (bool_decide_eq_true_2 (a ∈ a :: l)) by (by left). done.
    + rewrite (bool_decide_eq_false_2 (n = a)) by done.
      rewrite (bool_decide_ext (n ∈ a :: l) (n ∈ l)); [done|].
      rewrite elem_of_cons. tauto.
Qed.

Lemma cascade_events p f (l : list string) : ∀ st n, NoDup l →
  events (foldl (visit p f) st l) !! n =
    if bool_decide (n ∈ l) then ev_after p (waits st !! n) (events st !! n)
    else events st !! n.
Proof.
  induction l as [|a l IH]; intros st n Hnd; cbn [foldl].
  - rewrite bool_decide_eq_false_2 by apply not_elem_of_nil. done.
  - apply NoDup_cons in Hnd as [Ha Hnd]. rewrite IH by done.
    rewrite visit_events, visit_waits. destruct (decide (n = a)) as [->|Hne].
    + rewrite (bool_decide_eq_false_2 (a ∈ l)) by done.
      rewrite (bool_decide_eq_true_2 (a = a)) by done.
      rewrite (bool_decide_eq_true_2 (a ∈ a :: l)) by (by left). done.
    + rewrite (bool_decide_eq_false_2 (n = a)) by done.
      rewrite (bool_decide_ext (n ∈ a :: l) (n ∈ l)); [done|].
      rewrite elem_of_cons. tauto.
Qed.

Lemma cascade_workers p f (l : list string) : ∀ st n, NoDup l →
  workers (foldl (visit p f) st l) !! n =
    if bool_decide (n ∈ l)
    then wk_after p f (processes st) n (waits st !! n) (workers st !! n)
    else workers st !! n.
Proof.
  induction l as [|a l IH]; intros st n Hnd; cbn [foldl].
  - rewrite bool_decide_eq_false_2 by apply not_elem_of_nil. done.
  - apply NoDup_cons in Hnd as [Ha Hnd]. rewrite IH by done.
    destruct (visit_frame p f st a) as (_ & _ & ->).
    rewrite visit_workers, visit_waits. destruct (decide (n = a)) as [->|Hne].
    + rewrite (bool_decide_eq_false_2 (a ∈ l)) by done.
      rewrite (bool_decide_eq_true_2 (a = a)) by done.
      rewrite (bool_decide_eq_true_2 (a ∈ a :: l)) by (by left). done.
    + rewrite (bool_decide_eq_false_2 (n = a)) by done.
      rewrite (bool_decide_ext (n ∈ a :: l) (n ∈ l)); [done|].
      rewrite elem_of_cons. tauto.
Qed.

(** *** What [reap] does *)

Lemma reap_unfold p c st :
  reap p c st = foldl (visit p (bool_decide (c ≠ 0%Z))) (popped p c st) (order st).
Proof. reflexivity. Qed.

Lemma reap_fails p c st :
  fails (reap p c st) = if bool_decide (c ≠ 0%Z) then fails st ++ [p] else fails st.
Proof.
  rewrite reap_unfold.
  by destruct (cascade_frame p (bool_decide (c ≠ 0%Z)) (order st) (popped p c st))
    as (-> & _ & _).
Qed.

Lemma reap_order p c st : order (reap p c st) = order st.
Proof.
  rewrite reap_unfold.
  by destruct (cascade_frame p (bool_decide (c ≠ 0%Z)) (order st) (popped p c st))
    as (_ & -> & _).
Qed.

Lemma reap_processes p c st : processes (reap p c st) = dict_pop p (processes st).
Proof.
  rewrite reap_unfold.
  by destruct (cascade_frame p (bool_decide (c ≠ 0%Z)) (order st) (popped p c st))
    as (_ & _ & ->).
Qed.

Lemma reap_waits p c st n : NoDup (order st) →
  waits (reap p c st) !! n =
    if bool_decide (n ∈ order st) then remove_first p <$> waits st !! n
    else waits st !! n.
Proof. intros Hnd. rewrite reap_unfold. by rewrite cascade_waits. Qed.

Lemma reap_events p c st n : NoDup (order st) →
  events (reap p c st) !! n =
    if bool_decide (n ∈ order st) then ev_after p (waits st !! n) (events st !! n)
    else events st !! n.
Proof. intros Hnd. rewrite reap_unfold. by rewrite cascade_events. Qed.

Lemma reap_workers p c st n : NoDup (order st) →
  workers (reap p c st) !! n =
    if bool_decide (n ∈ order st)
    then wk_after p (bool_decide (c ≠ 0%Z)) (dict_pop p (processes st)) n
           (waits st !! n) (workers st !! n)
    else workers st !! n.
Proof. intros Hnd. rewrite reap_unfold. by rewrite cascade_workers. Qed.

Lemma terminate_exited w c : exit_status w = Some c → terminate w = w.
Proof. by destruct w. Qed.

Lemma invoked_terminate w : invoked (terminate w) = invoked w.
Proof. by destruct w. Qed.

Lemma never_invoked_exited w c :
  invoked w = false → exit_status w = Some c → w = Killed false.
Proof. destruct w as [| | |[]]; simpl; congruence. Qed.

Lemma terminate_never_invoked w : invoked w = false → terminate w = Killed false.
Proof. destruct w as [| | |[]]; simpl; congruence. Qed.

(** A worker's entry after [reap]: it is left alone, or it is terminated
    because it was waiting on the failed worker and still has a handle. *)
Lemma reap_workers_cases p c st n : NoDup (order st) →
  workers (reap p c st) !! n = workers st !! n
  ∨ (workers (reap p c st) !! n = terminate <$> workers st !! n
     ∧ (∃ w, waits st !! n = Some w ∧ p ∈ w) ∧ c ≠ 0%Z
     ∧ n ∈ dict_pop p (processes st)).
Proof.
  intros Hnd. rewrite reap_workers by done. case_bool_decide as Hn; [|by left].
  unfold wk_after. case_bool_decide as Hp; simpl; [|by left].
  case_bool_decide as Hc; simpl; [|by left].
  case_bool_decide as Hproc; simpl; [|by left].
  right. split; [done|]. split; [|done].
  destruct (waits st !! n) as [w|]; simpl in *; [eauto|].
  by apply elem_of_nil in Hp.
Qed.

(** A worker that has already exited is not changed by [reap]. *)
Lemma reap_workers_exited p c st n w c' : NoDup (order st) →
  workers st !! n = Some w → exit_status w = Some c' →
  workers (reap p c st) !! n = Some w.
Proof.
  intros Hnd Hw Hc.
  destruct (reap_workers_cases p c st n Hnd) as [->|(-> & _)]; [done|].
  rewrite Hw. simpl. by rewrite (terminate_exited w c').
Qed.

(** *** The start-up loop *)

Lemma start_all_spec recipies steps (todo : list string) : ∀ (done : list string) st s0,
  NoDup (done ++ todo) → started recipies steps done st →
  start_all recipies steps todo st = Ok s0 →
  started recipies steps (done ++ todo) s0.
Proof.
  induction todo as [|a todo IH]; intros done st s0 Hnd Hst; simpl.
  - intros [= <-]. by rewrite app_nil_r.
  - destruct (recipies !! a) as [r|] eqn:Hr; [|discriminate].
    intros Hrun. replace (done ++ a :: todo) with ((done ++ [a]) ++ todo)
      in * by (by rewrite <- app_assoc).
    apply (IH (done ++ [a]) (start steps st a r)); [done| |done].
    destruct Hst as (Hf & Ho & Hp & Hin & Hout).
    assert (Ha : a ∉ done).
    { apply NoDup_app in Hnd as [Hnd _]. apply NoDup_app in Hnd as (_ & Hd & _).
      intros Hin'. apply (Hd a Hin'). by left. }
    unfold started, start. cbn [fails order processes waits events workers].
    unfold dict_add. rewrite Ho, Hp, (bool_decide_eq_false_2 (a ∈ done)) by done.
    rewrite prune_filter.
    split; [done|]. split; [done|]. split; [done|]. split.
    + intros n Hn. apply elem_of_app in Hn as [Hn|Hn].
      * assert (n ≠ a) by (intros ->; done).
        rewrite !lookup_insert_ne by done. by apply Hin.
      * apply list_elem_of_singleton in Hn as ->.
        rewrite !lookup_insert_eq. eauto.
    + intros n Hn. rewrite elem_of_app, list_elem_of_singleton in Hn.
      assert (n ≠ a) by (intros ->; tauto).
      rewrite !lookup_insert_ne by done. apply Hout. tauto.
Qed.

Lemma init_spec recipies (steps : list string) s0 :
  NoDup steps → init recipies steps = Ok s0 → started recipies steps steps s0.
Proof.
  intros Hnd Hinit.
  apply (start_all_spec recipies steps steps [] empty_state s0); [done| |done].
  unfold started, empty_state. simpl.
  split; [done|]. split; [done|]. split; [done|]. split.
  - intros n Hn. by apply elem_of_nil in Hn.
  - intros n _. by rewrite !lookup_empty.
Qed.

(** *** The scheduling invariant *)

Lemma inv_init recipies (steps : list string) s0 :
  NoDup steps → init recipies steps = Ok s0 → inv (waits s0) s0.
Proof.
  intros Hnd Hinit.
  destruct (init_spec recipies steps s0 Hnd Hinit) as (Hf & Ho & Hp & Hin & Hout).
  assert (Hdom : ∀ n, is_Some (waits s0 !! n) ↔ n ∈ steps).
  { intros n. split.
    - intros Hs. destruct (decide (n ∈ steps)) as [|Hn]; [done|].
      destruct (Hout n Hn) as (Hw & _). rewrite Hw in Hs. by destruct Hs.
    - intros Hn. destruct (Hin n Hn) as (r & _ & -> & _). eauto. }
  assert (Hblocked : ∀ n wk, workers s0 !! n = Some wk → wk = Blocked).
  { intros n wk Hwk. destruct (decide (n ∈ steps)) as [Hn|Hn].
    - destruct (Hin n Hn) as (r & _ & _ & _ & Hb). congruence.
    - destruct (Hout n Hn) as (_ & _ & Hb). congruence. }
  constructor.
  - by rewrite Ho.
  - intros n. by rewrite Ho, Hdom.
  - intros n ds d Hds Hd. apply Hdom.
    assert (Hn : n ∈ steps) by (apply Hdom; eauto).
    destruct (Hin n Hn) as (r & _ & Hw & _). rewrite Hw in Hds.
    injection Hds as <-. apply list_elem_of_filter in Hd. tauto.
  - intros n ds Hds. eauto.
  - intros n ds Hds. assert (Hn : n ∈ steps) by (apply Hdom; eauto).
    destruct (Hin n Hn) as (r & _ & Hw & He & _). rewrite He, Hw.
    eexists. split; [done|]. rewrite bool_decide_eq_true.
    split; [by intros ->|]. by intros [= ->].
  - intros n ds Hds. assert (Hn : n ∈ steps) by (apply Hdom; eauto).
    destruct (Hin n Hn) as (r & _ & _ & _ & ->). eauto.
  - intros n. rewrite Hp. apply Hdom.
  - by rewrite Hp.
  - intros n ds d w Hds Hd _ Hw. rewrite Hds in Hw. by injection Hw as <-.
  - intros n wk Hwk Hi. apply Hblocked in Hwk as ->. discriminate.
  - intros n ds d _ _ _ (w & c & Hw & Hc & _).
    apply Hblocked in Hw as ->. discriminate.
  - intros n ds Hds Hn. exfalso. apply Hn. rewrite Hp. apply Hdom. eauto.
  - intros n. rewrite Hf. by intros ?%elem_of_nil.
  - intros n [ran Hk]. apply Hblocked in Hk. discriminate.
Qed.

(** A live worker that passes its gate or finishes its build action. *)
Lemma inv_set_worker D st n w0 w1 :
  inv D st → workers st !! n = Some w0 → exit_status w0 = None →
  (∀ r, w1 ≠ Killed r) → (invoked w1 = true → events st !! n = Some true) →
  inv D (set_worker n w1 st).
Proof.
  intros [] Hw0 Hlive Hnk Hgate.
  assert (Hin : ∀ ds, D !! n = Some ds → n ∈ processes st).
  { intros ds Hds. destruct (decide (n ∈ processes st)) as [|Hn]; [done|].
    destruct (inv_reaped0 n ds Hds Hn) as (wk & c' & Hwk & Hc' & _). congruence. }
  constructor; cbn [set_worker fails events waits order processes workers];
    try assumption.
  - intros m ds Hds. destruct (decide (m = n)) as [->|Hne].
    + rewrite lookup_insert_eq. eauto.
    + rewrite lookup_insert_ne by done. eauto.
  - intros m wk. destruct (decide (m = n)) as [->|Hne].
    + rewrite lookup_insert_eq. intros [= <-]. exact Hgate.
    + rewrite lookup_insert_ne by done. apply inv_gate0.
  - intros m ds d Hds Hd Hproc (w & c & Hw & Hc & Hne).
    cbn [set_worker workers] in Hw.
    assert (Hdn : d ≠ n).
    { intros ->. destruct (inv_closed0 m ds n Hds Hd) as [ds' Hds'].
      apply Hproc. by apply (Hin ds'). }
    rewrite lookup_insert_ne in Hw by done.
    assert (Hk : workers st !! m = Some (Killed false)).
    { apply (inv_cascade0 m ds d Hds Hd Hproc). exists w, c. done. }
    destruct (decide (m = n)) as [->|Hmn].
    + rewrite Hw0 in Hk. injection Hk as ->. discriminate.
    + by rewrite lookup_insert_ne.
  - intros m ds Hds Hproc.
    assert (Hmn : m ≠ n) by (intros ->; apply Hproc; by apply (Hin ds)).
    rewrite lookup_insert_ne by done. by apply (inv_reaped0 m ds).
  - intros m [ran Hk]. cbn [set_worker workers] in Hk.
    destruct (decide (m = n)) as [->|Hmn].
    + rewrite lookup_insert_eq in Hk. injection Hk as ->. by destruct (Hnk ran).
    + rewrite lookup_insert_ne in Hk by done.
      destruct (inv_killed0 m (ex_intro _ ran Hk)) as (F & c & HF & Hc & Hpath).
      exists F, c. split; [|done].
      assert (F ≠ n).
      { intros ->. rewrite Hw0 in HF. injection HF as ->. discriminate. }
      by rewrite lookup_insert_ne.
Qed.

(** The entry of a requested step before and after [reap]. *)
Lemma reap_slot D st p c n ds :
  inv D st → D !! n = Some ds →
  ∃ wn en wkn,
    waits st !! n = Some wn ∧ events st !! n = Some en
    ∧ workers st !! n = Some wkn
    ∧ (∀ d, d ∈ wn → d ∈ ds) ∧ (en = true ↔ wn = [])
    ∧ waits (reap p c st) !! n = Some (remove_first p wn)
    ∧ events (reap p c st) !! n
      = Some (en || bool_decide (remove_first p wn = []))
    ∧ workers (reap p c st) !! n
      = Some (if bool_decide (p ∈ wn) && bool_decide (c ≠ 0%Z)
                 && bool_decide (n ∈ dict_pop p (processes st))
              then terminate wkn else wkn).
Proof.
  intros [] Hds.
  destruct (inv_waits0 n ds Hds) as (wn & Hwn & Hsub).
  destruct (inv_events0 n ds Hds) as (en & Hen & Hiff).
  destruct (inv_workers0 n ds Hds) as (wkn & Hwkn).
  assert (Hord : n ∈ order st) by (apply inv_order0; eauto).
  exists wn, en, wkn.
  rewrite reap_waits, reap_events, reap_workers by done.
  rewrite !(bool_decide_eq_true_2 (n ∈ order st)) by done.
  rewrite Hwn, Hen, Hwkn. unfold ev_after, wk_after. simpl.
  rewrite Hwn in Hiff.
  repeat split; try done.
  - intros He. apply Hiff in He. by injection He.
  - intros ->. by apply Hiff.
  - by destruct (bool_decide (remove_first p wn = [])), en.
  - by destruct (bool_decide (p ∈ wn) && bool_decide (c ≠ 0%Z)
                 && bool_decide (n ∈ dict_pop p (processes st))).
Qed.

(** The orchestrator reaps a worker that has exited. *)
Lemma inv_reap D st p w c :
  inv D st → p ∈ processes st → workers st !! p = Some w →
  exit_status w = Some c → inv D (reap p c st).
Proof.
  intros Hinv Hp Hw Hc. pose proof Hinv as [].
  assert (Hstable : ∀ m wk c', workers st !! m = Some wk →
            exit_status wk = Some c' → workers (reap p c st) !! m = Some wk).
  { intros m wk c'. by apply reap_workers_exited. }
  assert (Hpd : is_Some (D !! p)) by (by apply inv_procs0).
  constructor.
  - by rewrite reap_order.
  - intros n. by rewrite reap_order.
  - done.
  - intros n ds Hds.
    destruct (reap_slot D st p c n ds Hinv Hds)
      as (wn & en & wkn & Hwn & Hen & Hwkn & Hsub & Hiff & -> & _).
    eexists. split; [done|]. intros d Hd. by apply Hsub, (elem_of_remove_first p).
  - intros n ds Hds.
    destruct (reap_slot D st p c n ds Hinv Hds)
      as (wn & en & wkn & Hwn & Hen & Hwkn & Hsub & Hiff & -> & -> & _).
    eexists. split; [done|]. rewrite orb_true_iff, bool_decide_eq_true.
    split.
    + intros [He| ->]; [|done]. apply Hiff in He as ->. done.
    + intros [= ->]. by right.
  - intros n ds Hds.
    destruct (reap_slot D st p c n ds Hinv Hds)
      as (wn & en & wkn & Hwn & Hen & Hwkn & Hsub & Hiff & _ & _ & ->). eauto.
  - intros n. rewrite reap_processes, elem_of_dict_pop. intros [? _]. auto.
  - rewrite reap_processes. by apply NoDup_filter.
  - intros n ds d w' Hds Hd. rewrite reap_processes, elem_of_dict_pop.
    intros [Hdp Hne].
    destruct (reap_slot D st p c n ds Hinv Hds)
      as (wn & en & wkn & Hwn & Hen & Hwkn & Hsub & Hiff & -> & _).
    intros [= <-]. apply elem_of_remove_first_ne; [done|].
    by apply (inv_pending0 n ds d wn).
  - intros n wk Hwk Hi.
    rewrite reap_events, reap_workers in * by done.
    case_bool_decide as Hn; [|by apply (inv_gate0 n wk)].
    apply inv_order0 in Hn as [ds Hds].
    destruct (reap_slot D st p c n ds Hinv Hds)
      as (wn & en & wkn & Hwn & Hen & Hwkn & Hsub & Hiff & _ & _ & _).
    rewrite Hwn, Hen, Hwkn in *. unfold ev_after, wk_after in *. simpl in *.
    assert (Hinvk : invoked wkn = true).
    { destruct (bool_decide (p ∈ wn) && bool_decide (c ≠ 0%Z)
                && bool_decide (n ∈ dict_pop p (processes st)));
        simpl in Hwk; injection Hwk as <-; by rewrite ?invoked_terminate in Hi. }
    pose proof (inv_gate0 n wkn Hwkn Hinvk) as He. rewrite Hen in He.
    injection He as ->. rewrite andb_false_r. done.
  - intros n ds d Hds Hd. rewrite reap_processes, elem_of_dict_pop.
    intros Hproc (wd' & cd & Hwd' & Hcd & Hne).
    destruct (inv_closed0 n ds d Hds Hd) as [dsd Hdsd].
    destruct (reap_slot D st p c d dsd Hinv Hdsd)
      as (wd_w & ed & wkd & Hwdw & Hed & Hwkd & _ & _ & _ & _ & Hwd2).
    rewrite Hwd2 in Hwd'.
    rewrite (bool_decide_eq_false_2 (d ∈ dict_pop p (processes st))) in Hwd'
      by (rewrite elem_of_dict_pop; tauto).
    rewrite andb_false_r in Hwd'. injection Hwd' as <-.
    destruct (reap_slot D st p c n ds Hinv Hds)
      as (wn & en & wkn & Hwn & Hen & Hwkn & Hsub & Hiff & _ & _ & ->).
    f_equal.
    destruct (decide (d = p)) as [->|Hdp].
    + rewrite Hw in Hwkd. injection Hwkd as <-. rewrite Hc in Hcd.
      injection Hcd as <-.
      assert (Hpw : p ∈ wn) by (by apply (inv_pending0 n ds p wn)).
      assert (Hen' : en = false).
      { destruct en; [|done]. destruct Hiff as [Hiff _].
        rewrite (Hiff eq_refl) in Hpw. by apply elem_of_nil in Hpw. }
      assert (Hni : invoked wkn = false).
      { destruct (invoked wkn) eqn:Hi; [|done].
        pose proof (inv_gate0 n wkn Hwkn Hi). congruence. }
      rewrite (bool_decide_eq_true_2 (p ∈ wn)), (bool_decide_eq_true_2 (c ≠ 0%Z))
        by done. simpl. clear Hwd2.
      case_bool_decide as Hnp.
      * by apply terminate_never_invoked.
      * rewrite elem_of_dict_pop in Hnp.
        destruct (decide (n = p)) as [->|Hnp'].
        -- rewrite Hw in Hwkn. injection Hwkn as <-.
           by apply (never_invoked_exited w c).
        -- assert (Hn : n ∉ processes st) by tauto.
           destruct (inv_reaped0 n ds Hds Hn) as (wk & c' & Hwk & Hc' & _).
           rewrite Hwkn in Hwk. injection Hwk as <-.
           by apply (never_invoked_exited wkn c').
    + assert (Hd' : d ∉ processes st) by tauto.
      assert (Hk : workers st !! n = Some (Killed false)).
      { apply (inv_cascade0 n ds d Hds Hd Hd'). by exists wkd, cd. }
      rewrite Hwkn in Hk. injection Hk as ->.
      match goal with |- (if ?b then _ else _) = _ => by destruct b end.
  - intros n ds Hds. rewrite reap_processes, elem_of_dict_pop, reap_fails.
    intros Hproc.
    destruct (decide (n = p)) as [->|Hnp].
    + exists w, c. split; [by apply (Hstable p w c)|]. split; [done|].
      case_bool_decide as Hcz.
      * rewrite elem_of_app, list_elem_of_singleton. tauto.
      * split; [|done]. intros Hf. apply inv_fails0 in Hf as [_ Hf]. done.
    + assert (Hn : n ∉ processes st) by tauto.
      destruct (inv_reaped0 n ds Hds Hn) as (wk & c' & Hwk & Hc' & Hiff).
      exists wk, c'. split; [by apply (Hstable n wk c')|]. split; [done|].
      case_bool_decide as Hcz; [|done].
      rewrite elem_of_app, list_elem_of_singleton. tauto.
  - intros n. rewrite reap_fails, reap_processes, elem_of_dict_pop.
    case_bool_decide as Hcz.
    + rewrite elem_of_app, list_elem_of_singleton. intros [Hf| ->].
      * apply inv_fails0 in Hf as [? ?]. tauto.
      * split; [done|]. tauto.
    + intros Hf. apply inv_fails0 in Hf as [? ?]. tauto.
  - intros n [ran Hk].
    assert (Hold : ∀ m, cancelled st m →
              ∃ F c0, workers (reap p c st) !! F = Some (Done c0)
                      ∧ c0 ≠ 0%Z ∧ path D F m).
    { intros m Hcn. destruct (inv_killed0 m Hcn) as (F & c0 & HF & Hc0 & Hpath).
      exists F, c0. split; [by apply (Hstable F (Done c0) c0)|done]. }
    destruct (reap_workers_cases p c st n inv_nodup0)
      as [Heq|(Heq & (wn & Hwn & Hpw) & Hcz & Hnp)]; rewrite Heq in Hk.
    + apply Hold. by exists ran.
    + destruct (workers st !! n) as [wkn|] eqn:Hwkn; [|discriminate].
      simpl in Hk. injection Hk as Hk.
      destruct wkn as [| |c1|r1]; simpl in Hk; try discriminate.
      * (* a blocked worker terminated now *)
        apply elem_of_dict_pop in Hnp as [Hnproc _].
        destruct (inv_procs0 n Hnproc) as [ds Hds].
        destruct (inv_waits0 n ds Hds) as (wn' & Hwn' & Hsub).
        rewrite Hwn in Hwn'. injection Hwn' as <-.
        destruct w as [| |cw|rw]; simpl in Hc; try discriminate.
        -- injection Hc as ->. exists p, c.
           split; [by apply (Hstable p (Done c) c)|]. split; [done|].
           apply (path_edge D p n ds); auto.
        -- destruct (Hold p) as (F & c0 & HF & Hc0 & Hpath); [by exists rw|].
           exists F, c0. split; [done|]. split; [done|].
           apply (path_next D F p n ds); auto.
      * apply elem_of_dict_pop in Hnp as [Hnproc _].
        destruct (inv_procs0 n Hnproc) as [ds Hds].
        destruct (inv_waits0 n ds Hds) as (wn' & Hwn' & Hsub).
        rewrite Hwn in Hwn'. injection Hwn' as <-.
        destruct w as [| |cw|rw]; simpl in Hc; try discriminate.
        -- injection Hc as ->. exists p, c.
           split; [by apply (Hstable p (Done c) c)|]. split; [done|].
           apply (path_edge D p n ds); auto.
        -- destruct (Hold p) as (F & c0 & HF & Hc0 & Hpath); [by exists rw|].
           exists F, c0. split; [done|]. split; [done|].
           apply (path_next D F p n ds); auto.
      * apply Hold. by exists r1.
Qed.

Lemma inv_step D s s' : inv D s → step s s' → inv D s'.
Proof.
  intros Hinv Hstep. destruct Hstep as [n st Hw He|n c st Hw|n w c st Hp Hw Hc].
  - apply (inv_set_worker D st n Blocked Building); done.
  - apply (inv_set_worker D st n Building (Done c)); [done..|].
    intros _. by apply (inv_gate D st Hinv n Building).
  - by apply (inv_reap D st n w c).
Qed.

Lemma inv_reachable D s0 s : inv D s0 → reachable s0 s → inv D s.
Proof. intros H0. induction 1; [done|]. eapply inv_step; eauto. Qed.

Lemma reachable_prepend s0 s1 s : step s0 s1 → reachable s1 s → reachable s0 s.
Proof.
  intros H01. induction 1 as [|s s' _ IH Hstep].
  - eapply reach_step; [apply reach_init|done].
  - eapply reach_step; eauto.
Qed.

Lemma reachable_trans s0 s1 s : reachable s0 s1 → reachable s1 s → reachable s0 s.
Proof. intros H01. induction 1; [done|]. eapply reach_step; eauto. Qed.

(** A pass over the handles is a sequence of moves: each poll either finds
    the worker still alive, or reaps it. *)
Lemma foldl_poll_moves (l : list string) : NoDup l → ∀ st,
  (∀ q, q ∈ l → q ∈ processes st) → reachable st (foldl poll st l).
Proof.
  induction 1 as [|p l Hp Hnd IH]; intros st Hin; simpl; [apply reach_init|].
  assert (Hrest : ∀ q, q ∈ l → q ∈ processes st) by (intros; apply Hin; by right).
  unfold poll at 2. destruct (workers st !! p) as [w|] eqn:Hw; [|by apply IH].
  destruct (exit_status w) as [c|] eqn:Hc; [|by apply IH].
  apply (reachable_prepend st (reap p c st)).
  - apply (step_reap p w c); [apply Hin; by left|done..].
  - apply IH. intros q Hq. rewrite reap_processes, elem_of_dict_pop.
    split; [by apply Hrest|]. by intros ->.
Qed.

Lemma sweep_moves st : NoDup (processes st) → reachable st (sweep st).
Proof. intros Hnd. by apply foldl_poll_moves. Qed.

Lemma exec_sound a s s' : exec a s = Some s' → reachable s s'.
Proof.
  assert (Hone : ∀ t t', step t t' → reachable t t').
  { intros t t' Ht. eapply reach_step; [apply reach_init|done]. }
  destruct a as [n|n c|n|]; simpl.
  - destruct (workers s !! n) as [[| | |]|] eqn:Hw; try discriminate.
    destruct (events s !! n) as [[]|] eqn:He; try discriminate.
    intros [= <-]. apply Hone. by constructor.
  - destruct (workers s !! n) as [[| | |]|] eqn:Hw; try discriminate.
    intros [= <-]. apply Hone. by constructor.
  - case_bool_decide as Hp; [|discriminate].
    destruct (workers s !! n) as [w|] eqn:Hw; [|discriminate].
    destruct (exit_status w) as [c|] eqn:Hc; [|discriminate].
    intros [= <-]. apply Hone. by apply (step_reap n w c).
  - case_bool_decide as Hnd; [|discriminate].
    intros [= <-]. by apply sweep_moves.
Qed.

Lemma run_reachable acts : ∀ s0 s, run acts s0 = Some s → reachable s0 s.
Proof.
  induction acts as [|a acts IH]; intros s0 s; simpl.
  - intros [= <-]. apply reach_init.
  - destruct (exec a s0) as [s1|] eqn:He; [|discriminate].
    intros Hrun.
    apply (reachable_trans s0 s1); [by apply (exec_sound a)|by apply IH].
Qed.

(** *** Consequences of the invariant *)

(** A step whose prerequisite failed, or never ran, has not run either. *)
Lemma dep_never_ran D s a b ds :
  inv D s → D !! b = Some ds → a ∈ ds → failed s a ∨ never_ran s a →
  never_ran s b.
Proof.
  intros Hinv Hds Ha Hcause. pose proof Hinv as [].
  destruct (inv_waits0 b ds Hds) as (wb & Hwb & _).
  destruct (inv_events0 b ds Hds) as (eb & Heb & Hiff).
  destruct (inv_workers0 b ds Hds) as (wkb & Hwkb).
  destruct (decide (a ∈ processes s)) as [Hproc|Hproc].
  - exists wkb. split; [done|].
    destruct (invoked wkb) eqn:Hi; [|done].
    pose proof (inv_gate0 b wkb Hwkb Hi) as Hg. rewrite Heb in Hg.
    injection Hg as ->. destruct Hiff as [Hiff _]. specialize (Hiff eq_refl).
    rewrite Hwb in Hiff. injection Hiff as ->.
    pose proof (inv_pending0 b ds a [] Hds Ha Hproc Hwb) as Hin.
    by apply elem_of_nil in Hin.
  - assert (Hfail : failed s a).
    { destruct Hcause as [?|(wa & Hwa & Hni)]; [done|].
      destruct (inv_closed0 b ds a Hds Ha) as [dsa Hdsa].
      destruct (inv_reaped0 a dsa Hdsa Hproc) as (wk & c & Hwk & Hc & _).
      rewrite Hwa in Hwk. injection Hwk as <-.
      rewrite (never_invoked_exited wa c Hni Hc) in *.
      exists (Killed false), SIGTERM_exit. done. }
    exists (Killed false). split; [|done]. by apply (inv_cascade0 b ds a).
Qed.

Lemma path_never_ran D s a b :
  inv D s → failed s a → path D a b → never_ran s b.
Proof.
  intros Hinv Hfail. induction 1 as [a b ds Hds Ha|a b c ds _ IH Hds Hb].
  - apply (dep_never_ran D s a b ds); auto.
  - apply (dep_never_ran D s b c ds); auto.
Qed.

Lemma path_target D a b : path D a b → is_Some (D !! b).
Proof. destruct 1; eauto. Qed.

(** Once every worker has been reaped, a step that never ran is in the
    failure record, terminated. *)
Lemma never_ran_final D s b :
  inv D s → is_Some (D !! b) → processes s = [] → never_ran s b →
  workers s !! b = Some (Killed false) ∧ b ∈ fails s.
Proof.
  intros [] [ds Hds] Hnil (wb & Hwb & Hni).
  destruct (inv_reaped0 b ds Hds) as (wk & c & Hwk & Hc & Hiff).
  { rewrite Hnil. apply not_elem_of_nil. }
  rewrite Hwb in Hwk. injection Hwk as <-.
  pose proof (never_invoked_exited wb c Hni Hc) as ->.
  split; [done|]. apply Hiff. simpl in Hc. injection Hc as <-. done.
Qed.

Lemma reap_events_monotone p c st n :
  NoDup (order st) → events st !! n = Some true →
  events (reap p c st) !! n = Some true.
Proof.
  intros Hnd He. rewrite reap_events by done. case_bool_decide; [|done].
  unfold ev_after. rewrite He. simpl. by rewrite andb_false_r.
Qed.

(** A worker that has exited keeps its exit status, and a build action that
    was invoked stays invoked, whatever happens next. *)
Lemma step_failed_stable D s s' a :
  inv D s → step s s' → failed s a → failed s' a.
Proof.
  intros [] Hstep (w & c & Hw & Hc & Hne). exists w, c. split; [|done].
  destruct Hstep as [n st Hn _|n c' st Hn|n wn cn st _ _ _];
    cbn [set_worker workers].
  - assert (a ≠ n) by (intros ->; rewrite Hn in Hw; by injection Hw as <-).
    by rewrite lookup_insert_ne.
  - assert (a ≠ n) by (intros ->; rewrite Hn in Hw; by injection Hw as <-).
    by rewrite lookup_insert_ne.
  - by apply (reap_workers_exited n cn st a w c).
Qed.

Lemma step_never_ran_before D s s' b :
  inv D s → step s s' → never_ran s' b → never_ran s b.
Proof.
  intros [] Hstep (w' & Hw' & Hni).
  destruct Hstep as [n st Hn _|n c' st Hn|n wn cn st _ _ _];
    cbn [set_worker workers] in Hw'.
  - destruct (decide (b = n)) as [->|Hne].
    + rewrite lookup_insert_eq in Hw'. injection Hw' as <-. discriminate.
    + rewrite lookup_insert_ne in Hw' by done. by exists w'.
  - destruct (decide (b = n)) as [->|Hne].
    + rewrite lookup_insert_eq in Hw'. injection Hw' as <-. discriminate.
    + rewrite lookup_insert_ne in Hw' by done. by exists w'.
  - destruct (reap_workers_cases n cn st b inv_nodup0) as [Heq|(Heq & _)];
      rewrite Heq in Hw'.
    + by exists w'.
    + destruct (workers st !! b) as [w|] eqn:Hwb; [|discriminate].
      simpl in Hw'. injection Hw' as <-. exists w. split; [done|].
      by rewrite <- invoked_terminate.
Qed.

(** *** Gates *)

(** C3 (as amended): for distinct requested steps, the start-up loop sets a
    step's gate iff the step has no dependency inside the requested set.  In
    every state the build can reach, a requested step's gate is set exactly
    when its list of remaining dependencies is empty, where that list holds
    only in-set dependencies of the step and still holds each of them whose
    worker has not been reaped; whether the step's worker was terminated
    plays no part.  No move of the system clears a gate that is set. *)
Theorem gate_discipline recipies (steps : list string) s0 :
  NoDup steps → init recipies steps = Ok s0 →
  (∀ n, n ∈ steps → ∃ r, recipies !! n = Some r
     ∧ waits s0 !! n = Some (filter (λ d, d ∈ steps) (wait_on r))
     ∧ events s0 !! n
       = Some (bool_decide (filter (λ d, d ∈ steps) (wait_on r) = [])))
  ∧ (∀ s n, reachable s0 s → n ∈ steps →
       ∃ e w deps, events s !! n = Some e ∧ waits s !! n = Some w
         ∧ waits s0 !! n = Some deps
         ∧ (e = true ↔ w = [])
         ∧ (∀ d, d ∈ w → d ∈ deps)
         ∧ (∀ d, d ∈ deps → d ∈ processes s → d ∈ w))
  ∧ (∀ s s' n, reachable s0 s → step s s' →
       events s !! n = Some true → events s' !! n = Some true).
Proof.
  intros Hnd Hinit.
  pose proof (init_spec recipies steps s0 Hnd Hinit) as (_ & _ & _ & Hin & _).
  pose proof (inv_init recipies steps s0 Hnd Hinit) as Hinv0.
  split; [|split].
  - intros n Hn. destruct (Hin n Hn) as (r & Hr & Hw & He & _). eauto.
  - intros s n Hreach Hn.
    pose proof (inv_reachable _ _ _ Hinv0 Hreach) as [].
    destruct (Hin n Hn) as (r & _ & Hdeps & _).
    destruct (inv_waits0 n _ Hdeps) as (w & Hw & Hsub).
    destruct (inv_events0 n _ Hdeps) as (e & He & Hiff).
    exists e, w, (filter (λ d, d ∈ steps) (wait_on r)).
    rewrite Hw in Hiff.
    repeat split; try done.
    + intros Het. apply Hiff in Het. by injection Het.
    + intros ->. by apply Hiff.
    + intros d Hd Hproc. by apply (inv_pending0 n _ d w Hdeps).
  - intros s s' n Hreach Hstep He.
    pose proof (inv_reachable _ _ _ Hinv0 Hreach) as [].
    destruct Hstep as [m st _ _|m c st _|m w c st _ _ _]; [done..|].
    by apply reap_events_monotone.
Qed.

Lemma abcd_steps_NoDup : NoDup abcd_steps.
Proof.
  unfold abcd_steps. repeat (apply NoDup_cons; split; [set_solver|]).
  apply NoDup_nil_2.
Qed.

Lemma gate_discipline_witness :
  NoDup abcd_steps ∧ init abcd abcd_steps = Ok abcd_init
  ∧ (∀ s n, reachable abcd_init s → n ∈ abcd_steps →
       ∃ e w deps, events s !! n = Some e ∧ waits s !! n = Some w
         ∧ waits abcd_init !! n = Some deps
         ∧ (e = true ↔ w = [])
         ∧ (∀ d, d ∈ w → d ∈ deps)
         ∧ (∀ d, d ∈ deps → d ∈ processes s → d ∈ w))
  ∧ (∀ s s' n, reachable abcd_init s → step s s' →
       events s !! n = Some true → events s' !! n = Some true).
Proof.
  split; [exact abcd_steps_NoDup|]. split; [exact init_abcd|].
  exact (proj2 (gate_discipline abcd abcd_steps abcd_init abcd_steps_NoDup init_abcd)).
Defined.

(** C3 (as stated) fails: in the build of [abcd] where [B] exits with status
    1, the first pass of the orchestrator reaps [B] and terminates [C]; when
    [A] has ended and the next pass reaps it, the gate of the cancelled step
    [C] is set. *)
Lemma gate_set_for_cancelled_step :
  init abcd abcd_steps = Ok abcd_init
  ∧ ∃ s s', reachable abcd_init s ∧ step s s' ∧ s' = sweep s
      ∧ cancelled s "C" ∧ events s !! "C" = Some false
      ∧ cancelled s' "C" ∧ events s' !! "C" = Some true.
Proof.
  split; [exact init_abcd|].
  destruct (run [PassGate "A"; PassGate "B"; Finish "B" 1; Sweep; Finish "A" 0]
              abcd_init) as [s|] eqn:Hs; [|vm_compute in Hs; discriminate].
  exists s, (reap "A" 0 s). split; [by apply (run_reachable _ _ _ Hs)|].
  vm_compute in Hs. injection Hs as <-.
  split; [apply (step_reap "A" (Done 0) 0); [set_solver|reflexivity..]|].
  repeat split; try (by exists false); vm_compute; reflexivity.
Qed.

(** *** Failure cascade *)

(** The cascade when every step has a list of its own: in every state the
    build of distinct requested steps can reach, (1) once the orchestrator has reaped a worker [a] that exited non-zero,
    every step [b] that depends on [a] has been terminated without its build
    action having been invoked; (2) if [a] exited non-zero, no step [b]
    reachable from [a] along dependency edges has had its build action
    invoked, and when no worker is left [b] is in the failure record,
    terminated; (3) a worker is terminated only if some step whose build
    action itself ended with a non-zero status has a dependency path to it,
    so steps with no path from a failing step are never terminated; (4) when
    no worker is left, every requested step that was not terminated ran its
    build action to its end; (5) a worker that exited non-zero stays so in
    the next state, and a build action not invoked in the next state was not
    invoked before, so "not invoked" in (2) holds for the whole run.
    Dependencies are those inside the requested set, as recorded in
    [waits s0] by the start-up loop. *)
Theorem cascade_cancellation recipies (steps : list string) s0 s :
  NoDup steps → init recipies steps = Ok s0 → reachable s0 s →
  (∀ a b ds, waits s0 !! b = Some ds → a ∈ ds → failed s a →
     a ∉ processes s → workers s !! b = Some (Killed false))
  ∧ (∀ a b, failed s a → path (waits s0) a b →
       never_ran s b
       ∧ (processes s = [] → workers s !! b = Some (Killed false) ∧ b ∈ fails s))
  ∧ (∀ e, cancelled s e →
       ∃ f c, workers s !! f = Some (Done c) ∧ c ≠ 0%Z ∧ path (waits s0) f e)
  ∧ (processes s = [] → ∀ e, e ∈ steps → ¬ cancelled s e →
       ∃ c, workers s !! e = Some (Done c))
  ∧ (∀ s', step s s' →
       (∀ a, failed s a → failed s' a) ∧ (∀ b, never_ran s' b → never_ran s b)).
Proof.
  intros Hnd Hinit Hreach.
  pose proof (init_spec recipies steps s0 Hnd Hinit) as (_ & _ & _ & Hin & _).
  pose proof (inv_init recipies steps s0 Hnd Hinit) as Hinv0.
  pose proof (inv_reachable _ _ _ Hinv0 Hreach) as Hinv. pose proof Hinv as [].
  split; [|split; [|split; [|split]]].
  - intros a b ds Hds Ha Hfail Hproc. by apply (inv_cascade0 b ds a).
  - intros a b Hfail Hpath.
    pose proof (path_never_ran _ s a b Hinv Hfail Hpath) as Hnr.
    split; [done|]. intros Hnil.
    apply (never_ran_final (waits s0)); [done| |done..].
    by apply (path_target _ a).
  - done.
  - intros Hnil e He Hnc.
    destruct (Hin e He) as (r & _ & Hdeps & _).
    destruct (inv_reaped0 e _ Hdeps) as (wk & c & Hwk & Hc & _).
    { rewrite Hnil. apply not_elem_of_nil. }
    destruct wk as [| |c'|ran]; simpl in Hc; try discriminate.
    + eauto.
    + destruct Hnc. by exists ran.
  - intros s' Hstep. split.
    + intros a. by apply (step_failed_stable (waits s0)).
    + intros b. by apply (step_never_ran_before (waits s0)).
Qed.

Lemma cascade_cancellation_witness :
  NoDup abcd_steps ∧ init abcd abcd_steps = Ok abcd_init
  ∧ reachable abcd_init abcd_final
  ∧ (∀ a b ds, waits abcd_init !! b = Some ds → a ∈ ds → failed abcd_final a →
       a ∉ processes abcd_final → workers abcd_final !! b = Some (Killed false))
  ∧ (∀ a b, failed abcd_final a → path (waits abcd_init) a b →
       never_ran abcd_final b
       ∧ (processes abcd_final = [] →
          workers abcd_final !! b = Some (Killed false) ∧ b ∈ fails abcd_final))
  ∧ (∀ e, cancelled abcd_final e →
       ∃ f c, workers abcd_final !! f = Some (Done c) ∧ c ≠ 0%Z
              ∧ path (waits abcd_init) f e)
  ∧ (processes abcd_final = [] → ∀ e, e ∈ abcd_steps → ¬ cancelled abcd_final e →
       ∃ c, workers abcd_final !! e = Some (Done c))
  ∧ (∀ s', step abcd_final s' →
       (∀ a, failed abcd_final a → failed s' a)
       ∧ (∀ b, never_ran s' b → never_ran abcd_final b)).
Proof.
  assert (Hreach : reachable abcd_init abcd_final)
    by exact (run_reachable b_fails abcd_init abcd_final run_b_fails).
  split; [exact abcd_steps_NoDup|]. split; [exact init_abcd|].
  split; [exact Hreach|].
  exact (cascade_cancellation abcd abcd_steps abcd_init abcd_final
           abcd_steps_NoDup init_abcd Hreach).
Defined.


End Scheduler.

(** ** Step runner: [Builder.run] *)
Module StepRunner.
Import Py.

(** The process-level resources [run] touches: the working directory, the
    step's log file with the state of its handle [logfp], and the number of
    file handlers attached to the module logger. *)
Record os_state := mkOs {
  cwd : string;
  log_lines : list string;
  log_open : bool;
  handlers : nat;
}.

(** How the pluggable build action ends: it returns, or it raises [e] whose
    formatted traceback is [traceback]. *)
Inductive action_result :=
| Returned
| Faulted (e : exn) (traceback : string).

Definition newline : string := String "010"%char EmptyString.

Definition chdir (d : string) (st : os_state) : os_state :=
  mkOs d (log_lines st) (log_open st) (handlers st).

(** [logfp.write(line)] *)
Definition write (st : os_state) (line : string) : os_state :=
  mkOs (cwd st) (log_lines st ++ [line]) (log_open st) (handlers st).

(** [logfp = io.open(..., "w")] followed by [log.addHandler(handler)] *)
Definition open_log (st : os_state) : os_state :=
  mkOs (cwd st) [] true (S (handlers st)).

(** The [finally] clause: [os.chdir(cwd)], [log.removeHandler(handler)],
    [logfp.close()]. *)
Definition finally_clause (cwd0 : string) (st : os_state) : os_state :=
  mkOs cwd0 (log_lines st) false (pred (handlers st)).

(** A step without a download whose build action raises [RelenvException]
    after writing one line. *)
Definition failing_action (d : string) : action_result * string * list string :=
  (Faulted (RelenvException "make failed") "Traceback: make failed",
   d +:+ "/build", ["configure: ok"]).

Definition shell : os_state := mkOs "/home/user" ["stale"] false 0.

Section Run.

(** Modelled from the spec: [relenv.common.extract_archive] is not under
    src/; it extracts the downloaded archive into the source area and may
    fail. *)
Variable extract_archive : result unit.

(** The pluggable [populate_env]. *)
Variable populate_env : result unit.

(** The lines that dump the directory layout and the environment. *)
Variable header : list string.

(** The pluggable build action, started in a directory: how it ends, the
    directory it leaves the process in, and what it wrote to [logfp]. *)
Variable build_func : string → action_result * string * list string.

(** [Builder.run] from the point where the gate has been passed.  [source]
    is [Some dir] when the step has a download whose archive unpacks to
    [dir], and [prefix] is the install prefix. *)
Definition run (source : option string) (prefix : string) (st : os_state)
  : result unit * os_state :=
  let st1 := open_log st in
  let cwd0 := cwd st1 in
  let entered :=
    match source with
    | Some dir =>
        match extract_archive with
        | Ok _ => Ok (chdir dir st1)
        | Raise e => Raise e
        end
    | None => Ok (chdir prefix st1)
    end in
  match entered with
  | Raise e => (Raise e, st1)
  | Ok st2 =>
      match populate_env with
      | Raise e => (Raise e, st2)
      | Ok _ =>
          let st3 := foldl write st2 header in
          let '(res, dir, out) := build_func (cwd st3) in
          let st4 := mkOs dir (log_lines st3 ++ out) (log_open st3) (handlers st3) in
          match res with
          | Returned => (Ok tt, finally_clause cwd0 st4)
          | Faulted e tb =>
              if is_Exception e
              then (Raise (SystemExit 1),
                    finally_clause cwd0 (write st4 (tb +:+ newline)))
              else (Raise e, finally_clause cwd0 st4)
          end
      end
  end.

(** The directory in which the build action is started. *)
Definition start_dir (source : option string) (prefix : string) : string :=
  default prefix source.

Lemma foldl_write_frame (lines : list string) : ∀ st,
  cwd (foldl write st lines) = cwd st
  ∧ log_open (foldl write st lines) = log_open st
  ∧ handlers (foldl write st lines) = handlers st
  ∧ log_lines (foldl write st lines) = log_lines st ++ lines.
Proof.
  induction lines as [|l lines IH]; intros st; simpl.
  - by rewrite app_nil_r.
  - destruct (IH (write st l)) as (-> & -> & -> & ->). simpl.
    by rewrite <- app_assoc.
Qed.

(** [run] computed, once the build action has been reached. *)
Lemma run_reaches_action source prefix st r dir out :
  (source = None ∨ extract_archive = Ok tt) → populate_env = Ok tt →
  build_func (start_dir source prefix) = (r, dir, out) →
  run source prefix st =
    match r with
    | Returned => (Ok tt, mkOs (cwd st) (header ++ out) false (handlers st))
    | Faulted e tb =>
        if is_Exception e
        then (Raise (SystemExit 1),
              mkOs (cwd st) (header ++ out ++ [tb +:+ newline]) false (handlers st))
        else (Raise e, mkOs (cwd st) (header ++ out) false (handlers st))
    end.
Proof.
  intros Hext Hpop Hbuild. unfold run.
  assert (Hentered :
    match source with
    | Some dir0 => match extract_archive with
                   | Ok _ => Ok (chdir dir0 (open_log st))
                   | Raise e => Raise e
                   end
    | None => Ok (chdir prefix (open_log st))
    end = Ok (chdir (start_dir source prefix) (open_log st))).
  { destruct source as [d|]; simpl; [|done].
    destruct Hext as [?| ->]; [discriminate|done]. }
  rewrite Hentered, Hpop. cbv zeta.
  destruct (foldl_write_frame header (chdir (start_dir source prefix) (open_log st)))
    as (Hcwd & Hopen & Hh & Hlog).
  rewrite Hcwd, Hopen, Hh, Hlog. cbn [chdir open_log cwd log_open handlers log_lines].
  rewrite Hbuild. unfold finally_clause, write.
  cbn [cwd log_open handlers log_lines]. rewrite app_nil_l.
  destruct r as [|e tb]; [done|].
  destruct (is_Exception e); [|done]. by rewrite <- app_assoc.
Qed.

(** C9: [run] cleans up exactly on the exit paths that pass through its
    [try] statement.  Whenever the build action is called (the archive, if
    any, was extracted and [populate_env] returned), the process is back in
    the caller's working directory, the log handle is closed and the log
    handler is detached when [run] ends, however the build action ended: if
    the action returned, [run] returns; if it raised an [Exception], the
    traceback is the last thing written to the log and the process exits
    with status 1; any other exception passes through after the same
    clean-up.  On the exit paths before the [try] nothing is cleaned up: when
    the extraction fails, [run] ends with that exception, the log handle
    open and the handler attached; when [populate_env] fails, the process is
    moreover left in the step's directory. *)
Theorem run_restores_cwd_and_closes_log source prefix st :
  (∀ r dir out,
     (source = None ∨ extract_archive = Ok tt) → populate_env = Ok tt →
     build_func (start_dir source prefix) = (r, dir, out) →
     cwd (snd (run source prefix st)) = cwd st
     ∧ log_open (snd (run source prefix st)) = false
     ∧ handlers (snd (run source prefix st)) = handlers st
     ∧ match r with
       | Returned =>
           fst (run source prefix st) = Ok tt
           ∧ log_lines (snd (run source prefix st)) = header ++ out
       | Faulted e tb =>
           if is_Exception e
           then fst (run source prefix st) = Raise (SystemExit 1)
                ∧ exitcode (fst (run source prefix st)) = 1%Z
                ∧ log_lines (snd (run source prefix st))
                  = header ++ out ++ [tb +:+ newline]
           else fst (run source prefix st) = Raise e
                ∧ log_lines (snd (run source prefix st)) = header ++ out
       end)
  ∧ (∀ e, source ≠ None → extract_archive = Raise e →
       run source prefix st
       = (Raise e, mkOs (cwd st) [] true (S (handlers st))))
  ∧ (∀ e, (source = None ∨ extract_archive = Ok tt) → populate_env = Raise e →
       run source prefix st
       = (Raise e, mkOs (start_dir source prefix) [] true (S (handlers st)))).
Proof.
  split; [|split].
  - intros r dir out Hext Hpop Hbuild.
    rewrite (run_reaches_action source prefix st r dir out Hext Hpop Hbuild).
    destruct r as [|e tb]; [done|]. by destruct (is_Exception e).
  - intros e Hsrc Hext. unfold run. destruct source as [d|]; [|done].
    by rewrite Hext.
  - intros e Hext Hpop. unfold run.
    destruct source as [d|]; simpl.
    + destruct Hext as [?| ->]; [discriminate|]. by rewrite Hpop.
    + by rewrite Hpop.
Qed.

End Run.

Example run_failing_action :
  run (Ok tt) (Ok tt) ["****"] failing_action None "/build/3.10.9-x86_64-linux-gnu" shell
  = (Raise (SystemExit 1),
     mkOs "/home/user"
       ["****"; "configure: ok"; "Traceback: make failed" +:+ newline] false 0).
Proof. reflexivity. Qed.

(** A failure before the build action is reached is outside the [try]
    statement: the process stays in the step's directory with the log open. *)
Example run_populate_env_fails :
  run (Ok tt) (Raise (KeyError "PATH")) ["****"] failing_action None "/prefix" shell
  = (Raise (KeyError "PATH"), mkOs "/prefix" [] true 1).
Proof. reflexivity. Qed.

Lemma run_restores_cwd_and_closes_log_witness :
  cwd (snd (run (Ok tt) (Ok tt) ["****"] failing_action None "/prefix" shell))
  = "/home/user"
  ∧ log_open (snd (run (Ok tt) (Ok tt) ["****"] failing_action None "/prefix" shell))
    = false
  ∧ fst (run (Ok tt) (Ok tt) ["****"] failing_action None "/prefix" shell)
    = Raise (SystemExit 1).
Proof.
  destruct (proj1 (run_restores_cwd_and_closes_log (Ok tt) (Ok tt) ["****"]
                     failing_action None "/prefix" shell)
              (Faulted (RelenvException "make failed") "Traceback: make failed")
              "/prefix/build" ["configure: ok"]
              (or_introl eq_refl) eq_refl eq_refl) as (H1 & H2 & _ & H4 & _).
  split; [exact H1|]. split; [exact H2|exact H4].
Defined.

(** C9 (as stated) fails: not every exit path of [run] cleans up.  When the
    archive of a step is missing, [extract_archive] raises and [run] ends
    with the log handle open and the handler attached; when [populate_env]
    raises, the process is moreover left in the install prefix instead of
    the caller's directory. *)
Lemma cleanup_skipped_before_try :
  cwd shell = "/home/user" ∧ log_open shell = false ∧ handlers shell = 0
  ∧ run (Raise (FileNotFoundError "download/openssl-1.1.1t.tar.gz")) (Ok tt)
      ["****"] failing_action (Some "/src/openssl-1.1.1t") "/prefix" shell
    = (Raise (FileNotFoundError "download/openssl-1.1.1t.tar.gz"),
       mkOs "/home/user" [] true 1)
  ∧ run (Ok tt) (Raise (RelenvException "no toolchain")) ["****"] failing_action
      None "/prefix" shell
    = (Raise (RelenvException "no toolchain"), mkOs "/prefix" [] true 1).
Proof. repeat split; reflexivity. Qed.

End StepRunner.

(** ** Packager: [create_archive] *)
Module Archive.

(** *** [fnmatch.fnmatch] on a POSIX host

    The standard-library matcher, following [fnmatch.translate]: [*] matches
    any run of characters (slashes included), [?] one character, [[seq]] and
    [[!seq]] one character in (not in) the set, where [a-b] inside the
    brackets is a range; a [[] without a closing bracket is literal.  The
    whole name has to match. *)
Inductive token :=
| Star
| AnyChar
| Class (negated : bool) (items : list (ascii * ascii))
| Lit (c : ascii).

(** The members of a bracket expression: [x-y] is a range, anything else a
    single character. *)
Fixpoint class_items (body : list ascii) : list (ascii * ascii) :=
  match body with
  | [] => []
  | x :: rest =>
      match rest with
      | "-"%char :: y :: rest' => (x, y) :: class_items rest'
      | _ => (x, x) :: class_items rest
      end
  end.

(** Split at the first closing bracket. *)
Fixpoint until_bracket (l : list ascii) : option (list ascii * list ascii) :=
  match l with
  | [] => None
  | c :: rest =>
      if Ascii.eqb c "]" then Some ([], rest)
      else match until_bracket rest with
           | Some (body, after) => Some (c :: body, after)
           | None => None
           end
  end.

(** After an opening bracket: the class and the rest of the pattern, or
    [None] when the bracket is never closed. *)
Definition bracket (rest : list ascii) : option (token * list ascii) :=
  let '(neg, r1) := match rest with
                    | "!"%char :: r => (true, r)
                    | _ => (false, rest)
                    end in
  let '(first, r2) := match r1 with
                      | "]"%char :: r => (["]"%char], r)
                      | _ => ([], r1)
                      end in
  match until_bracket r2 with
  | Some (body, after) => Some (Class neg (class_items (first ++ body)), after)
  | None => None
  end.

Fixpoint tokens (fuel : nat) (pat : list ascii) : list token :=
  match fuel, pat with
  | O, _ | _, [] => []
  | S f, c :: rest =>
      if Ascii.eqb c "*" then Star :: tokens f rest
      else if Ascii.eqb c "?" then AnyChar :: tokens f rest
      else if Ascii.eqb c "[" then
        match bracket rest with
        | Some (cl, after) => cl :: tokens f after
        | None => Lit c :: tokens f rest
        end
      else Lit c :: tokens f rest
  end.

Definition code (c : ascii) : N := N_of_ascii c.

Definition in_items (c : ascii) (items : list (ascii * ascii)) : bool :=
  existsb (λ '(lo, hi), (code lo <=? code c)%N && (code c <=? code hi)%N) items.

Definition token_match (t : token) (c : ascii) : bool :=
  match t with
  | Star => false
  | AnyChar => true
  | Class neg items => xorb neg (in_items c items)
  | Lit x => Ascii.eqb x c
  end.

Fixpoint glob (toks : list token) (name : list ascii) : bool :=
  match toks with
  | [] => match name with [] => true | _ => false end
  | Star :: toks' =>
      (fix star (s : list ascii) : bool :=
         glob toks' s || match s with [] => false | _ :: s' => star s' end) name
  | t :: toks' =>
      match name with
      | c :: name' => token_match t c && glob toks' name'
      | [] => false
      end
  end.

Definition fnmatch (name pat : string) : bool :=
  let p := list_ascii_of_string pat in
  glob (tokens (List.length p) p) (list_ascii_of_string name).

(** *** The directory being archived *)

(** A directory: its name, its files and its sub-directories, as [os.walk]
    lists them. *)
Inductive tree :=
| Dir (name : string) (files : list string) (subdirs : list tree).

Definition dirname (t : tree) : string :=
  match t with Dir n _ _ => n end.

(** [os.walk] below a directory whose path relative to [toarchive] is
    [relroot], top down, as pairs of a directory's relative path and the
    names of its files. *)
Fixpoint walk (relroot : list string) (t : tree) : list (list string * list string) :=
  match t with
  | Dir _ files subdirs =>
      (relroot, files)
      :: flat_map (λ sub, walk (relroot ++ [dirname sub]) sub) subdirs
  end.

(** ["/" / relpath] as a string. *)
Definition slashed (relpath : list string) : string :=
  foldr (λ comp acc, "/" +:+ comp +:+ acc) EmptyString relpath.

(** The inner loop over [globs], with its [break]. *)
Definition matches (globs : list string) (relpath : list string) : bool :=
  existsb (fnmatch (slashed relpath)) globs.


(** [file_at t path]: [path] names a file below the directory [t]. *)
Inductive file_at : tree → list string → Prop :=
| file_here n files subdirs f :
    f ∈ files → file_at (Dir n files subdirs) [f]
| file_below n files subdirs sub path :
    sub ∈ subdirs → file_at sub path →
    file_at (Dir n files subdirs) (dirname sub :: path).

(** Induction on directory trees, with the hypothesis for all
    sub-directories. *)
Fixpoint tree_ind_all (P : tree → Prop)
    (H : ∀ n files subdirs, Forall P subdirs → P (Dir n files subdirs))
    (t : tree) : P t :=
  match t with
  | Dir n files subdirs =>
      H n files subdirs
        ((fix all (l : list tree) : Forall P l :=
            match l with
            | [] => List.Forall_nil P
            | sub :: l' =>
                @List.Forall_cons _ P sub l' (tree_ind_all P H sub) (all l')
            end) subdirs)
  end.


Example slashed_example : slashed ["lib"; "x.so"] = "/lib/x.so".
Proof. reflexivity. Qed.

Example fnmatch_examples :
  fnmatch "/lib/x.so" "*.so" = true ∧ fnmatch "/bin/python3" "/bin/python*" = true
  ∧ fnmatch "/lib/x.o" "*.so" = false ∧ fnmatch "/lib/x.o" "/bin/python*" = false
  ∧ fnmatch "/lib/libz.so.1" "/lib/*.so.*" = true
  ∧ fnmatch "/x.py" "*.p[a-x]" = false ∧ fnmatch "/x.py" "*.p[!a-x]" = true
  ∧ fnmatch "a[b" "a[b" = true ∧ fnmatch "ab" "a?" = true.
Proof. repeat split; reflexivity. Qed.

(** *** The walk visits every file once per place in the tree *)

Lemma walk_unfold relroot n files subdirs :
  walk relroot (Dir n files subdirs)
  = (relroot, files)
    :: flat_map (λ sub, walk (relroot ++ [dirname sub]) sub) subdirs.
Proof. reflexivity. Qed.

Lemma walk_spec t : ∀ relroot rel,
  (∃ root files f, (root, files) ∈ walk relroot t ∧ f ∈ files ∧ rel = root ++ [f])
  ↔ (∃ path, file_at t path ∧ rel = relroot ++ path).
Proof.
  induction t as [n files subdirs IH] using tree_ind_all.
  intros relroot rel. rewrite walk_unfold. split.
  - intros (root & files' & f & Hin & Hf & ->).
    apply elem_of_cons in Hin as [[= -> ->]|Hin].
    + exists [f]. split; [by constructor|done].
    + apply list_elem_of_In, in_flat_map in Hin as (sub & Hsub & Hin).
      apply list_elem_of_In in Hsub, Hin.
      rewrite Forall_forall in IH.
      destruct (proj1 (IH sub Hsub (relroot ++ [dirname sub]) (root ++ [f])))
        as (path & Hpath & Heq); [eauto 6|].
      exists (dirname sub :: path). split; [by constructor|].
      rewrite Heq. by rewrite <- app_assoc.
  - intros (path & Hpath & ->). inversion Hpath as [? ? ? f Hf|? ? ? sub path' Hsub Hpath']; subst.
    + exists relroot, files, f. split; [by left|done].
    + rewrite Forall_forall in IH.
      destruct (proj2 (IH sub Hsub (relroot ++ [dirname sub])
                         (relroot ++ dirname sub :: path')))
        as (root & files' & f & Hin & Hf & Heq).
      { exists path'. split; [done|]. by rewrite <- app_assoc. }
      exists root, files', f. split; [|done]. right.
      apply list_elem_of_In, in_flat_map. exists sub.
      split; by apply list_elem_of_In.
Qed.


End Archive.

(** ** Version check: [check_files] and [compare_versions] *)
Module Versions.
Import Py.

(** *** [tarball_version], one of the version-extraction functions *)

Fixpoint after_first_dash (s : string) : option string :=
  match s with
  | EmptyString => None
  | String c r => if Ascii.eqb c "-" then Some r else after_first_dash r
  end.

Definition ends_with (suffix s : string) : bool :=
  let n := String.length s in
  let k := String.length suffix in
  (k <=? n) && String.eqb (String.substring (n - k) k s) suffix.

(** [x[:-7]] *)
Definition drop_last7 (x : string) : string :=
  String.substring 0 (String.length x - 7) x.

Definition tarball_version (href : string) : option string :=
  if ends_with "tar.gz" href then
    match after_first_dash href with
    | Some rest =>
        let x := drop_last7 rest in
        if String.eqb x "latest" then None else Some x
    | None => None
    end
  else None.

(** *** [looseversion.LooseVersion]

    The third-party class, after its documented behaviour: the version
    string is cut by the pattern [(\d+ | [a-z]+ | \.)] into runs of digits
    (read as integers), runs of lower-case letters, and the text in between;
    dots are dropped.  Two versions compare as their component lists do in
    Python, so the first differing pair decides and a number against a
    string raises [TypeError]. *)
Inductive component :=
| CInt (n : N)
| CStr (s : string).

Inductive cls := Digit | Lower | Dot | Other.

Definition classify (c : ascii) : cls :=
  let n := N_of_ascii c in
  if (48 <=? n)%N && (n <=? 57)%N then Digit
  else if (97 <=? n)%N && (n <=? 122)%N then Lower
  else if (n =? 46)%N then Dot
  else Other.

Definition same_run (a b : cls) : bool :=
  match a, b with
  | Digit, Digit | Lower, Lower | Other, Other => true
  | _, _ => false
  end.

Fixpoint runs (s : list ascii) : list (cls * list ascii) :=
  match s with
  | [] => []
  | c :: r =>
      match runs r with
      | (k, run) :: rs =>
          if same_run (classify c) k then (k, c :: run) :: rs
          else (classify c, [c]) :: (k, run) :: rs
      | [] => [(classify c, [c])]
      end
  end.

Definition digits_value (l : list ascii) : N :=
  foldl (λ acc c, 10 * acc + (N_of_ascii c - 48))%N 0%N l.

Definition components (vstring : string) : list component :=
  flat_map (λ '(k, run),
              match k with
              | Dot => []
              | Digit => [CInt (digits_value run)]
              | Lower | Other => [CStr (string_of_list_ascii run)]
              end)
           (runs (list_ascii_of_string vstring)).

(** [LooseVersion(vstring)]: an empty string is not parsed, which leaves the
    object without its [version] attribute. *)
Record Loose := mkLoose {
  vstring : string;
  version : option (list component);
}.

Definition LooseVersion (s : string) : Loose :=
  mkLoose s (if String.eqb s EmptyString then None else Some (components s)).

Definition mixed : exn :=
  TypeError "'<' not supported between instances of 'str' and 'int'".

Fixpoint cmp_components (a b : list component) : result comparison :=
  match a, b with
  | [], [] => Ok Eq
  | [], _ :: _ => Ok Lt
  | _ :: _, [] => Ok Gt
  | x :: a', y :: b' =>
      match x, y with
      | CInt m, CInt n =>
          match N.compare m n with Eq => cmp_components a' b' | c => Ok c end
      | CStr s, CStr t =>
          match String.compare s t with Eq => cmp_components a' b' | c => Ok c end
      | _, _ => Raise mixed
      end
  end.

(** [LooseVersion._cmp] *)
Definition loose_cmp (x y : Loose) : result comparison :=
  match version x, version y with
  | Some a, Some b => cmp_components a b
  | _, _ => Raise (AttributeError "version")
  end.

Definition is_lt (c : comparison) : bool := match c with Lt => true | _ => false end.
Definition is_gt (c : comparison) : bool := match c with Gt => true | _ => false end.

Definition loose_lt (x y : Loose) : result bool :=
  match loose_cmp x y with Ok c => Ok (is_lt c) | Raise e => Raise e end.

Definition loose_gt (x y : Loose) : result bool :=
  match loose_cmp x y with Ok c => Ok (is_gt c) | Raise e => Raise e end.

(** *** [list.sort()]

    Sorting with a comparison that can raise: a stable insertion sort on
    [<]; an exception raised by a comparison ends the sort.  Python's sort
    may compare other pairs than this one does; on a list of two elements
    both compare exactly that pair. *)
Section Sort.
Context {A : Type} (lt : A → A → result bool).

Fixpoint insert (x : A) (l : list A) : result (list A) :=
  match l with
  | [] => Ok [x]
  | y :: r =>
      match lt x y with
      | Raise e => Raise e
      | Ok true => Ok (x :: y :: r)
      | Ok false =>
          match insert x r with
          | Ok r' => Ok (y :: r')
          | Raise e => Raise e
          end
      end
  end.

Definition sort (l : list A) : result (list A) :=
  foldl (λ acc x, match acc with Ok s => insert x s | Raise e => Raise e end)
        (Ok []) l.

End Sort.

(** *** [compare_versions] and [check_files] *)

Inductive message :=
| Found (version current : string)   (* "Found new version v > c" *)
| Unable (version : string).         (* "Unable to compare versions v" *)

Section Compare.
Context {A : Type} (gt : A → A → result bool) (show : A → string).

(** [compare_versions]: only [TypeError] is handled. *)
Fixpoint compare_versions (current : A) (versions : list A)
  : result (list message) :=
  match versions with
  | [] => Ok []
  | v :: rest =>
      match gt v current with
      | Raise (TypeError _) =>
          match compare_versions current rest with
          | Ok out => Ok (Unable (show v) :: out)
          | Raise e => Raise e
          end
      | Raise e => Raise e
      | Ok b =>
          match compare_versions current rest with
          | Ok out => Ok (if b then Found (show v) (show current) :: out else out)
          | Raise e => Raise e
          end
      end
  end.

End Compare.

Section Check.

(** [packaging.version.parse]: the strict parser ([None] stands for
    [InvalidVersion]), the order of its [Version] values, and their [str]. *)
Context {V : Type} (parse : string → option V) (vlt : V → V → bool)
        (vstr : V → string).

(** The version strings extracted from the links; [if version:] skips
    [None] and the empty string. *)
Definition extracted (func : string → option string) (links : list string)
  : list string :=
  flat_map (λ l, match func l with
                 | Some v => if String.eqb v EmptyString then [] else [v]
                 | None => []
                 end) links.

(** [check_files], from the hyperlinks [parse_links] returned for the
    fetched page. *)
Definition check_files (links : list string) (func : string → option string)
    (current : string) : result (list message) :=
  match parse current with
  | Some cur =>
      let versions :=
        flat_map (λ v, match parse v with Some p => [p] | None => [] end)
                 (extracted func links) in
      match sort (λ x y, Ok (vlt x y)) versions with
      | Ok sorted => compare_versions (λ x y, Ok (vlt y x)) vstr cur sorted
      | Raise e => Raise e
      end
  | None =>
      let cur := LooseVersion current in
      let versions := map LooseVersion (extracted func links) in
      match sort loose_lt versions with
      | Ok sorted => compare_versions loose_gt vstring cur sorted
      | Raise e => Raise e
      end
  end.

End Check.

(** The release-only fragment of the strict syntax, [N(.N)*], ordered as
    tuples with trailing zeros dropped.  It stands in for
    [packaging.version.parse] in examples only. *)
Fixpoint release_of_runs (expect_number : bool) (rs : list (cls * list ascii))
  : option (list N) :=
  match rs with
  | [] => if expect_number then None else Some []
  | (Digit, run) :: rest =>
      if expect_number then
        match release_of_runs false rest with
        | Some r => Some (digits_value run :: r)
        | None => None
        end
      else None
  | (Dot, _) :: rest => if expect_number then None else release_of_runs true rest
  | _ => None
  end.

Definition parse_release (s : string) : option (list N * string) :=
  match release_of_runs true (runs (list_ascii_of_string s)) with
  | Some r => Some (r, s)
  | None => None
  end.

Fixpoint strip_zeros (l : list N) : list N :=
  match l with
  | [] => []
  | x :: r =>
      match strip_zeros r with
      | [] => if (x =? 0)%N then [] else [x]
      | r' => x :: r'
      end
  end.

Fixpoint tuple_lt (a b : list N) : bool :=
  match a, b with
  | _, [] => false
  | [], _ :: _ => true
  | x :: a', y :: b' =>
      match N.compare x y with
      | Lt => true
      | Gt => false
      | Eq => tuple_lt a' b'
      end
  end.

Definition release_lt (x y : list N * string) : bool :=
  tuple_lt (strip_zeros (fst x)) (strip_zeros (fst y)).

Definition release_str (x : list N * string) : string := snd x.

Example tarball_version_examples :
  tarball_version "openssl-1.1.1t.tar.gz" = Some "1.1.1t"
  ∧ tarball_version "openssl-fips-2.0.16.tar.gz" = Some "fips-2.0.16"
  ∧ tarball_version "openssl-latest.tar.gz" = None
  ∧ tarball_version "index.html" = None
  ∧ tarball_version "README.tar.gz" = None.
Proof. repeat split; reflexivity. Qed.

Example components_examples :
  components "1.1.1t" = [CInt 1; CInt 1; CInt 1; CStr "t"]
  ∧ components "fips-2.0.16" = [CStr "fips"; CStr "-"; CInt 2; CInt 0; CInt 16]
  ∧ components "Bogus" = [CStr "B"; CStr "ogus"]
  ∧ components "3.10.10" = [CInt 3; CInt 10; CInt 10].
Proof. repeat split; reflexivity. Qed.

(** The spec's example, in strict mode. *)
Example check_files_python :
  check_files parse_release release_lt release_str
    ["Python-3.10.9.tar.gz"; "Python-3.10.10.tar.gz"; "Python-bogus.tar.gz"]
    tarball_version "3.10.9"
  = Ok [Found "3.10.10" "3.10.9"].
Proof. reflexivity. Qed.

(** An incomparable discovered version, alone, is reported. *)
Example check_files_unable :
  check_files parse_release release_lt release_str
    ["openssl-bogus.tar.gz"] tarball_version "1.1.1t"
  = Ok [Unable "bogus"].
Proof. reflexivity. Qed.

(** *** Strict mode *)

Section StrictMode.
Context {V : Type} (parse : string → option V) (vlt : V → V → bool)
        (vstr : V → string).

Lemma insert_total (x : V) (l : list V) :
  ∃ l', insert (λ a b, Ok (vlt a b)) x l = Ok l' ∧ l' ≡ₚ x :: l.
Proof.
  induction l as [|y r (r' & Hr & Hp)]; simpl.
  - by exists [x].
  - destruct (vlt x y).
    + by exists (x :: y :: r).
    + rewrite Hr. exists (y :: r'). split; [done|].
      rewrite Hp. apply Permutation_swap.
Qed.

Lemma sort_total (l : list V) :
  ∃ l', sort (λ a b, Ok (vlt a b)) l = Ok l' ∧ l' ≡ₚ l.
Proof.
  unfold sort.
  assert (Hgen : ∀ acc, ∃ l',
    foldl (λ acc x, match acc with
                    | Ok s0 => insert (λ a b, Ok (vlt a b)) x s0
                    | Raise e => Raise e
                    end) (Ok acc) l = Ok l' ∧ l' ≡ₚ acc ++ l).
  { induction l as [|x l IH]; intros acc; simpl.
    - exists acc. by rewrite app_nil_r.
    - destruct (insert_total x acc) as (acc' & -> & Hp).
      destruct (IH acc') as (l' & -> & Hp').
      exists l'. split; [done|]. rewrite Hp', Hp. simpl.
      apply Permutation_middle. }
  destruct (Hgen []) as (l' & Hl & Hp). eauto.
Qed.

Lemma compare_versions_total (cur : V) (versions : list V) :
  ∃ out, compare_versions (λ x y, Ok (vlt y x)) vstr cur versions = Ok out
    ∧ ∀ m, m ∈ out ↔ ∃ p, p ∈ versions ∧ vlt cur p = true
                          ∧ m = Found (vstr p) (vstr cur).
Proof.
  induction versions as [|v rest (out & Hout & Hiff)]; simpl.
  - exists []. split; [done|]. intros m. split.
    + by intros ?%elem_of_nil.
    + intros (p & Hp & _). by apply elem_of_nil in Hp.
  - rewrite Hout. eexists. split; [done|]. intros m.
    destruct (vlt cur v) eqn:Hv.
    + rewrite elem_of_cons, Hiff. split.
      * intros [->|(p & Hp & Hlt & ->)]; [exists v|exists p];
          (split; [by constructor|done]).
      * intros (p & Hp & Hlt & ->). apply elem_of_cons in Hp as [->|Hp]; eauto.
    + rewrite Hiff. split.
      * intros (p & Hp & Hlt & ->). exists p. split; [by constructor|done].
      * intros (p & Hp & Hlt & ->). apply elem_of_cons in Hp as [->|Hp];
          [congruence|eauto].
Qed.

(** When the current version parses strictly, the check never raises:
    discovered strings that do not parse are skipped, and a message is
    printed exactly for the discovered versions greater than the current
    one. *)
Lemma check_files_strict links func current cur :
  parse current = Some cur →
  ∃ out, check_files parse vlt vstr links func current = Ok out
    ∧ ∀ m, m ∈ out ↔ ∃ v p, v ∈ extracted func links ∧ parse v = Some p
                            ∧ vlt cur p = true ∧ m = Found (vstr p) (vstr cur).
Proof.
  intros Hcur. unfold check_files. rewrite Hcur.
  set (versions := flat_map _ (extracted func links)).
  destruct (sort_total versions) as (sorted & -> & Hperm).
  destruct (compare_versions_total cur sorted) as (out & -> & Hiff).
  exists out. split; [done|]. intros m. rewrite Hiff. split.
  - intros (p & Hp & Hlt & ->). rewrite Hperm in Hp.
    apply list_elem_of_In, in_flat_map in Hp as (v & Hv & Hp).
    apply list_elem_of_In in Hv.
    destruct (parse v) as [p'|] eqn:Hpv; simpl in Hp; [|done].
    destruct Hp as [->|[]]. eauto 6.
  - intros (v & p & Hv & Hpv & Hlt & ->). exists p. split; [|done].
    rewrite Hperm. apply list_elem_of_In, in_flat_map. exists v.
    split; [by apply list_elem_of_In|]. rewrite Hpv. by left.
Qed.

(** C8 (code defect): when the current version does not parse strictly the
    check compares loose versions, and [versions.sort()] is outside the
    [try] that handles [TypeError]: with current version "1.1.1t" and the
    discovered versions "3.0.8" and "bogus" the sort compares a number with
    a string and the check ends in [TypeError] instead of reporting. *)
Theorem check_files_sort_raises :
  parse "1.1.1t" = None →
  check_files parse vlt vstr
    ["openssl-3.0.8.tar.gz"; "openssl-bogus.tar.gz"] tarball_version "1.1.1t"
  = Raise mixed.
Proof. intros Hcur. unfold check_files. rewrite Hcur. reflexivity. Qed.

End StrictMode.

Lemma check_files_sort_raises_witness :
  parse_release "1.1.1t" = None
  ∧ check_files parse_release release_lt release_str
      ["openssl-3.0.8.tar.gz"; "openssl-bogus.tar.gz"] tarball_version "1.1.1t"
    = Raise mixed.
Proof.
  split; [reflexivity|].
  apply (check_files_sort_raises parse_release release_lt release_str).
  reflexivity.
Defined.

End Versions.

(** ** Pickling of [Dirs]: [__getstate__] and [__setstate__] *)
Module Dirs.
Import Py.

(** Attribute values: strings, and [pathlib.Path] objects. *)
Inductive value :=
| VStr (s : string)
| VPath (p : string).

(** An instance is its attribute dictionary; a pickled state is a dictionary
    as well. *)
Abbreviation obj := (gmap string value).

Definition getattr (self : obj) (attr : string) : result value :=
  match self !! attr with
  | Some v => Ok v
  | None => Raise (AttributeError attr)
  end.

Definition getitem (state : obj) (key : string) : result value :=
  match state !! key with
  | Some v => Ok v
  | None => Raise (KeyError key)
  end.

(** The working directories handed to [Dirs.__init__]
    ([relenv.common.WorkDirs]). *)
Record WorkDirs := mkWorkDirs {
  wd_root : string;
  wd_build : string;
  wd_download : string;
  wd_logs : string;
  wd_src : string;
}.

(** [Dirs.__init__]; [tmp] is the directory [tempfile.mkdtemp] created. *)
Definition init (dirs : WorkDirs) (name arch version tmp : string) : obj :=
  <["tmpbuild" := VStr tmp]>
  (<["sources" := VPath (wd_src dirs)]>
  (<["logs" := VPath (wd_logs dirs)]>
  (<["downloads" := VPath (wd_download dirs)]>
  (<["build" := VPath (wd_build dirs)]>
  (<["root" := VPath (wd_root dirs)]>
  (<["arch" := VStr arch]>
  (<["version" := VStr version]>
  (<["name" := VStr name]> ∅)))))))).

(** The keys of the pickled state, in the order [__getstate__] lists them. *)
Definition state_keys : list string :=
  ["name"; "arch"; "root"; "build"; "downloads"; "logs"; "sources"; "tmpbuild"].

(** The attributes [__setstate__] assigns, in its order. *)
Definition restored_attrs : list string :=
  ["name"; "arch"; "root"; "downloads"; "logs"; "sources"; "build"; "tmpbuild"].

(** [Dirs.__getstate__]: a dictionary built from the listed attributes. *)
Fixpoint collect (self : obj) (keys : list string) (state : obj) : result obj :=
  match keys with
  | [] => Ok state
  | k :: rest =>
      match getattr self k with
      | Ok v => collect self rest (<[k := v]> state)
      | Raise e => Raise e
      end
  end.

Definition getstate (self : obj) : result obj := collect self state_keys ∅.

(** [Dirs.__setstate__]: one assignment [self.k = state["k"]] per attribute. *)
Fixpoint assign (state : obj) (attrs : list string) (self : obj) : result obj :=
  match attrs with
  | [] => Ok self
  | k :: rest =>
      match getitem state k with
      | Ok v => assign state rest (<[k := v]> self)
      | Raise e => Raise e
      end
  end.

Definition setstate (self state : obj) : result obj :=
  assign state restored_attrs self.

(** [Dirs._triplet] *)
Definition triplet (platform arch : string) : string :=
  if String.eqb platform "darwin" then arch +:+ "-macos"
  else if String.eqb platform "win32" then arch +:+ "-win"
  else arch +:+ "-linux-gnu".

Definition show (v : value) : string :=
  match v with VStr s => s | VPath p => p end.

(** [Dirs.prefix]: [self.build / f"{self.version}-{self._triplet}"] *)
Definition prefix (platform : string) (self : obj) : result value :=
  match getattr self "build" with
  | Raise e => Raise e
  | Ok build =>
      match getattr self "version" with
      | Raise e => Raise e
      | Ok version =>
          match getattr self "arch" with
          | Raise e => Raise e
          | Ok arch =>
              Ok (VPath (show build +:+ "/" +:+ show version +:+ "-"
                         +:+ triplet platform (show arch)))
          end
      end
  end.

(** Unpickling creates the instance without calling [__init__] and hands the
    state to [__setstate__]. *)
Definition unpickle (state : obj) : result obj := setstate ∅ state.

Definition demo_dirs : WorkDirs :=
  mkWorkDirs "/data" "/data/build" "/data/download" "/data/logs" "/data/src".

Example prefix_before_pickling :
  prefix "linux" (init demo_dirs "openssl" "x86_64" "3.10.9" "/tmp/openssl_build0")
  = Ok (VPath "/data/build/3.10.9-x86_64-linux-gnu").
Proof. vm_compute. reflexivity. Qed.

(** *** Round trip *)

Lemma collect_spec (self : obj) (keys : list string) : ∀ (state : obj),
  (∀ k, k ∈ keys → is_Some (self !! k)) →
  ∃ st, collect self keys state = Ok st
    ∧ ∀ k, st !! k = if bool_decide (k ∈ keys) then self !! k else state !! k.
Proof.
  induction keys as [|a keys IH]; intros state Hall; cbn [collect].
  - exists state. split; [done|]. intros k.
    by rewrite bool_decide_eq_false_2 by apply not_elem_of_nil.
  - destruct (Hall a) as [v Hv]; [by left|]. unfold getattr. rewrite Hv.
    destruct (IH (<[a := v]> state)) as (st & -> & Hst).
    { intros k Hk. apply Hall. by right. }
    exists st. split; [done|]. intros k. rewrite Hst.
    destruct (decide (k ∈ keys)) as [Hin|Hout].
    + rewrite (bool_decide_eq_true_2 (k ∈ keys)) by done.
      by rewrite (bool_decide_eq_true_2 (k ∈ a :: keys)) by (by right).
    + rewrite (bool_decide_eq_false_2 (k ∈ keys)) by done.
      destruct (decide (k = a)) as [->|Hne].
      * rewrite lookup_insert_eq, bool_decide_eq_true_2 by (by left). done.
      * rewrite lookup_insert_ne by done.
        rewrite bool_decide_eq_false_2; [done|].
        rewrite elem_of_cons. tauto.
Qed.

Lemma assign_spec (state : obj) (attrs : list string) : ∀ (self : obj),
  (∀ k, k ∈ attrs → is_Some (state !! k)) →
  ∃ o, assign state attrs self = Ok o
    ∧ ∀ k, o !! k = if bool_decide (k ∈ attrs) then state !! k else self !! k.
Proof.
  induction attrs as [|a attrs IH]; intros self Hall; cbn [assign].
  - exists self. split; [done|]. intros k.
    by rewrite bool_decide_eq_false_2 by apply not_elem_of_nil.
  - destruct (Hall a) as [v Hv]; [by left|]. unfold getitem. rewrite Hv.
    destruct (IH (<[a := v]> self)) as (o & -> & Ho).
    { intros k Hk. apply Hall. by right. }
    exists o. split; [done|]. intros k. rewrite Ho.
    destruct (decide (k ∈ attrs)) as [Hin|Hout].
    + rewrite (bool_decide_eq_true_2 (k ∈ attrs)) by done.
      by rewrite (bool_decide_eq_true_2 (k ∈ a :: attrs)) by (by right).
    + rewrite (bool_decide_eq_false_2 (k ∈ attrs)) by done.
      destruct (decide (k = a)) as [->|Hne].
      * rewrite lookup_insert_eq, bool_decide_eq_true_2 by (by left). done.
      * rewrite lookup_insert_ne by done.
        rewrite bool_decide_eq_false_2; [done|].
        rewrite elem_of_cons. tauto.
Qed.

Lemma restored_attrs_state_keys k : k ∈ restored_attrs ↔ k ∈ state_keys.
Proof. unfold restored_attrs, state_keys. set_solver. Qed.

Lemma version_not_restored : "version" ∉ restored_attrs.
Proof. unfold restored_attrs. set_solver. Qed.

(** C10: for every [Dirs] object (one on which [__getstate__] finds the
    eight attributes it reads), [__setstate__] applied to any instance with
    the state [__getstate__] returned succeeds, gives each of [name], [arch],
    [root], [build], [downloads], [logs], [sources] and [tmpbuild] the value
    it has in the original, and leaves [version] as it was in the instance
    it is applied to; in the instance unpickling creates, [version] is
    therefore absent and [prefix] raises [AttributeError]. *)
Theorem setstate_getstate (self : obj) :
  (∀ k, k ∈ state_keys → is_Some (self !! k)) →
  ∃ state, getstate self = Ok state
    ∧ (∀ target : obj, ∃ o, setstate target state = Ok o
         ∧ (∀ k, k ∈ state_keys → o !! k = self !! k)
         ∧ o !! "version" = target !! "version")
    ∧ (∃ o, unpickle state = Ok o ∧ o !! "version" = None
         ∧ ∀ platform, prefix platform o = Raise (AttributeError "version")).
Proof.
  intros Hall.
  destruct (collect_spec self state_keys ∅ Hall) as (state & Hget & Hstate).
  exists state. split; [exact Hget|].
  assert (Hkeys : ∀ k, k ∈ restored_attrs → is_Some (state !! k)).
  { intros k Hk. apply restored_attrs_state_keys in Hk.
    rewrite Hstate, bool_decide_eq_true_2 by done. by apply Hall. }
  assert (Hset : ∀ target : obj, ∃ o, setstate target state = Ok o
            ∧ (∀ k, k ∈ state_keys → o !! k = self !! k)
            ∧ o !! "version" = target !! "version").
  { intros target.
    destruct (assign_spec state restored_attrs target Hkeys) as (o & Ho & Hlook).
    exists o. split; [exact Ho|]. split.
    - intros k Hk. rewrite Hlook, bool_decide_eq_true_2
        by (by apply restored_attrs_state_keys).
      by rewrite Hstate, bool_decide_eq_true_2.
    - rewrite Hlook. by rewrite bool_decide_eq_false_2 by apply version_not_restored. }
  split; [exact Hset|].
  destruct (Hset ∅) as (o & Ho & Hattrs & Hver).
  exists o. split; [exact Ho|]. rewrite lookup_empty in Hver. split; [exact Hver|].
  intros platform. unfold prefix, getattr. rewrite Hver.
  destruct (Hall "build") as [b Hb]; [unfold state_keys; set_solver|].
  rewrite (Hattrs "build") by (unfold state_keys; set_solver). by rewrite Hb.
Qed.

Lemma init_has_state_keys dirs name arch version tmp k :
  k ∈ state_keys → is_Some (init dirs name arch version tmp !! k).
Proof.
  unfold state_keys. intros Hk.
  repeat (apply elem_of_cons in Hk as [->|Hk]; [by eexists|]).
  by apply elem_of_nil in Hk.
Qed.

Lemma setstate_getstate_witness :
  (∀ k, k ∈ state_keys →
        is_Some (init demo_dirs "openssl" "x86_64" "3.10.9" "/tmp/b0" !! k))
  ∧ ∃ state, getstate (init demo_dirs "openssl" "x86_64" "3.10.9" "/tmp/b0") = Ok state
      ∧ ∃ o, unpickle state = Ok o ∧ o !! "version" = None
          ∧ o !! "name" = Some (VStr "openssl")
          ∧ prefix "linux" o = Raise (AttributeError "version").
Proof.
  split; [apply init_has_state_keys|].
  destruct (setstate_getstate (init demo_dirs "openssl" "x86_64" "3.10.9" "/tmp/b0")
              (init_has_state_keys demo_dirs "openssl" "x86_64" "3.10.9" "/tmp/b0"))
    as (state & Hget & Hset & (o & Ho & Hver & Hprefix)).
  exists state. split; [exact Hget|]. exists o.
  split; [exact Ho|]. split; [exact Hver|]. split; [|apply Hprefix].
  destruct (Hset ∅) as (o' & Ho' & Hattrs & _).
  unfold unpickle in Ho. rewrite Ho in Ho'. injection Ho' as <-.
  rewrite (Hattrs "name") by (unfold state_keys; set_solver). reflexivity.
Defined.

End Dirs.

(** ** Strings: facts about the operations the Python code uses on [str] *)
Module Text.

(** [needle in hay], that is, [hay.find(needle) > -1] *)
Fixpoint contains (needle hay : string) : bool :=
  String.prefix needle hay
  || match hay with
     | EmptyString => false
     | String _ r => contains needle r
     end.

(** [s[:-k]] *)
Definition drop_last (k : nat) (s : string) : string :=
  String.substring 0 (String.length s - k) s.

Lemma append_nil (s : string) : EmptyString +:+ s = s.
Proof. reflexivity. Qed.

Lemma append_cons c (a b : string) : String c a +:+ b = String c (a +:+ b).
Proof. reflexivity. Qed.

Lemma append_nil_r (s : string) : s +:+ EmptyString = s.
Proof. induction s as [|c s IH]; [done|]. by rewrite append_cons, IH. Qed.

Lemma append_assoc (a b c : string) : (a +:+ b) +:+ c = a +:+ b +:+ c.
Proof. induction a as [|x a IH]; [done|]. by rewrite !append_cons, IH. Qed.

Lemma length_append (a b : string) :
  String.length (a +:+ b) = String.length a + String.length b.
Proof.
  induction a as [|c a IH]; [done|].
  rewrite append_cons. simpl. by rewrite IH.
Qed.

Lemma append_inv_head (a b c : string) : a +:+ b = a +:+ c → b = c.
Proof.
  induction a as [|x a IH]; [done|]. rewrite !append_cons. intros [= H]. auto.
Qed.

Lemma append_inv_tail (a b c : string) : a +:+ c = b +:+ c → a = b.
Proof.
  revert b. induction a as [|x a IH]; intros [|y b] H.
  - done.
  - apply (f_equal String.length) in H. rewrite append_nil, length_append in H.
    simpl in H. lia.
  - apply (f_equal String.length) in H. rewrite append_nil, length_append in H.
    simpl in H. lia.
  - rewrite !append_cons in H. injection H as -> H. f_equal. auto.
Qed.

Lemma prefix_spec (a s : string) :
  String.prefix a s = true ↔ ∃ b, s = a +:+ b.
Proof.
  revert s. induction a as [|x a IH]; intros s.
  - destruct s; simpl; (split; [intros _; eauto|done]).
  - destruct s as [|y s]; simpl.
    + split; [done|]. intros [b Hb]. discriminate.
    + destruct (ascii_dec x y) as [->|Hne].
      * rewrite IH. split; intros [b Hb]; exists b.
        -- by rewrite append_cons, <- Hb.
        -- rewrite append_cons in Hb. by injection Hb.
      * split; [done|]. intros [b Hb]. rewrite append_cons in Hb. congruence.
Qed.

Lemma contains_nil needle :
  contains needle EmptyString = String.prefix needle EmptyString.
Proof. unfold contains. apply orb_false_r. Qed.

Lemma contains_cons needle c hay :
  contains needle (String c hay)
  = String.prefix needle (String c hay) || contains needle hay.
Proof. reflexivity. Qed.

Lemma contains_spec (needle hay : string) :
  contains needle hay = true ↔ ∃ a b, hay = a +:+ needle +:+ b.
Proof.
  induction hay as [|c hay IH].
  - rewrite contains_nil, prefix_spec. split.
    + intros [b Hb]. by exists EmptyString, b.
    + intros (a & b & Hab). destruct a; [by exists b|discriminate].
  - rewrite contains_cons, orb_true_iff, prefix_spec, IH. split.
    + intros [[b Hb]|(a & b & Hab)].
      * by exists EmptyString, b.
      * exists (String c a), b. by rewrite append_cons, <- Hab.
    + intros (a & b & Hab). destruct a as [|x a].
      * left. by exists b.
      * right. rewrite append_cons in Hab. injection Hab as -> Hab. eauto.
Qed.

Lemma substring_suffix (s : string) : ∀ n m,
  n ≤ String.length s → String.length s ≤ n + m →
  ∃ pre, s = pre +:+ String.substring n m s ∧ String.length pre = n.
Proof.
  induction s as [|c s IH]; intros n m Hn Hm; simpl in Hn, Hm.
  - exists EmptyString. assert (n = 0) as -> by lia. by destruct m.
  - destruct n as [|n].
    + exists EmptyString. split; [|done]. destruct m as [|m]; [lia|].
      destruct (IH 0 m) as (pre & Heq & Hlen); [lia..|].
      destruct pre; [|discriminate]. exact (f_equal (String c) Heq).
    + destruct (IH n m) as (pre & Heq & Hlen); [lia..|].
      exists (String c pre). split; [exact (f_equal (String c) Heq)|].
      simpl. by rewrite Hlen.
Qed.

Lemma substring_all (s : string) : String.substring 0 (String.length s) s = s.
Proof. induction s as [|c s IH]; simpl; [done|]. by rewrite IH. Qed.

Lemma substring_head (a b : string) :
  String.substring 0 (String.length a) (a +:+ b) = a.
Proof.
  induction a as [|c a IH].
  - by destruct b.
  - rewrite append_cons. simpl. by rewrite IH.
Qed.

Lemma substring_skip (a b : string) m :
  String.substring (String.length a) m (a +:+ b) = String.substring 0 m b.
Proof. induction a as [|c a IH]; [done|]. rewrite append_cons. simpl. exact IH. Qed.

Lemma drop_last_append (a b : string) :
  drop_last (String.length b) (a +:+ b) = a.
Proof.
  unfold drop_last. rewrite length_append.
  replace (String.length a + String.length b - String.length b)
    with (String.length a) by lia.
  apply substring_head.
Qed.

(** [drop_last] cuts a suffix off, and nothing but the whole string when the
    string is shorter than the cut. *)
Lemma drop_last_spec k (s : string) :
  ∃ b, s = drop_last k s +:+ b ∧ String.length b = String.length s `min` k.
Proof.
  unfold drop_last. set (n := String.length s - k).
  destruct (substring_suffix s n k) as (pre & Heq & Hlen); [lia..|].
  exists (String.substring n k s).
  assert (Hpre : String.substring 0 n s = pre).
  { rewrite Heq at 1. rewrite <- Hlen. apply substring_head. }
  rewrite Hpre. split; [exact Heq|].
  apply (f_equal String.length) in Heq. rewrite length_append, Hlen in Heq. lia.
Qed.

Lemma ends_with_spec (suffix s : string) :
  Versions.ends_with suffix s = true ↔ ∃ a, s = a +:+ suffix.
Proof.
  unfold Versions.ends_with. rewrite andb_true_iff, Nat.leb_le, String.eqb_eq.
  split.
  - intros [Hle Heq].
    destruct (substring_suffix s (String.length s - String.length suffix)
                (String.length suffix)) as (pre & Hs & _); [lia..|].
    exists pre. by rewrite Heq in Hs.
  - intros [a ->]. rewrite length_append. split; [lia|].
    replace (String.length a + String.length suffix - String.length suffix)
      with (String.length a) by lia.
    rewrite substring_skip. apply substring_all.
Qed.

Lemma list_ascii_of_string_append (a b : string) :
  list_ascii_of_string (a +:+ b) = list_ascii_of_string a ++ list_ascii_of_string b.
Proof.
  induction a as [|c a IH]; [done|]. rewrite append_cons. simpl. by rewrite IH.
Qed.

Lemma string_of_list_ascii_app (a b : list ascii) :
  string_of_list_ascii (a ++ b) = string_of_list_ascii a +:+ string_of_list_ascii b.
Proof.
  induction a as [|c a IH]; [done|]. simpl. by rewrite IH, append_cons.
Qed.


End Text.

(** ** Scheduler: ordering, progress and the end of [Builder.build] *)
Module Ordering.
Import Py Registry Scheduler.

(** The remaining-dependency lists stay tidy when no recipe names a
    dependency twice: an entry of [waits] belongs to a requested step, holds
    no duplicate, and names only workers whose handle is still in
    [processes]. *)
Definition tidy (st : state) : Prop :=
  ∀ n w, waits st !! n = Some w →
    n ∈ order st ∧ NoDup w ∧ ∀ d, d ∈ w → d ∈ processes st.

(** What is left to happen to a worker: pass the gate, end the build
    action, be reaped. *)
Definition stage (w : worker) : nat :=
  match w with
  | Blocked => 3
  | Building => 2
  | Done _ | Killed _ => 1
  end.

(** The moves the workers whose handles the orchestrator still holds can
    make at most. *)
Definition budget (st : state) : nat :=
  sum_list_with (λ n, from_option stage 0 (workers st !! n)) (processes st).

(** Runs counted by their moves. *)
Inductive moves (s0 : state) : nat → state → Prop :=
| moves_O : moves s0 0 s0
| moves_S k s s' : moves s0 k s → step s s' → moves s0 (S k) s'.

Definition newline : string := String "010"%char EmptyString.


(** What [fp.read()] returns after the seek to [end - 4096], or to the start
    of a shorter file: the last 4096 characters of the step's log, an ASCII
    text without carriage returns (the file is read in text mode, which
    decodes it and translates line ends). *)
Definition excerpt (log : string) : string :=
  String.substring (String.length log - 4096) 4096 log.




(** The state in which [C] of the graph [abcd] is building. *)
Definition c_building : list action :=
  [PassGate "A"; PassGate "B"; Finish "B" 0; Sweep; Finish "A" 0; Sweep;
   PassGate "C"].

Definition abcd_rank (n : string) : nat :=
  if String.eqb n "C" then 1 else if String.eqb n "D" then 2 else 0.

(** Workers exist only for requested steps. *)
Definition known (st : state) : Prop :=
  ∀ n, is_Some (workers st !! n) → n ∈ order st.

(** *** List removal on duplicate-free lists *)

Lemma remove_first_NoDup p (l : list string) : NoDup l → NoDup (remove_first p l).
Proof.
  induction 1 as [|y l Hy Hnd IH]; simpl; [constructor|].
  case_bool_decide; [done|]. constructor; [|done].
  intros Hin. by apply elem_of_remove_first in Hin.
Qed.

Lemma remove_first_gone p (l : list string) d :
  NoDup l → d ∈ remove_first p l → d ∈ l ∧ d ≠ p.
Proof.
  induction 1 as [|y l Hy Hnd IH]; simpl; [by intros ?%elem_of_nil|].
  case_bool_decide as Hpy.
  - subst y. intros Hd. split; [by right|]. by intros ->.
  - intros Hd. apply elem_of_cons in Hd as [->|Hd].
    + split; [by left|]. by intros ->.
    + destruct (IH Hd). split; [by right|done].
Qed.

(** *** The tidy invariant *)

Lemma tidy_init recipies (steps : list string) s0 :
  NoDup steps → init recipies steps = Ok s0 →
  (∀ n r, n ∈ steps → recipies !! n = Some r → NoDup (wait_on r)) →
  tidy s0.
Proof.
  intros Hnd Hinit Hdup.
  destruct (init_spec recipies steps s0 Hnd Hinit) as (_ & Ho & Hp & Hin & Hout).
  intros n w Hw. destruct (decide (n ∈ steps)) as [Hn|Hn].
  - destruct (Hin n Hn) as (r & Hr & Hw' & _). rewrite Hw' in Hw.
    injection Hw as <-. rewrite Ho, Hp. split; [done|]. split.
    + apply NoDup_filter. by apply (Hdup n).
    + intros d Hd. apply list_elem_of_filter in Hd. tauto.
  - destruct (Hout n Hn) as (Hnone & _). congruence.
Qed.

Lemma tidy_step D s s' : inv D s → tidy s → step s s' → tidy s'.
Proof.
  intros [] Ht Hstep.
  destruct Hstep as [m st _ _|m c st _|p wp c st Hp _ _]; [exact Ht..|].
  intros n w. rewrite reap_waits, reap_order, reap_processes by done.
  case_bool_decide as Hn.
  - destruct (waits st !! n) as [w0|] eqn:Hw0; [|discriminate].
    simpl. intros [= <-]. destruct (Ht n w0 Hw0) as (_ & Hnd & Hsub).
    split; [done|]. split; [by apply remove_first_NoDup|].
    intros d Hd. apply remove_first_gone in Hd as [Hd Hne]; [|done].
    apply elem_of_dict_pop. auto.
  - intros Hw. destruct (Ht n w Hw) as (Hord & _). done.
Qed.

Lemma tidy_reachable D s0 s : inv D s0 → tidy s0 → reachable s0 s → tidy s.
Proof.
  intros Hinv Ht. induction 1 as [|s s' Hreach IH Hstep]; [done|].
  apply (tidy_step D s); [|done..]. by apply (inv_reachable D s0).
Qed.

(** *** Order of the build actions *)

(** Dependency order, when every step has a list of its own: a build
    action is invoked only after every dependency of its step inside the
    requested set has ended with status 0 and has been reaped by the
    orchestrator, without an entry in the failure record. *)
Theorem dependencies_first recipies (steps : list string) s0 s n r wk :
  NoDup steps → init recipies steps = Ok s0 → reachable s0 s →
  n ∈ steps → recipies !! n = Some r →
  workers s !! n = Some wk → invoked wk = true →
  ∀ d, d ∈ wait_on r → d ∈ steps →
    workers s !! d = Some (Done 0) ∧ (d ∉ processes s) ∧ (d ∉ fails s).
Proof.
  intros Hnd Hinit Hreach Hn Hr Hwk Hinv d Hd Hds.
  destruct (init_spec recipies steps s0 Hnd Hinit) as (_ & _ & _ & Hin & _).
  destruct (Hin n Hn) as (r' & Hr' & Hdeps & _).
  rewrite Hr in Hr'. injection Hr' as <-.
  assert (Hdep : d ∈ filter (λ d, d ∈ steps) (wait_on r))
    by (apply list_elem_of_filter; done).
  pose proof (inv_reachable _ _ _ (inv_init recipies steps s0 Hnd Hinit) Hreach) as [].
  pose proof (inv_gate0 n wk Hwk Hinv) as Hgate.
  destruct (inv_events0 n _ Hdeps) as (e & He & Hiff).
  rewrite Hgate in He. injection He as <-.
  destruct Hiff as [Hempty _]. specialize (Hempty eq_refl).
  assert (Hproc : d ∉ processes s).
  { intros Hp. pose proof (inv_pending0 n _ d [] Hdeps Hdep Hp Hempty) as Hnil.
    by apply elem_of_nil in Hnil. }
  destruct (inv_closed0 n _ d Hdeps Hdep) as [dsd Hdsd].
  destruct (inv_reaped0 d dsd Hdsd Hproc) as (wd & c & Hwd & Hc & Hfails).
  destruct (decide (c = 0%Z)) as [->|Hne].
  - destruct wd as [| |c'|ran]; simpl in Hc; try discriminate.
    injection Hc as ->. split; [done|]. split; [done|]. rewrite Hfails. tauto.
  - assert (Hk : workers s !! n = Some (Killed false)).
    { apply (inv_cascade0 n _ d Hdeps Hdep Hproc). by exists wd, c. }
    rewrite Hwk in Hk. injection Hk as ->. discriminate.
Qed.


Lemma dependencies_first_witness :
  ∃ s, run c_building abcd_init = Some s
    ∧ workers s !! "C" = Some Building
    ∧ workers s !! "A" = Some (Done 0) ∧ workers s !! "B" = Some (Done 0)
    ∧ ("A" ∉ processes s) ∧ ("B" ∉ fails s).
Proof.
  assert (HA : "A" ∈ abcd_steps) by (unfold abcd_steps; set_solver).
  assert (HB : "B" ∈ abcd_steps) by (unfold abcd_steps; set_solver).
  assert (HC : "C" ∈ abcd_steps) by (unfold abcd_steps; set_solver).
  assert (HAd : "A" ∈ ["A"; "B"]) by set_solver.
  assert (HBd : "B" ∈ ["A"; "B"]) by set_solver.
  assert (Hr : abcd !! "C" = Some (mkRecipe ["A"; "B"] None))
    by (vm_compute; reflexivity).
  destruct (run c_building abcd_init) as [s|] eqn:Hs;
    [|vm_compute in Hs; discriminate Hs].
  exists s. split; [reflexivity|].
  assert (Hw : workers s !! "C" = Some Building)
    by (vm_compute in Hs; injection Hs as <-; reflexivity).
  split; [exact Hw|].
  pose proof (dependencies_first abcd abcd_steps abcd_init s "C"
                (mkRecipe ["A"; "B"] None) Building abcd_steps_NoDup init_abcd
                (run_reachable _ _ _ Hs) HC Hr Hw eq_refl) as H.
  destruct (H "A" HAd HA) as (HwA & HpA & _).
  destruct (H "B" HBd HB) as (HwB & _ & HfB).
  repeat split; assumption.
Defined.

(** *** Progress *)

Lemma min_rank (rank : string → nat) (l : list string) :
  l ≠ [] → ∃ p, p ∈ l ∧ ∀ q, q ∈ l → rank p ≤ rank q.
Proof.
  induction l as [|a l IH]; [done|]. intros _.
  destruct l as [|b l].
  - exists a. split; [by left|]. intros q Hq.
    apply list_elem_of_singleton in Hq as ->. lia.
  - destruct IH as (p & Hp & Hmin); [done|].
    destruct (decide (rank a ≤ rank p)) as [Hle|Hgt].
    + exists a. split; [by left|]. intros q Hq.
      apply elem_of_cons in Hq as [->|Hq]; [lia|]. specialize (Hmin q Hq). lia.
    + exists p. split; [by right|]. intros q Hq.
      apply elem_of_cons in Hq as [->|Hq]; [lia|]. by apply Hmin.
Qed.

(** X2 (no deadlock): when no recipe names a dependency twice and the
    dependencies inside the requested set are acyclic (they decrease some
    rank), the build cannot get stuck: as long as the orchestrator holds a
    process handle, a worker can pass its gate or end its build action, or
    the orchestrator can reap a worker that has exited. *)
Theorem no_deadlock recipies (steps : list string) (rank : string → nat) s0 s :
  NoDup steps → init recipies steps = Ok s0 →
  (∀ n r, n ∈ steps → recipies !! n = Some r → NoDup (wait_on r)) →
  (∀ n r d, n ∈ steps → recipies !! n = Some r → d ∈ wait_on r → d ∈ steps →
     rank d < rank n) →
  reachable s0 s → processes s ≠ [] → ∃ s', step s s'.
Proof.
  intros Hnd Hinit Hdup Hrank Hreach Hlive.
  destruct (init_spec recipies steps s0 Hnd Hinit) as (_ & _ & Hp0 & Hin & Hout).
  pose proof (inv_init recipies steps s0 Hnd Hinit) as Hinv0.
  pose proof (inv_reachable _ _ _ Hinv0 Hreach) as Hinv. pose proof Hinv as [].
  pose proof (tidy_reachable _ _ _ Hinv0
                (tidy_init recipies steps s0 Hnd Hinit Hdup) Hreach) as Ht.
  destruct (min_rank rank (processes s) Hlive) as (p & Hp & Hmin).
  destruct (inv_procs0 p Hp) as [ds Hds].
  assert (Hps : p ∈ steps).
  { destruct (decide (p ∈ steps)) as [|Hn]; [done|].
    destruct (Hout p Hn) as (Hnone & _). congruence. }
  destruct (Hin p Hps) as (r & Hr & Hdeps & _).
  rewrite Hds in Hdeps. injection Hdeps as ->.
  destruct (inv_workers0 p _ Hds) as (wk & Hwk).
  destruct wk as [| |c|ran].
  - destruct (inv_events0 p _ Hds) as (e & He & Hiff).
    destruct e.
    + eexists. by apply (step_pass p).
    + exfalso. destruct (inv_waits0 p _ Hds) as (w & Hw & Hsub).
      destruct w as [|d w].
      * destruct Hiff as [_ Hiff]. by specialize (Hiff Hw).
      * assert (Hd : d ∈ d :: w) by (by left).
        destruct (Ht p _ Hw) as (_ & _ & Hlivew).
        pose proof (Hmin d (Hlivew d Hd)) as Hle.
        apply Hsub, list_elem_of_filter in Hd as [Hds' Hd].
        pose proof (Hrank p r d Hps Hr Hd Hds'). lia.
  - exists (set_worker p (Done 0) s). by apply step_finish.
  - eexists. by apply (step_reap p (Done c) c).
  - eexists. by apply (step_reap p (Killed ran) SIGTERM_exit).
Qed.

Lemma abcd_NoDup_wait_on n r :
  n ∈ abcd_steps → abcd !! n = Some r → NoDup (wait_on r).
Proof.
  unfold abcd_steps. intros Hn.
  repeat (apply elem_of_cons in Hn as [->|Hn];
          [vm_compute; intros [= <-]; simpl;
           repeat (apply NoDup_cons; split; [set_solver|]); apply NoDup_nil_2|]).
  by apply elem_of_nil in Hn.
Qed.

Lemma abcd_rank_decreases n r d :
  n ∈ abcd_steps → abcd !! n = Some r → d ∈ wait_on r → d ∈ abcd_steps →
  abcd_rank d < abcd_rank n.
Proof.
  unfold abcd_steps. intros Hn.
  repeat (apply elem_of_cons in Hn as [->|Hn];
          [vm_compute; intros [= <-]; simpl; intros Hd Hs;
           repeat (apply elem_of_cons in Hd as [->|Hd]; [vm_compute; try lia|]);
           try (by apply elem_of_nil in Hd);
           repeat (apply elem_of_cons in Hs as [Hs|Hs]; [discriminate|]);
           by apply elem_of_nil in Hs|]).
  by apply elem_of_nil in Hn.
Qed.

Lemma no_deadlock_witness : ∃ s', step abcd_init s'.
Proof.
  apply (no_deadlock abcd abcd_steps abcd_rank abcd_init abcd_init
           abcd_steps_NoDup init_abcd abcd_NoDup_wait_on abcd_rank_decreases).
  - apply reach_init.
  - discriminate.
Defined.


(** *** Bookkeeping *)


Lemma known_init recipies (steps : list string) s0 :
  NoDup steps → init recipies steps = Ok s0 → known s0.
Proof.
  intros Hnd Hinit.
  destruct (init_spec recipies steps s0 Hnd Hinit) as (_ & Ho & _ & _ & Hout).
  intros n Hn. rewrite Ho. destruct (decide (n ∈ steps)) as [|Hne]; [done|].
  destruct (Hout n Hne) as (_ & _ & Hnone). rewrite Hnone in Hn. by destruct Hn.
Qed.

Lemma known_step D s s' : inv D s → known s → step s s' → known s'.
Proof.
  intros [] Hk Hstep.
  destruct Hstep as [m st Hm _|m c st Hm|p wp c st Hp _ _].
  - intros n. cbn [set_worker workers order].
    destruct (decide (n = m)) as [->|Hne]; [intros _; apply Hk; eauto|].
    rewrite lookup_insert_ne by done. apply Hk.
  - intros n. cbn [set_worker workers order].
    destruct (decide (n = m)) as [->|Hne]; [intros _; apply Hk; eauto|].
    rewrite lookup_insert_ne by done. apply Hk.
  - intros n. rewrite reap_workers, reap_order by done.
    case_bool_decide; [done|]. apply Hk.
Qed.

Lemma known_reachable D s0 s : inv D s0 → known s0 → reachable s0 s → known s.
Proof.
  intros Hinv Hk. induction 1 as [|s s' Hreach IH Hstep]; [done|].
  apply (known_step D s); [|done..]. by apply (inv_reachable D s0).
Qed.

(** A worker that has not exited still has its handle in [processes]. *)
Lemma live_in_processes D s n w :
  inv D s → known s → workers s !! n = Some w → exit_status w = None →
  n ∈ processes s.
Proof.
  intros [] Hk Hw Hlive.
  destruct (decide (n ∈ processes s)) as [|Hn]; [done|].
  assert (Hd : is_Some (D !! n)) by (apply inv_order0, Hk; eauto).
  destruct Hd as [ds Hds].
  destruct (inv_reaped0 n ds Hds Hn) as (wk & c & Hwk & Hc & _). congruence.
Qed.

(** *** The number of moves *)

Lemma sum_list_with_update (f g : string → nat) (l : list string) n :
  NoDup l → n ∈ l → (∀ m, m ≠ n → g m = f m) →
  sum_list_with g l + f n = sum_list_with f l + g n.
Proof.
  intros Hnd Hn Hext. induction Hnd as [|a l Ha Hnd IH]; [by apply elem_of_nil in Hn|].
  simpl. apply elem_of_cons in Hn as [->|Hn].
  - assert (Hsame : sum_list_with g l = sum_list_with f l).
    { clear IH Hnd. induction l as [|b l IHl]; simpl; [done|].
      rewrite Hext by (intros ->; apply Ha; by left).
      rewrite IHl; [done|]. intros Hin. apply Ha. by right. }
    lia.
  - assert (a ≠ n) by (by intros ->). rewrite (Hext a) by done.
    specialize (IH Hn). lia.
Qed.

Lemma sum_list_with_pop (f g : string → nat) (l : list string) p :
  NoDup l → p ∈ l → (∀ m, m ≠ p → g m ≤ f m) →
  sum_list_with g (dict_pop p l) + f p ≤ sum_list_with f l.
Proof.
  intros Hnd Hp Hle. unfold dict_pop.
  induction Hnd as [|a l Ha Hnd IH]; [by apply elem_of_nil in Hp|].
  rewrite filter_cons. simpl. apply elem_of_cons in Hp as [->|Hp].
  - rewrite decide_False by (by intros []).
    assert (Hrest : sum_list_with g (filter (λ x, x ≠ a) l) ≤ sum_list_with f l).
    { clear IH Hnd. induction l as [|b l IHl]; simpl; [done|].
      rewrite filter_cons. assert (b ≠ a) by (intros ->; apply Ha; by left).
      rewrite decide_True by done. simpl.
      pose proof (Hle b ltac:(done)).
      assert (a ∉ l) by (intros Hin; apply Ha; by right).
      specialize (IHl ltac:(done)). lia. }
    lia.
  - assert (a ≠ p) by (by intros ->). rewrite decide_True by done. simpl.
    pose proof (Hle a ltac:(done)). specialize (IH Hp). lia.
Qed.

Lemma stage_terminate w : stage (terminate w) ≤ stage w.
Proof. destruct w; simpl; lia. Qed.

Lemma budget_step D s s' : inv D s → known s → step s s' → budget s' < budget s.
Proof.
  intros Hinv Hk Hstep. pose proof Hinv as [].
  destruct Hstep as [m st Hm _|m c st Hm|p wp c st Hp Hwp Hc].
  - pose proof (live_in_processes D st m Blocked Hinv Hk Hm eq_refl) as Hin.
    unfold budget. cbn [set_worker workers processes].
    pose proof (sum_list_with_update
                  (λ n, from_option stage 0 (workers st !! n))
                  (λ n, from_option stage 0 (<[m := Building]> (workers st) !! n))
                  (processes st) m inv_procs_nodup0 Hin) as Hsum.
    cbv beta in Hsum. rewrite lookup_insert_eq, Hm in Hsum. simpl in Hsum.
    assert (Hext : ∀ n, n ≠ m →
      from_option stage 0 (<[m := Building]> (workers st) !! n)
      = from_option stage 0 (workers st !! n))
      by (intros n Hn; by rewrite lookup_insert_ne).
    specialize (Hsum Hext). lia.
  - pose proof (live_in_processes D st m Building Hinv Hk Hm eq_refl) as Hin.
    unfold budget. cbn [set_worker workers processes].
    pose proof (sum_list_with_update
                  (λ n, from_option stage 0 (workers st !! n))
                  (λ n, from_option stage 0 (<[m := Done c]> (workers st) !! n))
                  (processes st) m inv_procs_nodup0 Hin) as Hsum.
    cbv beta in Hsum. rewrite lookup_insert_eq, Hm in Hsum. simpl in Hsum.
    assert (Hext : ∀ n, n ≠ m →
      from_option stage 0 (<[m := Done c]> (workers st) !! n)
      = from_option stage 0 (workers st !! n))
      by (intros n Hn; by rewrite lookup_insert_ne).
    specialize (Hsum Hext). lia.
  - unfold budget. rewrite reap_processes.
    pose proof (sum_list_with_pop
                  (λ n, from_option stage 0 (workers st !! n))
                  (λ n, from_option stage 0 (workers (reap p c st) !! n))
                  (processes st) p inv_procs_nodup0 Hp) as Hsum.
    cbv beta in Hsum. rewrite Hwp in Hsum. simpl in Hsum.
    assert (Hle : ∀ n, n ≠ p →
      from_option stage 0 (workers (reap p c st) !! n)
      ≤ from_option stage 0 (workers st !! n)).
    { intros n _.
      destruct (reap_workers_cases p c st n inv_nodup0) as [->|(-> & _)]; [done|].
      destruct (workers st !! n) as [w|]; simpl; [apply stage_terminate|done]. }
    specialize (Hsum Hle).
    assert (stage wp = 1) by (destruct wp; simpl in *; congruence). lia.
Qed.

Lemma moves_reachable s0 k s : moves s0 k s → reachable s0 s.
Proof. induction 1; [apply reach_init|]. eapply reach_step; eauto. Qed.

Lemma budget_init recipies (steps : list string) s0 :
  NoDup steps → init recipies steps = Ok s0 → budget s0 = 3 * List.length steps.
Proof.
  intros Hnd Hinit.
  destruct (init_spec recipies steps s0 Hnd Hinit) as (_ & _ & Hp & Hin & _).
  unfold budget. rewrite Hp.
  assert (Hall : ∀ n, n ∈ steps → from_option stage 0 (workers s0 !! n) = 3).
  { intros n Hn. destruct (Hin n Hn) as (r & _ & _ & _ & ->). reflexivity. }
  clear Hp Hin Hnd Hinit. induction steps as [|a l IH]; simpl; [done|].
  rewrite Hall by (by left). rewrite IH by (intros; apply Hall; by right). lia.
Qed.

(** X3 (bounded runs): every move uses up one unit of the budget, which is
    three per requested step at the start: a run of the build from its
    start-up state makes at most three moves per step, so the polling loop
    cannot be kept busy for ever by moves of the system. *)
Theorem bounded_run recipies (steps : list string) s0 k s :
  NoDup steps → init recipies steps = Ok s0 → moves s0 k s →
  k + budget s ≤ 3 * List.length steps.
Proof.
  intros Hnd Hinit Hmoves.
  pose proof (inv_init recipies steps s0 Hnd Hinit) as Hinv0.
  pose proof (known_init recipies steps s0 Hnd Hinit) as Hk0.
  induction Hmoves as [|k s s' Hm IH Hstep].
  - rewrite (budget_init recipies steps s0) by done. lia.
  - pose proof (moves_reachable _ _ _ Hm) as Hreach.
    pose proof (budget_step (waits s0) s s'
                  (inv_reachable _ _ _ Hinv0 Hreach)
                  (known_reachable _ _ _ Hinv0 Hk0 Hreach) Hstep). lia.
Qed.

Lemma bounded_run_witness :
  ∃ s, moves abcd_init 2 s ∧ 2 + budget s ≤ 3 * List.length abcd_steps.
Proof.
  assert (Hm : moves abcd_init 2
                 (set_worker "B" Building (set_worker "A" Building abcd_init))).
  { apply moves_S with (s := set_worker "A" Building abcd_init).
    - apply moves_S with (s := abcd_init); [apply moves_O|].
      apply (step_pass "A"); reflexivity.
    - apply (step_pass "B"); reflexivity. }
  eexists. split; [exact Hm|].
  exact (bounded_run abcd abcd_steps abcd_init 2 _ abcd_steps_NoDup init_abcd Hm).
Defined.

(** *** The end of the build *)

Lemma steps_of_init recipies (steps : list string) s0 n :
  NoDup steps → init recipies steps = Ok s0 →
  is_Some (waits s0 !! n) ↔ n ∈ steps.
Proof.
  intros Hnd Hinit.
  destruct (init_spec recipies steps s0 Hnd Hinit) as (_ & _ & _ & Hin & Hout).
  split.
  - intros Hs. destruct (decide (n ∈ steps)) as [|Hn]; [done|].
    destruct (Hout n Hn) as (Hw & _). rewrite Hw in Hs. by destruct Hs.
  - intros Hn. destruct (Hin n Hn) as (r & _ & -> & _). eauto.
Qed.




(** *** The log excerpt *)

(** X5 (log excerpt): what the failure report prints of a step's log (an
    ASCII text without carriage returns) is a suffix of the log, the whole
    log when it has at most 4096 characters and its last 4096 characters
    otherwise. *)
Theorem excerpt_suffix (log : string) :
  ∃ pre, log = pre +:+ excerpt log
    ∧ String.length pre = String.length log - 4096
    ∧ String.length (excerpt log) = String.length log `min` 4096.
Proof.
  unfold excerpt. generalize 4096. intros k.
  destruct (Text.substring_suffix log (String.length log - k) k) as (pre & Heq & Hlen);
    [lia..|].
  exists pre. split; [exact Heq|]. split; [exact Hlen|].
  apply (f_equal String.length) in Heq. rewrite Text.length_append, Hlen in Heq. lia.
Qed.

(** *** The recipes after a build *)

Lemma start_all_total recipies (steps todo : list string) : ∀ st,
  (∀ n, n ∈ todo → is_Some (recipies !! n)) →
  ∃ s, start_all recipies steps todo st = Ok s.
Proof.
  induction todo as [|a todo IH]; intros st Hall; simpl; [eauto|].
  destruct (Hall a) as [r ->]; [by left|]. apply IH. intros; apply Hall. by right.
Qed.

Lemma finished_waits recipies (steps : list string) s0 s :
  NoDup steps → init recipies steps = Ok s0 →
  (∀ n r, n ∈ steps → recipies !! n = Some r → NoDup (wait_on r)) →
  reachable s0 s → processes s = [] →
  (∀ n, n ∈ steps → waits s !! n = Some [])
  ∧ (∀ n, n ∉ steps → waits s !! n = None).
Proof.
  intros Hnd Hinit Hdup Hreach Hnil.
  pose proof (inv_init recipies steps s0 Hnd Hinit) as Hinv0.
  pose proof (inv_reachable _ _ _ Hinv0 Hreach) as [].
  pose proof (tidy_reachable _ _ _ Hinv0
                (tidy_init recipies steps s0 Hnd Hinit Hdup) Hreach) as Ht.
  split.
  - intros n Hn.
    destruct (proj2 (steps_of_init recipies steps s0 n Hnd Hinit) Hn) as [ds Hds].
    destruct (inv_waits0 n ds Hds) as (w & Hw & _). rewrite Hw.
    destruct (Ht n w Hw) as (_ & _ & Hlive). destruct w as [|d w]; [done|].
    specialize (Hlive d ltac:(by left)). rewrite Hnil in Hlive.
    by apply elem_of_nil in Hlive.
  - intros n Hn. destruct (waits s !! n) as [w|] eqn:Hw; [|done].
    destruct (Ht n w Hw) as (Hord & _). exfalso. apply Hn.
    apply (steps_of_init recipies steps s0); [done..|]. by apply inv_order0.
Qed.

Lemma init_no_waits recipies (steps : list string) :
  NoDup steps →
  (∀ n, n ∈ steps → ∃ r, recipies !! n = Some r ∧ wait_on r = []) →
  ∃ s1, init recipies steps = Ok s1
    ∧ ∀ n, n ∈ steps → events s1 !! n = Some true ∧ waits s1 !! n = Some [].
Proof.
  intros Hnd Hall.
  destruct (start_all_total recipies steps steps empty_state) as [s1 Hs1].
  { intros n Hn. destruct (Hall n Hn) as (r & -> & _). eauto. }
  exists s1. split; [exact Hs1|]. intros n Hn.
  destruct (init_spec _ steps s1 Hnd Hs1) as (_ & _ & _ & Hin1 & _).
  destruct (Hin1 n Hn) as (r1 & Hr1 & Hw1 & He1 & _).
  destruct (Hall n Hn) as (r & Hr & Hnil).
  rewrite Hr in Hr1. injection Hr1 as <-.
  rewrite He1, Hw1, Hnil. done.
Qed.



End Ordering.

(** ** Copies of a builder: [Builder.copy] *)
Module Copies.
Import Py Registry Scheduler Ordering.

(** Python lists are objects, and a recipe holds a reference to its
    [wait_on] list.  A store maps the references to the lists. *)
Abbreviation store := (gmap nat (list string)).

(** A recipe dictionary, with its [wait_on] list by reference. *)
Record Entry := mkEntry {
  wait_ref : nat;
  entry_download : option Download.Download;
}.

(** The recipes of a builder as they read in a store. *)
Definition view (h : store) (recipies : gmap string Entry) : gmap string Recipe :=
  (λ e, mkRecipe (default [] (h !! wait_ref e)) (entry_download e)) <$> recipies.

(** [Download.copy]: a new object with the attributes of the old one, handed
    to [Download.__init__] in the order of its parameters. *)
Definition download_copy (d : Download.Download) : Download.Download :=
  Download.mkDownload (Download.name d) (Download.url_tpl d)
    (Download.fallback_url_tpl d) (Download.signature_tpl d)
    (Download.destination d) (Download.version d) (Download.md5sum d).

(** The two assignments at the end of [Builder.copy]. *)
Definition retarget (version : string) (md5sum : option string)
    (d : Download.Download) : Download.Download :=
  Download.mkDownload (Download.name d) (Download.url_tpl d)
    (Download.fallback_url_tpl d) (Download.signature_tpl d)
    (Download.destination d) version md5sum.

(** [Builder.copy].  Each recipe dictionary and each [Download] of the copy
    is a new object, but ["wait_on": _["wait_on"]] puts the very list of the
    original into the copy.  The constructor [Builder(...)] is taken to
    succeed.  A missing ["python"] recipe gives [KeyError], one without a
    download [AttributeError] (on [None]). *)
Definition copy (recipies : gmap string Entry) (version : string)
    (md5sum : option string) : result (gmap string Entry) :=
  let copied :=
    (λ e, mkEntry (wait_ref e) (download_copy <$> entry_download e)) <$> recipies in
  match copied !! "python" with
  | None => Raise (KeyError "python")
  | Some e =>
      match entry_download e with
      | None => Raise (AttributeError "version")
      | Some d =>
          Ok (<["python" := mkEntry (wait_ref e) (Some (retarget version md5sum d))]>
                copied)
      end
  end.

(** The store after a call of [build] for [steps] that ended in the state
    [st]: [waits[name]] is the list of the recipe of [name], emptied in
    place by the start-up loop and by the polling loop. *)
Definition store_after (recipies : gmap string Entry) (steps : list string)
    (st : state) (h : store) : store :=
  foldr (λ n h', match recipies !! n, waits st !! n with
                 | Some e, Some w => <[wait_ref e := w]> h'
                 | _, _ => h'
                 end) h steps.

(** A builder for the graph [abcd] and for Python. *)
Definition abcd_store : store :=
  {[ 0 := []; 1 := ["zlib"]; 2 := ["A"; "B"]; 3 := ["C"]; 4 := ["D"] ]}.

Definition abcd_book : gmap string Entry :=
  {[ "A" := mkEntry 0 None; "B" := mkEntry 1 None; "C" := mkEntry 2 None;
     "D" := mkEntry 3 None; "python" := mkEntry 4 (Some Download.python_dl) ]}.

Definition abcd_refs (n : string) : nat :=
  if String.eqb n "A" then 0 else if String.eqb n "B" then 1
  else if String.eqb n "C" then 2 else if String.eqb n "D" then 3 else 4.

Lemma download_copy_id d : download_copy d = d.
Proof. by destruct d. Qed.

Lemma copy_lookup recipies version md5sum c n e :
  copy recipies version md5sum = Ok c → recipies !! n = Some e →
  ∃ e', c !! n = Some e' ∧ wait_ref e' = wait_ref e.
Proof.
  unfold copy. intros Hc Hn.
  destruct (_ !! "python") as [p|] eqn:Hp; [|done].
  destruct (entry_download p) as [d|] eqn:Hd; [|done].
  injection Hc as <-.
  rewrite lookup_fmap in Hp.
  destruct (decide (n = "python")) as [->|Hne].
  - rewrite lookup_insert_eq. rewrite Hn in Hp. injection Hp as <-. eauto.
  - rewrite lookup_insert_ne, lookup_fmap, Hn by done. eauto.
Qed.

Lemma store_after_lookup recipies (steps : list string) st h n e w :
  (∀ a b x y, recipies !! a = Some x → recipies !! b = Some y →
     wait_ref x = wait_ref y → a = b) →
  n ∈ steps → recipies !! n = Some e → waits st !! n = Some w →
  store_after recipies steps st h !! wait_ref e = Some w.
Proof.
  intros Hinj Hn He Hw. induction steps as [|m steps IH]; simpl.
  - by apply elem_of_nil in Hn.
  - destruct (decide (m = n)) as [->|Hne].
    + rewrite He, Hw. apply lookup_insert_eq.
    + apply elem_of_cons in Hn as [->|Hn]; [done|].
      destruct (recipies !! m) as [f|] eqn:Hf; [|by apply IH].
      destruct (waits st !! m) as [v|]; [|by apply IH].
      rewrite lookup_insert_ne; [by apply IH|].
      intros Heq. apply Hne. by apply (Hinj m n f e).
Qed.

Lemma store_after_other recipies (steps : list string) st h l :
  (∀ n e, n ∈ steps → recipies !! n = Some e → wait_ref e ≠ l) →
  store_after recipies steps st h !! l = h !! l.
Proof.
  intros Hl. induction steps as [|m steps IH]; simpl; [done|].
  assert (IH' : store_after recipies steps st h !! l = h !! l).
  { apply IH. intros n e Hn. apply Hl. by right. }
  destruct (recipies !! m) as [f|] eqn:Hf; [|done].
  destruct (waits st !! m) as [v|]; [|done].
  rewrite lookup_insert_ne; [done|]. apply (Hl m f); [by left|done].
Qed.

(** X7 (a copy shares the lists of dependencies): let the recipes of a
    builder hold a [wait_on] list each, none naming a dependency twice.
    The recipes of a copy made by [Builder.copy] read the same dependencies
    as the original's.  Once a [build] of the original has reaped all its
    workers, the recipe of every requested step reads an empty [wait_on] in
    the copy too, a step that was not requested keeps its list, and a
    [build] of the same steps on the copy sets every gate at start-up, so
    that no step waits for another. *)
Theorem copy_shares_wait_on (recipies : gmap string Entry) (h : store)
    (steps : list string) s0 s version md5sum c :
  (∀ a b x y, recipies !! a = Some x → recipies !! b = Some y →
     wait_ref x = wait_ref y → a = b) →
  NoDup steps → init (view h recipies) steps = Ok s0 →
  (∀ n r, n ∈ steps → view h recipies !! n = Some r → NoDup (wait_on r)) →
  reachable s0 s → processes s = [] →
  copy recipies version md5sum = Ok c →
  (∀ n r, view h recipies !! n = Some r →
     ∃ r', view h c !! n = Some r' ∧ wait_on r' = wait_on r)
  ∧ (∀ n, n ∈ steps →
       ∃ r', view (store_after recipies steps s h) c !! n = Some r'
             ∧ wait_on r' = [])
  ∧ (∀ n r, n ∉ steps → view h recipies !! n = Some r →
       ∃ r', view (store_after recipies steps s h) c !! n = Some r'
             ∧ wait_on r' = wait_on r)
  ∧ ∃ s1, init (view (store_after recipies steps s h) c) steps = Ok s1
      ∧ ∀ n, n ∈ steps → events s1 !! n = Some true ∧ waits s1 !! n = Some [].
Proof.
  intros Hinj Hnd Hinit Hdup Hreach Hnil Hcopy.
  destruct (init_spec _ steps s0 Hnd Hinit) as (_ & _ & _ & Hin & _).
  destruct (finished_waits _ steps s0 s Hnd Hinit Hdup Hreach Hnil)
    as [Hdone Hother].
  assert (Hreq : ∀ n, n ∈ steps →
            ∃ r', view (store_after recipies steps s h) c !! n = Some r'
                  ∧ wait_on r' = []).
  { intros n Hn. destruct (Hin n Hn) as (r & Hr & _).
    unfold view in Hr. rewrite lookup_fmap in Hr.
    destruct (recipies !! n) as [e|] eqn:He; [|done].
    destruct (copy_lookup _ _ _ _ n e Hcopy He) as (e' & He' & Href).
    unfold view. rewrite lookup_fmap, He'. simpl. eexists. split; [done|].
    simpl. rewrite Href.
    by rewrite (store_after_lookup recipies steps s h n e [] Hinj Hn He (Hdone n Hn)). }
  split; [|split; [exact Hreq|split]].
  - intros n r Hr. unfold view in Hr. rewrite lookup_fmap in Hr.
    destruct (recipies !! n) as [e|] eqn:He; [|done]. injection Hr as <-.
    destruct (copy_lookup _ _ _ _ n e Hcopy He) as (e' & He' & Href).
    unfold view. rewrite lookup_fmap, He'. simpl. eexists. split; [done|].
    simpl. by rewrite Href.
  - intros n r Hn Hr. unfold view in Hr. rewrite lookup_fmap in Hr.
    destruct (recipies !! n) as [e|] eqn:He; [|done]. injection Hr as <-.
    destruct (copy_lookup _ _ _ _ n e Hcopy He) as (e' & He' & Href).
    unfold view. rewrite lookup_fmap, He'. simpl. eexists. split; [done|].
    simpl. rewrite Href. rewrite store_after_other; [done|].
    intros m f Hm Hf Heq. apply Hn. by rewrite <- (Hinj m n f e Hf He Heq).
  - apply init_no_waits; [done|]. exact Hreq.
Qed.

Lemma abcd_book_refs a x : abcd_book !! a = Some x → wait_ref x = abcd_refs a.
Proof.
  unfold abcd_book. intros H.
  repeat (apply lookup_insert_Some in H as [[<- <-]|[_ H]]; [reflexivity|]).
  apply lookup_singleton_Some in H as [<- <-]. reflexivity.
Qed.

Lemma abcd_book_keys a x :
  abcd_book !! a = Some x → a ∈ ["A"; "B"; "C"; "D"; "python"].
Proof.
  unfold abcd_book. intros H.
  repeat (apply lookup_insert_Some in H as [[<- _]|[_ H]]; [set_solver|]).
  apply lookup_singleton_Some in H as [<- _]. set_solver.
Qed.

Lemma copy_shares_wait_on_witness :
  ∃ c, copy abcd_book "3.11.2" (Some "f6b5") = Ok c
    ∧ (∃ r, view abcd_store c !! "D" = Some r ∧ wait_on r = ["C"])
    ∧ (∃ r, view (store_after abcd_book abcd_steps abcd_final abcd_store) c !! "D"
            = Some r ∧ wait_on r = [])
    ∧ ∃ s1, init (view (store_after abcd_book abcd_steps abcd_final abcd_store) c)
              abcd_steps = Ok s1
        ∧ events s1 !! "D" = Some true.
Proof.
  assert (HD : "D" ∈ abcd_steps) by (unfold abcd_steps; set_solver).
  assert (Hinit : init (view abcd_store abcd_book) abcd_steps = Ok abcd_init)
    by (vm_compute; reflexivity).
  assert (Hview : view abcd_store abcd_book !! "D" = Some (mkRecipe ["C"] None))
    by (vm_compute; reflexivity).
  destruct (copy abcd_book "3.11.2" (Some "f6b5")) as [c|] eqn:Hc;
    [|vm_compute in Hc; discriminate].
  destruct (copy_shares_wait_on abcd_book abcd_store abcd_steps abcd_init abcd_final
              "3.11.2" (Some "f6b5") c) as (Hsame & Hreq & _ & s1 & Hs1 & Hgates).
  - intros a b x y Ha Hb Heq.
    apply abcd_book_refs in Ha as Hra. apply abcd_book_refs in Hb as Hrb.
    rewrite Hra, Hrb in Heq.
    apply abcd_book_keys in Ha. apply abcd_book_keys in Hb.
    repeat (apply elem_of_cons in Ha as [->|Ha]);
      try (by apply elem_of_nil in Ha);
      repeat (apply elem_of_cons in Hb as [->|Hb]);
      try (by apply elem_of_nil in Hb); first [reflexivity|discriminate].
  - exact abcd_steps_NoDup.
  - exact Hinit.
  - intros n r Hn Hr. unfold abcd_steps in Hn.
    repeat (apply elem_of_cons in Hn as [->|Hn];
            [vm_compute in Hr; injection Hr as <-; simpl;
             repeat constructor; set_solver|]).
    by apply elem_of_nil in Hn.
  - exact (run_reachable b_fails abcd_init abcd_final run_b_fails).
  - reflexivity.
  - exact Hc.
  - exists c. split; [reflexivity|]. split; [exact (Hsame "D" _ Hview)|].
    split; [exact (Hreq "D" HD)|].
    exists s1. split; [exact Hs1|]. exact (proj1 (Hgates "D" HD)).
Defined.

End Copies.

(** ** The scheduler with the [wait_on] lists by reference

    [Builder.add] stores the list it is handed, without copying it, and in
    [Builder.build] [waits[name]] is that list object.  Two recipes that
    were registered with one list therefore share every [remove] the
    scheduler performs.  Here the lists live in a store and [waits] holds
    references; the scheduler of the module [Scheduler] is the special case
    in which every requested step has a list of its own ([by_value]). *)
Module Aliasing.
Import Py Registry Copies.

(** The local dictionaries of [Builder.build], the list objects they refer
    to, and the worker processes. *)
Record state := mkState {
  fails : list string;
  events : gmap string bool;
  waits : gmap string nat;
  lists : store;
  order : list string;
  processes : list string;
  workers : gmap string Scheduler.worker;
}.

Definition empty_state (h : store) : state := mkState [] ∅ ∅ h [] [] ∅.

(** The list [waits[name]] refers to. *)
Definition wait_list (st : state) (name : string) : list string :=
  match waits st !! name with
  | Some l => default [] (lists st !! l)
  | None => []
  end.

(** One iteration of the start-up loop: the recipe's list is pruned in
    place and [waits[name]] is made to refer to it. *)
Definition start (steps : list string) (st : state) (name : string) (e : Entry)
  : state :=
  let wait_on := Scheduler.prune steps (default [] (lists st !! wait_ref e)) in
  mkState (fails st)
    (<[name := bool_decide (wait_on = [])]> (events st))
    (<[name := wait_ref e]> (waits st))
    (<[wait_ref e := wait_on]> (lists st))
    (dict_add name (order st))
    (dict_add name (processes st))
    (<[name := Scheduler.Blocked]> (workers st)).

Fixpoint start_all (recipies : gmap string Entry) (steps todo : list string)
    (st : state) : result state :=
  match todo with
  | [] => Ok st
  | name :: rest =>
      match recipies !! name with
      | None => Raise (KeyError name)
      | Some e => start_all recipies steps rest (start steps st name e)
      end
  end.

Definition init (h : store) (recipies : gmap string Entry) (steps : list string)
  : result state :=
  start_all recipies steps steps (empty_state h).

(** The body of [for name in waits:] after worker [p] was found terminated:
    [waits[name].remove(proc.name)] acts on the list object. *)
Definition visit (p : string) (is_failure : bool) (st : state) (name : string)
  : state :=
  let w := wait_list st name in
  let st1 :=
    match waits st !! name with
    | Some l =>
        if bool_decide (p ∈ w) then
          mkState (fails st) (events st) (waits st)
            (<[l := Scheduler.remove_first p w]> (lists st))
            (order st) (processes st)
            (if is_failure && bool_decide (name ∈ processes st)
             then alter Scheduler.terminate name (workers st) else workers st)
        else st
    | None => st
    end in
  if bool_decide (wait_list st1 name = [])
     && negb (default false (events st1 !! name))
  then mkState (fails st1) (<[name := true]> (events st1)) (waits st1)
         (lists st1) (order st1) (processes st1) (workers st1)
  else st1.

(** The state after [processes.pop] and the update of the failure record. *)
Definition popped (p : string) (c : Z) (st : state) : state :=
  mkState (if bool_decide (c ≠ 0%Z) then fails st ++ [p] else fails st)
    (events st) (waits st) (lists st) (order st) (dict_pop p (processes st))
    (workers st).

Definition reap (p : string) (c : Z) (st : state) : state :=
  foldl (visit p (bool_decide (c ≠ 0%Z))) (popped p c st) (order st).

Definition set_worker (n : string) (w : Scheduler.worker) (st : state) : state :=
  mkState (fails st) (events st) (waits st) (lists st) (order st) (processes st)
    (<[n := w]> (workers st)).

(** One iteration of [for proc in list(processes.values())]. *)
Definition poll (st : state) (p : string) : state :=
  match workers st !! p with
  | Some w =>
      match Scheduler.exit_status w with
      | Some c => reap p c st
      | None => st
      end
  | None => st
  end.

Definition sweep (st : state) : state := foldl poll st (processes st).

(** The moves of the orchestrator and its workers, as in [Scheduler.step]. *)
Inductive step : state → state → Prop :=
| step_pass n st :
    workers st !! n = Some Scheduler.Blocked → events st !! n = Some true →
    step st (set_worker n Scheduler.Building st)
| step_finish n c st :
    workers st !! n = Some Scheduler.Building →
    step st (set_worker n (Scheduler.Done c) st)
| step_reap n w c st :
    n ∈ processes st → workers st !! n = Some w →
    Scheduler.exit_status w = Some c →
    step st (reap n c st).

Inductive reachable (s0 : state) : state → Prop :=
| reach_init : reachable s0 s0
| reach_step s s' : reachable s0 s → step s s' → reachable s0 s'.

(** An executable form of the moves. *)
Definition exec (a : Scheduler.action) (st : state) : option state :=
  match a with
  | Scheduler.PassGate n =>
      match workers st !! n, events st !! n with
      | Some Scheduler.Blocked, Some true =>
          Some (set_worker n Scheduler.Building st)
      | _, _ => None
      end
  | Scheduler.Finish n c =>
      match workers st !! n with
      | Some Scheduler.Building => Some (set_worker n (Scheduler.Done c) st)
      | _ => None
      end
  | Scheduler.Reap n =>
      if bool_decide (n ∈ processes st) then
        match workers st !! n with
        | Some w =>
            match Scheduler.exit_status w with
            | Some c => Some (reap n c st)
            | None => None
            end
        | None => None
        end
      else None
  | Scheduler.Sweep =>
      if bool_decide (NoDup (processes st)) then Some (sweep st) else None
  end.

Fixpoint run (acts : list Scheduler.action) (st : state) : option state :=
  match acts with
  | [] => Some st
  | a :: rest =>
      match exec a st with
      | Some st' => run rest st'
      | None => None
      end
  end.

(** The state with each list read through its reference. *)
Definition by_value (st : state) : Scheduler.state :=
  Scheduler.mkState (fails st) (events st)
    ((λ l, default [] (lists st !! l)) <$> waits st)
    (order st) (processes st) (workers st).

(** Every step has a list of its own. *)
Definition own (st : state) : Prop :=
  ∀ a b l, waits st !! a = Some l → waits st !! b = Some l → a = b.

(** The requested steps were registered with a list each. *)
Definition own_lists (recipies : gmap string Entry) (steps : list string) : Prop :=
  ∀ a b x y, a ∈ steps → b ∈ steps →
    recipies !! a = Some x → recipies !! b = Some y →
    wait_ref x = wait_ref y → a = b.









(** The build of [abcd_book]: at start-up, when [C] is building after [A]
    and [B] succeeded ([Ordering.c_building]), and at the end of the run in
    which [B] fails ([Scheduler.b_fails]). *)
Definition abcd_refs_init : state :=
  mkState []
    {[ "A" := true; "B" := true; "C" := false; "D" := false ]}
    {[ "A" := 0; "B" := 1; "C" := 2; "D" := 3 ]}
    {[ 0 := []; 1 := []; 2 := ["A"; "B"]; 3 := ["C"]; 4 := ["D"] ]}
    Scheduler.abcd_steps Scheduler.abcd_steps
    {[ "A" := Scheduler.Blocked; "B" := Scheduler.Blocked;
       "C" := Scheduler.Blocked; "D" := Scheduler.Blocked ]}.

Definition abcd_refs_building : state :=
  mkState []
    {[ "A" := true; "B" := true; "C" := true; "D" := false ]}
    {[ "A" := 0; "B" := 1; "C" := 2; "D" := 3 ]}
    {[ 0 := []; 1 := []; 2 := []; 3 := ["C"]; 4 := ["D"] ]}
    Scheduler.abcd_steps ["C"; "D"]
    {[ "A" := Scheduler.Done 0; "B" := Scheduler.Done 0;
       "C" := Scheduler.Building; "D" := Scheduler.Blocked ]}.


(** *** The by-value scheduler is the case of lists that are not shared *)

Lemma wait_list_by_value st name :
  default [] (Scheduler.waits (by_value st) !! name) = wait_list st name.
Proof.
  unfold wait_list. simpl. rewrite lookup_fmap. by destruct (waits st !! name).
Qed.

Lemma lists_insert_own (wts : gmap string nat) (h : store) name l w :
  wts !! name = Some l →
  (∀ m, wts !! m = Some l → m = name) →
  (λ l', default [] (<[l := w]> h !! l')) <$> wts
  = <[name := w]> ((λ l', default [] (h !! l')) <$> wts).
Proof.
  intros Hname Hown. apply map_eq. intros k. rewrite lookup_fmap.
  destruct (decide (k = name)) as [->|Hne].
  - rewrite lookup_insert_eq, Hname. simpl. by rewrite lookup_insert_eq.
  - rewrite lookup_insert_ne, lookup_fmap by done.
    destruct (wts !! k) as [l'|] eqn:Hk; [|done]. simpl.
    rewrite lookup_insert_ne; [done|]. intros <-. by apply Hne, Hown.
Qed.

Lemma visit_refs p f st name : waits (visit p f st name) = waits st.
Proof.
  unfold visit. destruct (waits st !! name) as [l|]; cbv zeta.
  - destruct (bool_decide (p ∈ wait_list st name));
      by destruct (_ && _).
  - by destruct (_ && _).
Qed.

Lemma set_gate_by_value st name :
  by_value
    (if bool_decide (wait_list st name = [])
        && negb (default false (events st !! name))
     then mkState (fails st) (<[name := true]> (events st)) (waits st)
            (lists st) (order st) (processes st) (workers st)
     else st)
  = (if bool_decide (default [] (Scheduler.waits (by_value st) !! name) = [])
        && negb (default false (Scheduler.events (by_value st) !! name))
     then Scheduler.mkState (Scheduler.fails (by_value st))
            (<[name := true]> (Scheduler.events (by_value st)))
            (Scheduler.waits (by_value st)) (Scheduler.order (by_value st))
            (Scheduler.processes (by_value st)) (Scheduler.workers (by_value st))
     else by_value st).
Proof.
  rewrite wait_list_by_value. change (Scheduler.events (by_value st)) with (events st).
  by destruct (_ && _).
Qed.

Lemma visit_by_value p f st name :
  own st → by_value (visit p f st name) = Scheduler.visit p f (by_value st) name.
Proof.
  intros Hown. unfold Scheduler.visit. rewrite wait_list_by_value.
  unfold visit. cbv zeta. rewrite set_gate_by_value.
  destruct (waits st !! name) as [l|] eqn:Hl.
  - destruct (bool_decide (p ∈ wait_list st name)) eqn:Hp; [|done].
    set (st1 := mkState _ _ _ _ _ _ _).
    assert (H1 : by_value st1
                 = Scheduler.mkState (Scheduler.fails (by_value st))
                     (Scheduler.events (by_value st))
                     (<[name := Scheduler.remove_first p (wait_list st name)]>
                        (Scheduler.waits (by_value st)))
                     (Scheduler.order (by_value st))
                     (Scheduler.processes (by_value st))
                     (if f && bool_decide (name ∈ Scheduler.processes (by_value st))
                      then alter Scheduler.terminate name
                             (Scheduler.workers (by_value st))
                      else Scheduler.workers (by_value st))).
    { unfold by_value, st1. simpl. f_equal.
      apply lists_insert_own; [done|]. intros m Hm. by apply (Hown m name l). }
    by rewrite H1.
  - assert (Hw : wait_list st name = []).
    { unfold wait_list. by rewrite Hl. }
    rewrite Hw. by rewrite (bool_decide_eq_false_2 (p ∈ [])) by apply not_elem_of_nil.
Qed.

Lemma foldl_visit_by_value p f (names : list string) : ∀ st,
  own st →
  by_value (foldl (visit p f) st names)
  = foldl (Scheduler.visit p f) (by_value st) names
  ∧ own (foldl (visit p f) st names).
Proof.
  induction names as [|n names IH]; intros st Hown; simpl; [done|].
  rewrite <- visit_by_value by done. apply IH.
  unfold own. by rewrite visit_refs.
Qed.

Lemma reap_by_value p c st :
  own st →
  by_value (reap p c st) = Scheduler.reap p c (by_value st) ∧ own (reap p c st).
Proof.
  intros Hown. unfold reap, Scheduler.reap.
  by apply (foldl_visit_by_value p _ (order st) (popped p c st)).
Qed.

Lemma step_by_value s s' :
  own s → step s s' → Scheduler.step (by_value s) (by_value s') ∧ own s'.
Proof.
  intros Hown Hstep. revert Hown.
  destruct Hstep as [n st Hw He|n c st Hw|n w c st Hn Hw Hc]; intros Hown.
  - split; [|done]. by apply (Scheduler.step_pass n (by_value st)).
  - split; [|done]. by apply (Scheduler.step_finish n c (by_value st)).
  - destruct (reap_by_value n c st Hown) as [-> Hown']. split; [|done].
    by apply (Scheduler.step_reap n w c (by_value st)).
Qed.

Lemma reachable_by_value s0 s :
  own s0 → reachable s0 s →
  Scheduler.reachable (by_value s0) (by_value s) ∧ own s.
Proof.
  intros Hown. induction 1 as [|s s' _ [IH Hs] Hstep].
  - split; [apply Scheduler.reach_init|done].
  - destruct (step_by_value s s' Hs Hstep) as [Hstep' Hs'].
    split; [|done]. by apply (Scheduler.reach_step _ (by_value s)).
Qed.

Lemma start_all_by_value (h : store) recipies (steps : list string)
    (todo : list string) : ∀ st s',
  own_lists recipies steps → NoDup todo → (∀ n, n ∈ todo → n ∈ steps) →
  own st →
  (∀ m l, waits st !! m = Some l →
     m ∈ steps ∧ (m ∉ todo) ∧ ∃ e, recipies !! m = Some e ∧ wait_ref e = l) →
  (∀ n e, n ∈ todo → recipies !! n = Some e →
     lists st !! wait_ref e = h !! wait_ref e) →
  start_all recipies steps todo st = Ok s' →
  Scheduler.start_all (view h recipies) steps todo (by_value st) = Ok (by_value s')
  ∧ own s'.
Proof.
  induction todo as [|name rest IH]; intros st s' Hinj Hnd Hsub Hown Hreg Hfresh;
    simpl.
  - by intros [= <-].
  - destruct (recipies !! name) as [e|] eqn:He; [|discriminate].
    unfold view. rewrite lookup_fmap, He. simpl. fold (view h recipies).
    apply NoDup_cons in Hnd as [Hname Hnd].
    assert (Hnone : ∀ m, waits st !! m = Some (wait_ref e) → False).
    { intros m Hm. destruct (Hreg m _ Hm) as (Hms & Hmt & e' & He' & Href).
      apply Hmt. rewrite (Hinj m name e' e); [by left|done| |done..].
      apply Hsub. by left. }
    assert (Hstart :
      by_value (start steps st name e)
      = Scheduler.start steps (by_value st) name
          (mkRecipe (default [] (h !! wait_ref e)) (entry_download e))).
    { unfold by_value, start, Scheduler.start. simpl.
      rewrite (Hfresh name e (list_elem_of_here _ _) He).
      f_equal. apply map_eq. intros k. rewrite lookup_fmap.
      destruct (decide (k = name)) as [->|Hne].
      - rewrite !lookup_insert_eq. simpl. by rewrite lookup_insert_eq.
      - rewrite !lookup_insert_ne, lookup_fmap by done.
        destruct (waits st !! k) as [l'|] eqn:Hk; [|done]. simpl.
        rewrite lookup_insert_ne; [done|]. intros <-. by apply (Hnone k). }
    rewrite <- Hstart. apply IH; try done.
    + intros n Hn. apply Hsub. by right.
    + intros a b l. unfold start. simpl. intros Ha Hb.
      destruct (decide (a = name)) as [->|Hane];
        destruct (decide (b = name)) as [->|Hbne]; [done| | |].
      * rewrite lookup_insert_eq in Ha. injection Ha as <-.
        rewrite lookup_insert_ne in Hb by done. destruct (Hnone b Hb).
      * rewrite lookup_insert_eq in Hb. injection Hb as <-.
        rewrite lookup_insert_ne in Ha by done. destruct (Hnone a Ha).
      * rewrite lookup_insert_ne in Ha, Hb by done. by apply (Hown a b l).
    + intros m l. unfold start. simpl. intros Hm.
      destruct (decide (m = name)) as [->|Hne].
      * rewrite lookup_insert_eq in Hm. injection Hm as <-.
        split; [apply Hsub; by left|]. split; [done|]. eauto.
      * rewrite lookup_insert_ne in Hm by done.
        destruct (Hreg m l Hm) as (Hms & Hmt & Hex). split; [done|].
        split; [|done]. intros Hin. apply Hmt. by right.
    + intros n e' Hn He'. unfold start. simpl.
      rewrite lookup_insert_ne; [apply (Hfresh n e'); [by right|done]|].
      intros Heq. apply Hname.
      rewrite (Hinj name n e e'); [done|apply Hsub; by left|apply Hsub; by right|done..].
Qed.

Lemma init_by_value (h : store) recipies (steps : list string) s0 :
  NoDup steps → own_lists recipies steps →
  init h recipies steps = Ok s0 →
  Scheduler.init (view h recipies) steps = Ok (by_value s0) ∧ own s0.
Proof.
  intros Hnd Hinj Hinit.
  by apply (start_all_by_value h recipies steps steps (empty_state h) s0).
Qed.

Lemma visit_handles p f st name :
  processes (visit p f st name) = processes st.
Proof.
  unfold visit. destruct (waits st !! name) as [l|]; cbv zeta.
  - destruct (bool_decide (p ∈ wait_list st name));
      by destruct (_ && _).
  - by destruct (_ && _).
Qed.

Lemma reap_handles p c st : processes (reap p c st) = dict_pop p (processes st).
Proof.
  unfold reap.
  assert (H : ∀ names s, processes (foldl (visit p (bool_decide (c ≠ 0%Z))) s names)
                         = processes s).
  { induction names as [|n names IH]; intros s; simpl; [done|].
    by rewrite IH, visit_handles. }
  by rewrite H.
Qed.

Lemma reachable_after s0 s1 s : reachable s0 s1 → reachable s1 s → reachable s0 s.
Proof. intros H01. induction 1; [done|]. eapply reach_step; eauto. Qed.

(** A pass over the handles is a sequence of moves. *)
Lemma sweep_reachable (l : list string) : NoDup l → ∀ st,
  (∀ q, q ∈ l → q ∈ processes st) → reachable st (foldl poll st l).
Proof.
  induction 1 as [|p l Hp Hnd IH]; intros st Hin; simpl; [apply reach_init|].
  assert (Hrest : ∀ q, q ∈ l → q ∈ processes st) by (intros; apply Hin; by right).
  unfold poll at 2. destruct (workers st !! p) as [w|] eqn:Hw; [|by apply IH].
  destruct (Scheduler.exit_status w) as [c|] eqn:Hc; [|by apply IH].
  apply (reachable_after st (reap p c st)).
  - eapply reach_step; [apply reach_init|].
    apply (step_reap p w c); [apply Hin; by left|done..].
  - apply IH. intros q Hq. rewrite reap_handles, elem_of_dict_pop.
    split; [by apply Hrest|]. by intros ->.
Qed.

Lemma exec_reachable a s s' : exec a s = Some s' → reachable s s'.
Proof.
  assert (Hone : ∀ t t', step t t' → reachable t t').
  { intros t t' Ht. eapply reach_step; [apply reach_init|done]. }
  destruct a as [n|n c|n|]; simpl.
  - destruct (workers s !! n) as [[| | |]|] eqn:Hw; try discriminate.
    destruct (events s !! n) as [[|]|] eqn:He; try discriminate.
    intros [= <-]. apply Hone. by apply step_pass.
  - destruct (workers s !! n) as [[| | |]|] eqn:Hw; try discriminate.
    intros [= <-]. apply Hone. by apply step_finish.
  - case_bool_decide as Hn; [|discriminate].
    destruct (workers s !! n) as [w|] eqn:Hw; [|discriminate].
    destruct (Scheduler.exit_status w) as [c|] eqn:Hc; [|discriminate].
    intros [= <-]. apply Hone. by apply (step_reap n w c).
  - case_bool_decide as Hnd; [|discriminate].
    intros [= <-]. by apply sweep_reachable.
Qed.

Lemma runs_reachable acts : ∀ s0 s, run acts s0 = Some s → reachable s0 s.
Proof.
  induction acts as [|a acts IH]; intros s0 s; simpl.
  - intros [= <-]. apply reach_init.
  - destruct (exec a s0) as [s1|] eqn:He; [|discriminate].
    intros Hrun.
    apply (reachable_after s0 s1); [by apply (exec_reachable a)|by apply IH].
Qed.

Lemma abcd_book_own : own_lists abcd_book Scheduler.abcd_steps.
Proof.
  intros a b x y _ _ Ha Hb Heq.
  apply abcd_book_refs in Ha as Hra. apply abcd_book_refs in Hb as Hrb.
  rewrite Hra, Hrb in Heq.
  apply abcd_book_keys in Ha. apply abcd_book_keys in Hb.
  repeat (apply elem_of_cons in Ha as [->|Ha]);
    try (by apply elem_of_nil in Ha);
    repeat (apply elem_of_cons in Hb as [->|Hb]);
    try (by apply elem_of_nil in Hb); first [reflexivity|discriminate].
Qed.

(** *** Concrete runs *)




Example init_abcd_refs :
  init abcd_store abcd_book Scheduler.abcd_steps = Ok abcd_refs_init.
Proof. vm_compute. reflexivity. Qed.

Example run_abcd_refs_building :
  run Ordering.c_building abcd_refs_init = Some abcd_refs_building.
Proof. vm_compute. reflexivity. Qed.


(** *** Failure cascade *)




(** *** Dependencies first *)

(** X1 (dependency order): when the requested steps are distinct and were
    registered with a [wait_on] list each, a build action is invoked only
    after every dependency of its step inside the requested set has ended
    with status 0 and has been reaped by the orchestrator, without an entry
    in the failure record. *)
Theorem dependencies_first_own_lists (recipies : gmap string Entry) (h : store)
    (steps : list string) s0 s n e wk :
  NoDup steps → own_lists recipies steps →
  init h recipies steps = Ok s0 → reachable s0 s →
  n ∈ steps → recipies !! n = Some e →
  workers s !! n = Some wk → Scheduler.invoked wk = true →
  ∀ d, d ∈ default [] (h !! wait_ref e) → d ∈ steps →
    workers s !! d = Some (Scheduler.Done 0) ∧ (d ∉ processes s) ∧ (d ∉ fails s).
Proof.
  intros Hnd Hinj Hinit Hreach Hn He Hwk Hinv d Hd Hds.
  destruct (init_by_value h recipies steps s0 Hnd Hinj Hinit) as [Hinit' Hown0].
  destruct (reachable_by_value s0 s Hown0 Hreach) as [Hreach' _].
  apply (Ordering.dependencies_first (view h recipies) steps (by_value s0)
           (by_value s) n
           (mkRecipe (default [] (h !! wait_ref e)) (entry_download e)) wk);
    try done.
  unfold view. by rewrite lookup_fmap, He.
Qed.

Lemma dependencies_first_own_lists_witness :
  workers abcd_refs_building !! "A" = Some (Scheduler.Done 0)
  ∧ ("A" ∉ processes abcd_refs_building) ∧ ("A" ∉ fails abcd_refs_building).
Proof.
  assert (HC : workers abcd_refs_building !! "C" = Some Scheduler.Building)
    by (vm_compute; reflexivity).
  assert (He : abcd_book !! "C" = Some (mkEntry 2 None))
    by (vm_compute; reflexivity).
  assert (HinC : "C" ∈ Scheduler.abcd_steps) by (right; right; left).
  assert (HinA : "A" ∈ Scheduler.abcd_steps) by left.
  assert (Hdep : "A" ∈ default [] (abcd_store !! wait_ref (mkEntry 2 None)))
    by (vm_compute; left).
  exact (dependencies_first_own_lists abcd_book abcd_store Scheduler.abcd_steps
           abcd_refs_init abcd_refs_building "C" (mkEntry 2 None) Scheduler.Building
           Scheduler.abcd_steps_NoDup abcd_book_own init_abcd_refs
           (runs_reachable Ordering.c_building _ _ run_abcd_refs_building)
           HinC He HC eq_refl "A" Hdep HinA).
Defined.

End Aliasing.

(** ** Artifact descriptor: what [Download.__call__] guarantees, and
    [Download.check_version] *)
Module Integrity.
Import Py Download.

(** [s.rsplit("/", 1)[0]]: the text before the last slash, the whole string
    when it has no slash. *)
Fixpoint before_last_slash (s : string) : string :=
  match s with
  | EmptyString => EmptyString
  | String c r =>
      match after_last_slash r with
      | Some _ => String c (before_last_slash r)
      | None => if Ascii.eqb c "/" then EmptyString else String c (before_last_slash r)
      end
  end.

(** The page [Download.check_version] asks for: [checkurl] when it is set
    (and not empty), the URL without its last segment otherwise. *)
Definition check_location (d : Download) (checkurl : option string) : string :=
  match checkurl with
  | Some u => if truthy u then u else before_last_slash (url d)
  | None => before_last_slash (url d)
  end.

Section CheckVersion.
Context {V : Type} (parse : string → option V) (vlt : V → V → bool)
        (vstr : V → string).

(** Modelled from the spec: [relenv.common.fetch_url] is not under src/.
    Together with [parse_links] it gives the hyperlinks of the page at a
    location, or fails. *)
Variable page_links : string → result (list string).

(** [Download.check_version] *)
Definition check_version (d : Download) (checkfunc : string → option string)
    (checkurl : option string) : result (list Versions.message) :=
  match page_links (check_location d checkurl) with
  | Ok links => Versions.check_files parse vlt vstr links checkfunc (version d)
  | Raise e => Raise e
  end.

End CheckVersion.

(** A world that serves the python tarball, and a descriptor that asks for a
    signature as well. *)
Definition serving : World :=
  mkWorld ∅ {[ url python_dl := "d41d8cd98f" ]} [].

Definition signed_dl : Download :=
  mkDownload "python" "https://www.python.org/ftp/python/{version}/Python-{version}.tar.xz"
    None (Some "https://www.python.org/ftp/python/{version}/Python-{version}.tar.xz.asc")
    "download" "3.10.9" (Some "d41d8").

(** *** What a [True] result means *)

Lemma validate_md5sum_true md5 p sum w w' :
  validate_md5sum md5 p (Some sum) w = (Ok true, w') →
  w' = w ∧ ∃ body, fs w !! p = Some body ∧ md5 body = sum.
Proof.
  unfold validate_md5sum, verify_checksum.
  destruct (fs w !! p) as [body|]; [|discriminate].
  destruct (String.eqb sum (md5 body)) eqn:He; [|discriminate].
  intros [= <-]. split; [done|]. exists body. split; [done|].
  symmetry. by apply String.eqb_eq.
Qed.

(** The fetch branch of [obtain] never yields [False]. *)
Lemma fetched_flag d w b w' :
  (p <~ (v <~ fetch_file d ;; unpack_pair v) ;; ret (snd p)) w = (Ok b, w') →
  b = true.
Proof.
  unfold bind, unpack_pair, ret, raise.
  destruct (fetch_file d w) as [[[[p b']|]|e] w1] eqn:Hf; try discriminate.
  simpl. intros [= <- <-]. by destruct (fetch_file_pair d w p b' w1 Hf).
Qed.

(** X8 (a [True] result is sound): when a checksum is configured and
    [Download.__call__] returns [True], the file at the artifact's path
    exists in the resulting world and its md5 digest is the configured
    checksum, whether the file was fetched by this call or found in the
    cache. *)
Theorem call_true_sound md5 d force w w' sum fp :
  md5sum d = Some sum → filepath d = Ok fp →
  call md5 d force w = (Ok true, w') →
  ∃ body, fs w' !! fp = Some body ∧ md5 body = sum.
Proof.
  intros Hsum Hfp. pose proof (filepath_location d fp Hfp) as Hloc.
  unfold call. rewrite Hfp. unfold bind at 1.
  destruct (obtain md5 d force w) as [[downloaded|e] w1] eqn:Hob; [|discriminate].
  destruct downloaded.
  - unfold validate. rewrite Hsum. unfold bind at 1.
    destruct (signature_tpl d); [discriminate|]. unfold ret at 1.
    unfold bind, ret.
    destruct (validate_md5sum md5 fp (Some sum) w1) as [[v|e] w2] eqn:Hv;
      [|discriminate].
    simpl. intros [= -> <-].
    by destruct (validate_md5sum_true md5 fp sum w1 w2 Hv) as (-> & ?).
  - unfold validate, ret. intros [= <-].
    unfold obtain in Hob. destruct force.
    { by apply fetched_flag in Hob. }
    rewrite Hloc in Hob. unfold bind at 1 in Hob. unfold exists_file in Hob.
    unfold bind at 1 in Hob.
    destruct (md5sum_truthy d && bool_decide (is_Some (fs w !! fp))) eqn:Hc.
    + destruct (validate_md5sum md5 fp (md5sum d) w) as [[v|e] w2] eqn:Hv;
        [|discriminate].
      destruct v.
      * unfold ret in Hob. injection Hob as <-. rewrite Hsum in Hv.
        by destruct (validate_md5sum_true md5 fp sum w w2 Hv) as (-> & ?).
      * by apply fetched_flag in Hob.
    + unfold ret at 1 in Hob. by apply fetched_flag in Hob.
Qed.

Lemma call_true_sound_witness :
  ∃ body, fs cached_world !! "download/Python-3.10.9.tar.xz" = Some body
          ∧ head5 body = "d41d8".
Proof.
  apply (call_true_sound head5 python_dl false cached_world cached_world
           "d41d8" "download/Python-3.10.9.tar.xz"); reflexivity.
Defined.

(** *** A configured signature *)

(** X9 (signatures cannot be checked): [__call__] calls [fetch_signature]
    without the argument its definition requires.  So when a signature is
    configured and the primary URL is served, every call that fetches the
    artifact (a forced one, or one that finds no file at the artifact's
    path) ends in [TypeError] after the artifact was stored, before any
    signature or checksum is looked at, and the worker process that runs
    it exits with status 1. *)
Theorem call_signature_raises md5 d force w sig fp body :
  signature_tpl d = Some sig → filepath d = Ok fp →
  net w !! url d = Some body →
  (force = true ∨ fs w !! fp = None) →
  ∃ msg, call md5 d force w
         = (Raise (TypeError msg), write_file fp body (log_request (url d) w))
    ∧ exitcode (fst (call md5 d force w)) = 1%Z.
Proof.
  intros Hsig Hfp Hnet Hforce.
  pose proof (filepath_location d fp Hfp) as Hloc.
  assert (Hfetch : (p <~ (v <~ fetch_file d ;; unpack_pair v) ;; ret (snd p)) w
                   = (Ok true, write_file fp body (log_request (url d) w))).
  { unfold bind. rewrite (fetch_file_primary d w body Hnet).
    rewrite Hloc. reflexivity. }
  assert (Hob : obtain md5 d force w
                = (Ok true, write_file fp body (log_request (url d) w))).
  { unfold obtain. destruct force; [exact Hfetch|].
    destruct Hforce as [?|Hnone]; [discriminate|].
    rewrite Hloc. unfold bind at 1. unfold exists_file.
    rewrite Hnone. rewrite bool_decide_eq_false_2 by (intros [? ?]; discriminate).
    rewrite andb_false_r. unfold bind at 1. unfold ret at 1. exact Hfetch. }
  assert (Hcall : ∃ msg, call md5 d force w
            = (Raise (TypeError msg), write_file fp body (log_request (url d) w))).
  { eexists. unfold call. rewrite Hfp. unfold bind at 1. rewrite Hob.
    unfold validate. rewrite Hsig. unfold bind, raise. reflexivity. }
  destruct Hcall as [msg Hcall]. exists msg. rewrite Hcall. split; reflexivity.
Qed.

Lemma call_signature_raises_witness :
  exitcode (fst (call head5 signed_dl false serving)) = 1%Z
  ∧ fs (snd (call head5 signed_dl false serving)) !! "download/Python-3.10.9.tar.xz"
    = Some "d41d8cd98f".
Proof.
  destruct (call_signature_raises head5 signed_dl false serving
              "https://www.python.org/ftp/python/{version}/Python-{version}.tar.xz.asc"
              "download/Python-3.10.9.tar.xz" "d41d8cd98f"
              eq_refl eq_refl ltac:(vm_compute; reflexivity) (or_intror eq_refl))
    as (msg & Hcall & Hexit).
  split; [exact Hexit|]. rewrite Hcall. simpl. apply lookup_insert_eq.
Defined.

(** *** The page of [check_version] *)

Lemma before_after_last_slash (s : string) n :
  after_last_slash s = Some n → before_last_slash s +:+ "/" +:+ n = s.
Proof.
  revert n. induction s as [|c r IH]; intros n; simpl; [discriminate|].
  destruct (after_last_slash r) as [t|] eqn:Hr.
  - intros [= <-]. exact (f_equal (String c) (IH t eq_refl)).
  - destruct (Ascii.eqb c "/") eqn:Hc; [|discriminate].
    intros [= <-]. apply Ascii.eqb_eq in Hc as ->. reflexivity.
Qed.

Lemma before_last_slash_no_slash (s : string) :
  after_last_slash s = None → before_last_slash s = s.
Proof.
  induction s as [|c r IH]; simpl; [done|].
  destruct (after_last_slash r) as [t|] eqn:Hr; [discriminate|].
  destruct (Ascii.eqb c "/"); [discriminate|]. intros _. by rewrite IH.
Qed.

(** X10 (the page of the version check): without a [checkurl], the page
    [check_version] reads is the directory the artifact is downloaded from,
    that is, the page's location, a slash and the artifact's file name make
    up the artifact's URL; and when the descriptor's version parses
    strictly and the page can be read, the check does not raise and prints
    a message exactly for the discovered versions that parse and are
    greater than the descriptor's. *)
Theorem check_version_page {V : Type} (parse : string → option V)
    (vlt : V → V → bool) (vstr : V → string) page_links d checkfunc fp cur links :
  filepath d = Ok fp → parse (version d) = Some cur →
  page_links (check_location d None) = Ok links →
  path_join (check_location d None) (basename (url d)) = url d
  ∧ path_join (destination d) (basename (url d)) = fp
  ∧ ∃ out, check_version parse vlt vstr page_links d checkfunc None = Ok out
      ∧ ∀ m, m ∈ out ↔
          ∃ v p, v ∈ Versions.extracted checkfunc links ∧ parse v = Some p
                 ∧ vlt cur p = true ∧ m = Versions.Found (vstr p) (vstr cur).
Proof.
  intros Hfp Hcur Hpage. unfold filepath in Hfp.
  destruct (after_last_slash (url d)) as [n|] eqn:Hn; [|discriminate].
  injection Hfp as <-. unfold basename, path_join. rewrite Hn. simpl.
  split; [by apply before_after_last_slash|]. split; [done|].
  unfold check_version. rewrite Hpage.
  by apply Versions.check_files_strict.
Qed.

Lemma check_version_page_witness :
  check_location python_dl None = "https://www.python.org/ftp/python/3.10.9"
  ∧ ∃ out, check_version Versions.parse_release Versions.release_lt
             Versions.release_str
             (λ _, Ok ["Python-3.10.9.tar.gz"; "Python-3.10.10.tar.gz"])
             python_dl Versions.tarball_version None = Ok out
      ∧ Versions.Found "3.10.10" "3.10.9" ∈ out.
Proof.
  split; [reflexivity|].
  destruct (check_version_page Versions.parse_release Versions.release_lt
              Versions.release_str
              (λ _, Ok ["Python-3.10.9.tar.gz"; "Python-3.10.10.tar.gz"])
              python_dl Versions.tarball_version "download/Python-3.10.9.tar.xz"
              ([3; 10; 9]%N, "3.10.9")
              ["Python-3.10.9.tar.gz"; "Python-3.10.10.tar.gz"]
              eq_refl eq_refl eq_refl) as (_ & _ & out & Hout & Hiff).
  exists out. split; [exact Hout|]. apply Hiff.
  exists "3.10.10", ([3; 10; 10]%N, "3.10.10").
  split; [vm_compute; set_solver|]. repeat split; reflexivity.
Defined.

End Integrity.

(** ** Packager: the archive [finalize] creates, [all_dirs] and
    [find_sysconfigdata] *)
Module Packaging.
Import Archive.




(** [os.walk] below a directory tree without symbolic links, top down, as
    pairs of a directory's path and the names of its sub-directories. *)
Fixpoint walk_dirs (root : list string) (t : tree) : list (list string * list string) :=
  match t with
  | Dir _ _ subdirs =>
      (root, map dirname subdirs)
      :: flat_map (λ sub, walk_dirs (root ++ [dirname sub]) sub) subdirs
  end.

(** [all_dirs]: the root, then [os.path.join(root, name)] for the
    sub-directories of every directory the walk visits.  The body never
    reads [recurse]. *)
Definition all_dirs (root : list string) (t : tree) (recurse : bool)
  : list (list string) :=
  root :: flat_map (λ '(r, dirs), map (λ name, r ++ [name]) dirs) (walk_dirs root t).

(** [dir_at t path]: [path] leads from the directory [t] to a directory
    below it, or is empty. *)
Inductive dir_at : tree → list string → Prop :=
| dir_root t : dir_at t []
| dir_below n files subdirs sub path :
    sub ∈ subdirs → dir_at sub path →
    dir_at (Dir n files subdirs) (dirname sub :: path).

(** The test of [find_sysconfigdata]:
    [file.find("sysconfigdata") > -1 and file.endswith(".py")] *)
Definition is_sysconfigdata (file : string) : bool :=
  Text.contains "sysconfigdata" file && Versions.ends_with ".py" file.

(** The inner loop with its [return file[:-3]]. *)
Fixpoint first_module (files : list string) : option string :=
  match files with
  | [] => None
  | file :: rest =>
      if is_sysconfigdata file then Some (Text.drop_last 3 file)
      else first_module rest
  end.

(** The outer loop over the walk; falling off its end returns [None]. *)
Fixpoint search (dirs : list (list string * list string)) : option string :=
  match dirs with
  | [] => None
  | (_, files) :: rest =>
      match first_module files with
      | Some m => Some m
      | None => search rest
      end
  end.

Definition find_sysconfigdata (pymodules : tree) : option string :=
  search (walk [] pymodules).

(** A python library directory. *)
Definition lib_python : tree :=
  Dir "python3.10" ["os.py"; "_sysconfigdata__linux_x86_64-linux-gnu.py"]
    [Dir "site-packages" ["_sysconfigdata_extra.py"] [Dir "pip" ["__init__.py"] []];
     Dir "ensurepip" ["__init__.py"] []].

(** *** Patterns made of text and stars *)












(** *** What [finalize] archives *)




(** *** [all_dirs] *)

Lemma all_dirs_below t : ∀ root p,
  p ∈ flat_map (λ '(r, dirs), map (λ name, r ++ [name]) dirs) (walk_dirs root t)
  ↔ ∃ path, path ≠ [] ∧ dir_at t path ∧ p = root ++ path.
Proof.
  induction t as [n files subdirs IH] using tree_ind_all.
  intros root p. rewrite Forall_forall in IH.
  cbn [walk_dirs flat_map]. rewrite elem_of_app. split.
  - intros [Hp|Hp].
    + apply list_elem_of_fmap in Hp as (name & -> & Hname).
      apply list_elem_of_fmap in Hname as (sub & -> & Hsub).
      exists [dirname sub]. split; [done|]. split; [|done].
      apply dir_below; [done|constructor].
    + apply list_elem_of_In, in_flat_map in Hp as ([r dirs] & Hin & Hp).
      apply in_flat_map in Hin as (sub & Hsub & Hin).
      apply list_elem_of_In in Hsub.
      assert (Hp' : p ∈ flat_map (λ '(r, dirs), map (λ name, r ++ [name]) dirs)
                      (walk_dirs (root ++ [dirname sub]) sub)).
      { apply list_elem_of_In, in_flat_map. exists (r, dirs). done. }
      apply (IH sub Hsub) in Hp' as (path & Hne & Hpath & ->).
      exists (dirname sub :: path). split; [done|].
      split; [by apply dir_below|]. by rewrite <- app_assoc.
  - intros (path & Hne & Hpath & ->).
    inversion Hpath as [|? ? ? sub path' Hsub Hpath']; subst; [done|].
    destruct path' as [|x path'].
    + left. apply list_elem_of_fmap. exists (dirname sub). split; [done|].
      apply list_elem_of_fmap. eauto.
    + right.
      assert (Hp' : root ++ dirname sub :: x :: path'
                ∈ flat_map (λ '(r, dirs), map (λ name, r ++ [name]) dirs)
                    (walk_dirs (root ++ [dirname sub]) sub)).
      { apply (IH sub Hsub). exists (x :: path'). split; [done|].
        split; [done|]. by rewrite <- app_assoc. }
      apply list_elem_of_In, in_flat_map in Hp' as ([r dirs] & Hin & Hp').
      apply list_elem_of_In, in_flat_map. exists (r, dirs). split; [|done].
      apply in_flat_map. exists sub. split; [by apply list_elem_of_In|done].
Qed.

(** X12 ([all_dirs] always recurses): whatever [recurse] is, [all_dirs] lists
    the root first and then every directory at any depth below it, and
    nothing else; with [recurse=False] nested directories are listed all the
    same. *)
Theorem all_dirs_spec t root recurse p :
  (p ∈ all_dirs root t recurse ↔ ∃ path, dir_at t path ∧ p = root ++ path)
  ∧ head (all_dirs root t recurse) = Some root
  ∧ all_dirs ["lib"] lib_python false
    = [["lib"]; ["lib"; "site-packages"]; ["lib"; "ensurepip"];
       ["lib"; "site-packages"; "pip"]].
Proof.
  split; [|split; reflexivity].
  unfold all_dirs. rewrite elem_of_cons, all_dirs_below. split.
  - intros [->|(path & _ & Hpath & ->)].
    + exists []. split; [constructor|]. by rewrite app_nil_r.
    + eauto.
  - intros (path & Hpath & ->). destruct path as [|x path].
    + left. by rewrite app_nil_r.
    + right. exists (x :: path). done.
Qed.


(** *** [find_sysconfigdata] *)

Lemma prefix_before (needle : string) x : ∀ m suffix,
  (∀ a b, needle ≠ a +:+ String x b) →
  String.prefix needle (m +:+ String x suffix) = true → String.prefix needle m = true.
Proof.
  induction needle as [|y n IH]; intros m suffix Hx Hp.
  - apply Text.prefix_spec. by exists m.
  - destruct m as [|c m].
    + rewrite Text.append_nil in Hp. simpl in Hp.
      destruct (ascii_dec y x) as [->|]; [|discriminate].
      by destruct (Hx EmptyString n).
    + rewrite Text.append_cons in Hp. simpl in Hp. simpl.
      destruct (ascii_dec y c) as [->|]; [|discriminate].
      apply (IH m suffix); [|done]. intros a b ->.
      by destruct (Hx (String c a) b).
Qed.

Lemma contains_before (needle : string) x suffix : ∀ m,
  (∀ a b, needle ≠ a +:+ String x b) →
  Text.contains needle (m +:+ String x suffix) = true →
  Text.contains needle m = true ∨ Text.contains needle suffix = true.
Proof.
  intros m Hx. induction m as [|c m IH].
  - rewrite Text.append_nil, Text.contains_cons, orb_true_iff.
    intros [Hp|Hc]; [|by right]. left.
    rewrite Text.contains_nil.
    by apply (prefix_before needle x EmptyString suffix).
  - rewrite Text.append_cons, !Text.contains_cons, !orb_true_iff.
    intros [Hp|Hc].
    + left. left. rewrite <- Text.append_cons in Hp.
      by apply (prefix_before needle x (String c m) suffix).
    + destruct (IH Hc); auto.
Qed.

Lemma first_module_spec files :
  match first_module files with
  | None => ∀ f, f ∈ files → is_sysconfigdata f = false
  | Some m => ∃ f, f ∈ files ∧ is_sysconfigdata f = true ∧ m = Text.drop_last 3 f
  end.
Proof.
  induction files as [|f files IH]; simpl.
  - by intros f ?%elem_of_nil.
  - destruct (is_sysconfigdata f) eqn:Hf.
    + exists f. split; [by left|done].
    + destruct (first_module files) as [m|].
      * destruct IH as (f' & Hin & Hs & ->). exists f'. split; [by right|done].
      * intros f' Hin. apply elem_of_cons in Hin as [->|Hin]; auto.
Qed.

Lemma search_spec dirs :
  match search dirs with
  | None => ∀ root files f, (root, files) ∈ dirs → f ∈ files →
                            is_sysconfigdata f = false
  | Some m => ∃ root files f, (root, files) ∈ dirs ∧ f ∈ files
                ∧ is_sysconfigdata f = true ∧ m = Text.drop_last 3 f
  end.
Proof.
  induction dirs as [|[root files] dirs IH]; simpl.
  - by intros root files f ?%elem_of_nil.
  - pose proof (first_module_spec files) as Hfirst.
    destruct (first_module files) as [m|].
    + destruct Hfirst as (f & Hin & Hs & ->).
      exists root, files, f. split; [by left|done].
    + destruct (search dirs) as [m|].
      * destruct IH as (root' & files' & f & Hin & Hf & Hs & ->).
        exists root', files', f. split; [by right|done].
      * intros root' files' f Hin Hf.
        apply elem_of_cons in Hin as [[= -> ->]|Hin]; eauto.
Qed.

Lemma stem_of_module f :
  is_sysconfigdata f = true →
  f = Text.drop_last 3 f +:+ ".py"
  ∧ Text.contains "sysconfigdata" (Text.drop_last 3 f) = true.
Proof.
  unfold is_sysconfigdata. rewrite andb_true_iff. intros [Hc He].
  apply Text.ends_with_spec in He as [a ->].
  assert (Hd : Text.drop_last 3 (a +:+ ".py") = a)
    by exact (Text.drop_last_append a ".py").
  rewrite Hd. split; [done|].
  destruct (contains_before "sysconfigdata" "." "py" a) as [?|Hpy]; [|done..|].
  - intros x y Heq.
    assert (Hdot : Text.contains "." "sysconfigdata" = true)
      by (apply Text.contains_spec; exists x, y; exact Heq).
    vm_compute in Hdot. discriminate.
  - vm_compute in Hpy. discriminate.
Qed.

(** X13 ([find_sysconfigdata]): the result is [None] exactly when no file
    below the directory has a name that contains [sysconfigdata] and ends in
    [.py]; otherwise it is the name of such a file without its [.py], which
    still contains [sysconfigdata]; the walk is top down, so a module in the
    directory itself is found before one further down. *)
Theorem find_sysconfigdata_spec pymodules :
  (find_sysconfigdata pymodules = None
   ↔ ∀ rel f, file_at pymodules rel → last rel = Some f →
              is_sysconfigdata f = false)
  ∧ (∀ m, find_sysconfigdata pymodules = Some m →
       ∃ rel, file_at pymodules rel ∧ last rel = Some (m +:+ ".py")
              ∧ Text.contains "sysconfigdata" m = true)
  ∧ find_sysconfigdata lib_python = Some "_sysconfigdata__linux_x86_64-linux-gnu".
Proof.
  split; [|split; [|reflexivity]].
  - unfold find_sysconfigdata. pose proof (search_spec (walk [] pymodules)) as Hs.
    destruct (search (walk [] pymodules)) as [m|].
    + split; [done|]. intros Hnone.
      destruct Hs as (root & files & f & Hin & Hf & Hsys & _).
      destruct (proj1 (walk_spec pymodules [] (root ++ [f]))) as (path & Hpath & Heq);
        [eauto 6|].
      simpl in Heq. subst path.
      rewrite (Hnone (root ++ [f]) f Hpath) in Hsys; [done|]. apply last_snoc.
    + split; [|done]. intros _ rel f Hfile Hlast.
      destruct (proj2 (walk_spec pymodules [] rel)) as (root & files & f' & Hin & Hf & ->);
        [by exists rel|].
      rewrite last_snoc in Hlast. injection Hlast as <-. by apply (Hs root files).
  - intros m Hm. unfold find_sysconfigdata in Hm.
    pose proof (search_spec (walk [] pymodules)) as Hs. rewrite Hm in Hs.
    destruct Hs as (root & files & f & Hin & Hf & Hsys & ->).
    destruct (stem_of_module f Hsys) as [Hstem Hcont].
    destruct (proj1 (walk_spec pymodules [] (root ++ [f]))) as (path & Hpath & Heq);
      [eauto 6|].
    simpl in Heq. subst path. exists (root ++ [f]).
    split; [done|]. split; [|done]. by rewrite last_snoc, <- Hstem.
Qed.

End Packaging.

(** ** Script headers: [patch_shebang] *)
Module Shebang.
Import Py.

(** The files [patch_shebang] reads and rewrites, by path, as byte strings.
    Every file present can be opened for reading and for writing. *)
Abbreviation files := (gmap string string).

(** [fp.read(n)]: the first [n] bytes, fewer when the file is shorter. *)
Definition read_head (n : nat) (content : string) : string :=
  String.substring 0 n content.

(** The [fp.read()] that follows: the rest of the file. *)
Definition read_rest (n : nat) (content : string) : string :=
  String.substring n (String.length content - n) content.

Section Patch.

(** Whether [bytes.decode()] accepts a byte string (it is valid UTF-8). *)
Variable utf8 : string → bool.

(** [patch_shebang], on a POSIX host whose default encoding is UTF-8 (the
    file is read as bytes and written as text).  The first [decode] is inside
    the [try] and a failure there gives [False]; the second is not, and its
    [UnicodeDecodeError] (a [ValueError]) reaches the caller before the file
    is opened for writing. *)
Definition patch_shebang (path old new : string) (fs : files)
  : result bool * files :=
  match fs !! path with
  | None => (Raise (FileNotFoundError path), fs)
  | Some content =>
      let data := read_head (String.length old) content in
      if negb (utf8 data) then (Ok false, fs)
      else if negb (String.eqb data old) then (Ok false, fs)
      else
        let rest := read_rest (String.length old) content in
        if utf8 rest then (Ok true, <[path := new +:+ rest]> fs)
        else (Raise (ValueError "utf-8"), fs)
  end.

(** The loop of [finalize] over its list of shebangs, for one script; the
    result of each call is dropped and an exception ends the loop. *)
Fixpoint patch_each (path : string) (olds : list string) (new : string)
    (fs : files) : result unit * files :=
  match olds with
  | [] => (Ok tt, fs)
  | old :: rest =>
      match patch_shebang path old new fs with
      | (Ok _, fs') => patch_each path rest new fs'
      | (Raise e, fs') => (Raise e, fs')
      end
  end.

Lemma read_head_append (old rest : string) :
  read_head (String.length old) (old +:+ rest) = old.
Proof. apply Text.substring_head. Qed.

Lemma read_rest_append (old rest : string) :
  read_rest (String.length old) (old +:+ rest) = rest.
Proof.
  unfold read_rest. rewrite Text.length_append, Text.substring_skip.
  replace (String.length old + String.length rest - String.length old)
    with (String.length rest) by lia.
  apply Text.substring_all.
Qed.

Lemma read_head_is (old content : string) :
  read_head (String.length old) content = old ↔ ∃ rest, content = old +:+ rest.
Proof. unfold read_head. by rewrite <- String.prefix_correct, Text.prefix_spec. Qed.

Lemma patch_shebang_hit path old new (fs : files) rest :
  fs !! path = Some (old +:+ rest) → utf8 old = true →
  patch_shebang path old new fs
  = if utf8 rest then (Ok true, <[path := new +:+ rest]> fs)
    else (Raise (ValueError "utf-8"), fs).
Proof.
  intros Hc Hold. unfold patch_shebang.
  rewrite Hc, read_head_append, read_rest_append, Hold.
  simpl. by rewrite String.eqb_refl.
Qed.

Lemma patch_shebang_miss path old new (fs : files) content :
  fs !! path = Some content → (∀ rest, content ≠ old +:+ rest) →
  patch_shebang path old new fs = (Ok false, fs).
Proof.
  intros Hc Hno. unfold patch_shebang. rewrite Hc. cbv zeta.
  destruct (utf8 (read_head (String.length old) content)); simpl; [|done].
  destruct (String.eqb _ old) eqn:He; [|done].
  apply String.eqb_eq, read_head_is in He as [rest ->]. by destruct (Hno rest).
Qed.

(** X14 ([patch_shebang]): for a file that exists and a shebang [old] that is a
    proper text, the call returns [True] exactly when the file starts with
    [old] and what follows decodes, and then the file holds [new] followed by
    what followed [old]; when the file does not start with [old] it returns
    [False]; when what follows does not decode it raises; in these two cases
    no file changes, and no call changes another file. *)
Theorem patch_shebang_spec path old new (fs : files) content :
  fs !! path = Some content → utf8 old = true →
  (∀ rest, content = old +:+ rest →
     patch_shebang path old new fs
     = if utf8 rest then (Ok true, <[path := new +:+ rest]> fs)
       else (Raise (ValueError "utf-8"), fs))
  ∧ ((∀ rest, content ≠ old +:+ rest) →
     patch_shebang path old new fs = (Ok false, fs))
  ∧ (∀ other, other ≠ path →
       snd (patch_shebang path old new fs) !! other = fs !! other)
  ∧ (∀ fs', patch_shebang path old new fs = (Ok true, fs') →
       ∃ rest, content = old +:+ rest ∧ fs' !! path = Some (new +:+ rest)).
Proof.
  intros Hc Hold. split; [|split; [|split]].
  - intros rest ->. by apply patch_shebang_hit.
  - by apply patch_shebang_miss.
  - intros other Hne. unfold patch_shebang. rewrite Hc. cbv zeta.
    destruct (utf8 (read_head (String.length old) content)); cbn [negb snd]; [|done].
    destruct (String.eqb _ old); cbn [negb snd]; [|done].
    destruct (utf8 (read_rest _ _)); cbn [snd]; [|done]. by rewrite lookup_insert_ne.
  - intros fs'. unfold patch_shebang. rewrite Hc. cbv zeta.
    destruct (utf8 (read_head (String.length old) content)); simpl; [|discriminate].
    destruct (String.eqb _ old) eqn:He; simpl; [|discriminate].
    apply String.eqb_eq, read_head_is in He as [rest ->].
    rewrite read_rest_append. destruct (utf8 rest); [|discriminate].
    intros [= <-]. exists rest. split; [done|]. apply lookup_insert_eq.
Qed.

(** X15 (the order of the shebangs matters): take the two shebangs of
    [finalize], the second of which is a proper prefix of the first (the
    interpreter named with and without its minor version), a script that
    starts with the longer one, and a new shebang with which no patched
    script starts with the shorter one again.  Patching with the longer
    shebang first, as [finalize] does, leaves [new] followed by the body of
    the script; patching with the shorter one first leaves the rest of the
    longer shebang between [new] and the body. *)
Theorem shebang_order_matters path short ext new body (fs : files) :
  fs !! path = Some (short +:+ ext +:+ body) →
  utf8 short = true → utf8 (short +:+ ext) = true →
  utf8 body = true → utf8 (ext +:+ body) = true →
  String.prefix short (new +:+ body) = false →
  String.prefix short (new +:+ ext +:+ body) = false →
  patch_each path [short +:+ ext; short] new fs
  = (Ok tt, <[path := new +:+ body]> fs)
  ∧ patch_each path [short; short +:+ ext] new fs
    = (Ok tt, <[path := new +:+ ext +:+ body]> fs).
Proof.
  intros Hc Hs Hl Hb Heb Hn1 Hn2.
  assert (Hmiss : ∀ old tail (g : files),
            String.prefix short old = true →
            String.prefix short (new +:+ tail) = false →
            g !! path = Some (new +:+ tail) →
            patch_shebang path old new g = (Ok false, g)).
  { intros old tail g Hpre Hnot Hg.
    apply (patch_shebang_miss _ _ _ _ _ Hg). intros rest Heq.
    apply Text.prefix_spec in Hpre as [x ->].
    assert (String.prefix short (new +:+ tail) = true); [|congruence].
    apply Text.prefix_spec. exists (x +:+ rest). by rewrite Heq, Text.append_assoc. }
  split.
  - cbn [patch_each].
    rewrite (patch_shebang_hit path (short +:+ ext) new fs body)
      by (by rewrite ?Text.append_assoc).
    rewrite Hb.
    rewrite (Hmiss short body); [done| |done|apply lookup_insert_eq].
    apply Text.prefix_spec. exists EmptyString. by rewrite Text.append_nil_r.
  - cbn [patch_each].
    rewrite (patch_shebang_hit path short new fs (ext +:+ body)) by done.
    rewrite Heb.
    rewrite (Hmiss (short +:+ ext) (ext +:+ body));
      [done| |done|apply lookup_insert_eq].
    apply Text.prefix_spec. by exists ext.
Qed.

End Patch.

(** A script installed by pip, and the acceptance of every byte string as a
    stand-in for the decoder. *)
Definition pip_script : files :=
  {[ "bin/pip3" := "#!/build/bin/python3.10" +:+ String "010"%char "import pip" ]}.

Lemma patch_shebang_spec_witness :
  patch_shebang (λ _, true) "bin/pip3" "#!/build/bin/python3.10" "#!/bin/sh" pip_script
  = (Ok true, {[ "bin/pip3" := "#!/bin/sh" +:+ String "010"%char "import pip" ]}).
Proof.
  destruct (patch_shebang_spec (λ _, true) "bin/pip3" "#!/build/bin/python3.10"
              "#!/bin/sh" pip_script _ eq_refl eq_refl) as (Hyes & _).
  rewrite (Hyes (String "010"%char "import pip")) by reflexivity.
  unfold pip_script. by rewrite insert_singleton_eq.
Defined.

Lemma shebang_order_matters_witness :
  snd (patch_each (λ _, true) "bin/pip3"
         ["#!/build/bin/python3.10"; "#!/build/bin/python3"] "#!/bin/sh" pip_script)
    !! "bin/pip3" = Some ("#!/bin/sh" +:+ String "010"%char "import pip")
  ∧ snd (patch_each (λ _, true) "bin/pip3"
           ["#!/build/bin/python3"; "#!/build/bin/python3.10"] "#!/bin/sh" pip_script)
      !! "bin/pip3" = Some ("#!/bin/sh.10" +:+ String "010"%char "import pip").
Proof.
  destruct (shebang_order_matters (λ _, true) "bin/pip3" "#!/build/bin/python3" ".10"
              "#!/bin/sh" (String "010"%char "import pip") pip_script
              eq_refl eq_refl eq_refl eq_refl eq_refl eq_refl eq_refl) as [H1 H2].
  change ("#!/build/bin/python3" +:+ ".10") with "#!/build/bin/python3.10" in H1, H2.
  rewrite H1, H2. simpl. by rewrite !lookup_insert_eq.
Defined.

End Shebang.

(** ** Version extraction: [tarball_version], [github_version],
    [krb_version] and [python_version] *)
Module Extractors.

(** *** Regular expressions, as far as the two patterns need them

    Hyperlinks are ASCII texts; on them [\d] is a decimal digit. *)
Inductive re :=
| Nul
| Eps
| Digit
| Chr (c : ascii)
| Seq (r s : re)
| Alt (r s : re)
| Star (r : re).

(** [r+] *)
Definition Plus (r : re) : re := Seq r (Star r).

Definition is_digit (c : ascii) : bool :=
  (48 <=? N_of_ascii c)%N && (N_of_ascii c <=? 57)%N.

(** The texts a pattern matches in full. *)
Inductive matches : re → list ascii → Prop :=
| m_eps : matches Eps []
| m_digit c : is_digit c = true → matches Digit [c]
| m_chr c : matches (Chr c) [c]
| m_seq r s a b : matches r a → matches s b → matches (Seq r s) (a ++ b)
| m_alt_l r s a : matches r a → matches (Alt r s) a
| m_alt_r r s a : matches s a → matches (Alt r s) a
| m_star_nil r : matches (Star r) []
| m_star_cons r a b : matches r a → matches (Star r) b → matches (Star r) (a ++ b).

Fixpoint nullable (r : re) : bool :=
  match r with
  | Nul | Digit | Chr _ => false
  | Eps | Star _ => true
  | Seq r s => nullable r && nullable s
  | Alt r s => nullable r || nullable s
  end.

(** The derivative of a pattern by a character. *)
Fixpoint deriv (c : ascii) (r : re) : re :=
  match r with
  | Nul | Eps => Nul
  | Digit => if is_digit c then Eps else Nul
  | Chr x => if Ascii.eqb x c then Eps else Nul
  | Seq r s =>
      if nullable r then Alt (Seq (deriv c r) s) (deriv c s)
      else Seq (deriv c r) s
  | Alt r s => Alt (deriv c r) (deriv c s)
  | Star r => Seq (deriv c r) (Star r)
  end.

(** [re.match(r, s)] finds a match at the start of [s]: some prefix of [s]
    is matched in full.  A match object is always true. *)
Fixpoint re_match (r : re) (s : list ascii) : bool :=
  nullable r
  || match s with
     | [] => false
     | c :: s' => re_match (deriv c r) s'
     end.

(** [r"\d\.\d\d/"] *)
Definition krb_re : re :=
  Seq Digit (Seq (Chr ".") (Seq Digit (Seq Digit (Chr "/")))).

(** [r"(\d+\.)+\d/"] *)
Definition python_re : re :=
  Seq (Plus (Seq (Plus Digit) (Chr "."))) (Seq Digit (Chr "/")).

(** [krb_version]: [href[:-1]] when the pattern matches at the start. *)
Definition krb_version (href : string) : option string :=
  if re_match krb_re (list_ascii_of_string href) then Some (Text.drop_last 1 href)
  else None.

(** [python_version] *)
Definition python_version (href : string) : option string :=
  if re_match python_re (list_ascii_of_string href) then Some (Text.drop_last 1 href)
  else None.

(** [href.split("/v")[-1]]: the text after the last ["/v"], the whole text
    when there is none. *)
Fixpoint after_last_v (s : string) : option string :=
  match s with
  | EmptyString => None
  | String c r =>
      match after_last_v r with
      | Some t => Some t
      | None =>
          match r with
          | String "v" t => if Ascii.eqb c "/" then Some t else None
          | _ => None
          end
      end
  end.

(** [github_version] *)
Definition github_version (href : string) : option string :=
  if Text.contains "tag/" href then Some (default href (after_last_v href))
  else None.

(** A non-empty run of digits. *)
Definition digits (g : list ascii) : Prop :=
  g ≠ [] ∧ Forall (λ c, is_digit c = true) g.

(** *** Derivatives *)

Lemma matches_nul l : matches Nul l ↔ False.
Proof. split; [inversion 1|done]. Qed.

Lemma matches_eps l : matches Eps l ↔ l = [].
Proof. split; [by inversion 1|intros ->; constructor]. Qed.

Lemma matches_digit l : matches Digit l ↔ ∃ c, l = [c] ∧ is_digit c = true.
Proof.
  split; [inversion 1; eauto|]. intros (c & -> & Hc). by constructor.
Qed.

Lemma matches_chr c l : matches (Chr c) l ↔ l = [c].
Proof. split; [by inversion 1|intros ->; constructor]. Qed.

Lemma matches_seq r s l :
  matches (Seq r s) l ↔ ∃ a b, l = a ++ b ∧ matches r a ∧ matches s b.
Proof.
  split; [inversion 1; eauto|]. intros (a & b & -> & Ha & Hb). by constructor.
Qed.

Lemma matches_alt r s l : matches (Alt r s) l ↔ matches r l ∨ matches s l.
Proof.
  split; [inversion 1; auto|]. intros [H|H]; [by apply m_alt_l|by apply m_alt_r].
Qed.

Lemma nullable_spec r : nullable r = true ↔ matches r [].
Proof.
  induction r as [| | |c|r IHr s IHs|r IHr s IHs|r IHr]; simpl.
  - by rewrite matches_nul.
  - by rewrite matches_eps.
  - rewrite matches_digit. split; [done|]. by intros (c & ? & _).
  - by rewrite matches_chr.
  - rewrite andb_true_iff, IHr, IHs, matches_seq. split.
    + intros [Hr Hs]. by exists [], [].
    + intros (a & b & Heq & Ha & Hb). symmetry in Heq.
      apply app_eq_nil in Heq as [-> ->]. done.
  - by rewrite orb_true_iff, IHr, IHs, matches_alt.
  - split; [constructor|done].
Qed.

Lemma matches_star_cons r c s :
  matches (Star r) (c :: s) →
  ∃ a b, s = a ++ b ∧ matches r (c :: a) ∧ matches (Star r) b.
Proof.
  intros H. remember (Star r) as sr eqn:Hsr. remember (c :: s) as l eqn:Hl.
  induction H as [| | | | | | |r' a b Ha _ Hb IHb]; try discriminate.
  injection Hsr as ->. destruct a as [|x a].
  - simpl in Hl. by apply IHb.
  - simpl in Hl. injection Hl as -> <-. eauto.
Qed.

Lemma deriv_spec c r : ∀ s, matches (deriv c r) s ↔ matches r (c :: s).
Proof.
  induction r as [| | |x|r IHr t IHt|r IHr t IHt|r IHr]; intros s; simpl.
  - by rewrite !matches_nul.
  - rewrite matches_nul, matches_eps. done.
  - rewrite matches_digit. destruct (is_digit c) eqn:Hc.
    + rewrite matches_eps. split; [intros ->; eauto|].
      intros (x & Heq & _). by injection Heq as _ ->.
    + rewrite matches_nul. split; [done|].
      intros (x & Heq & Hx). injection Heq as -> _. congruence.
  - rewrite matches_chr. destruct (Ascii.eqb x c) eqn:Hc.
    + apply Ascii.eqb_eq in Hc as ->. rewrite matches_eps.
      split; [by intros ->|]. intros Heq. by injection Heq as ->.
    + apply Ascii.eqb_neq in Hc. rewrite matches_nul.
      split; [done|]. intros Heq. injection Heq as -> _. done.
  - assert (Hseq : matches (Seq (deriv c r) t) s
                   ↔ ∃ a b, s = a ++ b ∧ matches r (c :: a) ∧ matches t b).
    { rewrite matches_seq. split; intros (a & b & -> & Ha & Hb);
        exists a, b; (split; [done|]); (split; [by apply IHr|done]). }
    assert (Hfull : matches (Seq r t) (c :: s)
                    ↔ (∃ a b, s = a ++ b ∧ matches r (c :: a) ∧ matches t b)
                      ∨ (matches r [] ∧ matches t (c :: s))).
    { rewrite matches_seq. split.
      - intros (a & b & Heq & Ha & Hb).
        destruct a as [|x a]; simpl in Heq; [subst; auto|].
        injection Heq as <- ->. left. eauto.
      - intros [(a & b & -> & Ha & Hb)|[Hr Ht]].
        + by exists (c :: a), b.
        + by exists [], (c :: s). }
    rewrite Hfull. destruct (nullable r) eqn:Hn.
    + apply nullable_spec in Hn. rewrite matches_alt, Hseq, IHt. tauto.
    + rewrite Hseq. split; [auto|]. intros [H|[H _]]; [done|].
      apply nullable_spec in H. congruence.
  - by rewrite !matches_alt, IHr, IHt.
  - rewrite matches_seq. split.
    + intros (a & b & -> & Ha & Hb). apply IHr in Ha.
      by apply (m_star_cons r (c :: a) b).
    + intros H. apply matches_star_cons in H as (a & b & -> & Ha & Hb).
      exists a, b. split; [done|]. split; [by apply IHr|done].
Qed.

(** [re.match] succeeds exactly when a prefix of the text is matched. *)
Lemma re_match_spec r : ∀ s,
  re_match r s = true ↔ ∃ p q, s = p ++ q ∧ matches r p.
Proof.
  intros s. revert r. induction s as [|c s IH]; intros r; simpl.
  - rewrite orb_false_r, nullable_spec. split.
    + intros H. by exists [], [].
    + intros (p & q & Heq & H). symmetry in Heq.
      apply app_eq_nil in Heq as [-> _]. done.
  - rewrite orb_true_iff, nullable_spec, IH. split.
    + intros [H|(p & q & -> & H)].
      * by exists [], (c :: s).
      * exists (c :: p), q. split; [done|]. by apply deriv_spec.
    + intros (p & q & Heq & H). destruct p as [|x p]; [by left|].
      simpl in Heq. injection Heq as -> ->. right.
      exists p, q. split; [done|]. by apply deriv_spec.
Qed.


(** *** Repetition *)

Lemma matches_star r l :
  matches (Star r) l ↔ ∃ ps, Forall (matches r) ps ∧ l = List.concat ps.
Proof.
  split.
  - intros H. remember (Star r) as sr eqn:Hsr.
    induction H as [| | | | | |r'|r' a b Ha _ Hb IHb]; try discriminate.
    + by exists [].
    + injection Hsr as ->. destruct (IHb eq_refl) as (ps & Hps & ->).
      exists (a :: ps). split; [by constructor|done].
  - intros (ps & Hps & ->). induction Hps as [|a ps Ha Hps IH]; simpl.
    + constructor.
    + by constructor.
Qed.

Lemma matches_plus r l :
  matches (Plus r) l ↔ ∃ ps, ps ≠ [] ∧ Forall (matches r) ps ∧ l = List.concat ps.
Proof.
  unfold Plus. rewrite matches_seq. split.
  - intros (a & b & -> & Ha & Hb). apply matches_star in Hb as (ps & Hps & ->).
    exists (a :: ps). split; [done|]. split; [by constructor|done].
  - intros (ps & Hne & Hps & ->). destruct ps as [|a ps]; [done|].
    apply Forall_cons in Hps as [Ha Hps]. exists a, (List.concat ps).
    split; [done|]. split; [done|]. apply matches_star. eauto.
Qed.

Lemma matches_digits g : matches (Plus Digit) g ↔ digits g.
Proof.
  rewrite matches_plus. unfold digits. split.
  - intros (ps & Hne & Hps & ->). split.
    + destruct ps as [|p ps]; [done|]. apply Forall_cons in Hps as [Hp _].
      apply matches_digit in Hp as (c & -> & _). done.
    + clear Hne. induction Hps as [|p ps Hp Hps IH]; simpl; [constructor|].
      apply matches_digit in Hp as (c & -> & Hc). by constructor.
  - intros [Hne Hall]. exists (map (λ c, [c]) g). split; [by destruct g|].
    split.
    + clear Hne. induction Hall as [|c g Hc Hall IH]; simpl; constructor; [|done].
      apply matches_digit. eauto.
    + clear. induction g as [|c g IH]; simpl; [done|]. by rewrite <- IH.
Qed.

(** The texts [python_re] matches: one or more runs of digits, each followed
    by a dot, then one digit and a slash. *)
Lemma matches_python_re p :
  matches python_re p
  ↔ ∃ gs d, gs ≠ [] ∧ Forall digits gs ∧ is_digit d = true
      ∧ p = List.concat (map (λ g, g ++ ["."%char]) gs) ++ [d; "/"%char].
Proof.
  unfold python_re. rewrite matches_seq. split.
  - intros (a & b & -> & Ha & Hb).
    apply matches_seq in Hb as (x & y & -> & Hx & Hy).
    apply matches_digit in Hx as (d & -> & Hd). apply matches_chr in Hy as ->.
    apply matches_plus in Ha as (ps & Hne & Hps & ->).
    assert (Hgs : ∃ gs, Forall digits gs ∧ ps = map (λ g, g ++ ["."%char]) gs).
    { clear Hne. induction Hps as [|q ps Hq Hps (gs & Hgs & ->)].
      - by exists [].
      - apply matches_seq in Hq as (g & y & -> & Hg & Hy).
        apply matches_chr in Hy as ->. apply matches_digits in Hg.
        exists (g :: gs). split; [by constructor|done]. }
    destruct Hgs as (gs & Hgs & ->). exists gs, d.
    split; [by destruct gs|]. done.
  - intros (gs & d & Hne & Hgs & Hd & ->).
    exists (List.concat (map (λ g, g ++ ["."%char]) gs)), [d; "/"%char].
    split; [done|]. split.
    + apply matches_plus. exists (map (λ g, g ++ ["."%char]) gs).
      split; [by destruct gs|]. split; [|done].
      clear Hne. induction Hgs as [|g gs Hg Hgs IH]; simpl; constructor; [|done].
      apply matches_seq. exists g, ["."%char]. split; [done|].
      split; [by apply matches_digits|apply matches_chr; done].
    + apply (m_seq Digit (Chr "/") [d] ["/"%char]); [by constructor|constructor].
Qed.


Lemma matches_krb_re p :
  matches krb_re p
  ↔ ∃ d1 d2 d3, is_digit d1 = true ∧ is_digit d2 = true ∧ is_digit d3 = true
      ∧ p = [d1; "."%char; d2; d3; "/"%char].
Proof.
  unfold krb_re. split.
  - intros H. apply matches_seq in H as (a1 & b1 & -> & Ha & H).
    apply matches_digit in Ha as (d1 & -> & H1).
    apply matches_seq in H as (a2 & b2 & -> & Ha & H). apply matches_chr in Ha as ->.
    apply matches_seq in H as (a3 & b3 & -> & Ha & H).
    apply matches_digit in Ha as (d2 & -> & H2).
    apply matches_seq in H as (a4 & b4 & -> & Ha & H).
    apply matches_digit in Ha as (d3 & -> & H3). apply matches_chr in H as ->.
    exists d1, d2, d3. done.
  - intros (d1 & d2 & d3 & H1 & H2 & H3 & ->).
    apply (m_seq _ _ [d1] [_; _; _; _]); [by constructor|].
    apply (m_seq _ _ [_] [_; _; _]); [constructor|].
    apply (m_seq _ _ [d2] [_; _]); [by constructor|].
    apply (m_seq _ _ [d3] [_]); [by constructor|constructor].
Qed.

(** *** [krb_version] and [python_version] *)

(** X16 ([krb_version]): a version is extracted exactly from the hyperlinks
    that start with a digit, a dot, two digits and a slash, and it is the
    hyperlink without its last character, whatever follows the slash. *)
Theorem krb_version_spec :
  (∀ href v, krb_version href = Some v
     ↔ v = Text.drop_last 1 href
       ∧ ∃ d1 d2 d3 rest,
           is_digit d1 = true ∧ is_digit d2 = true ∧ is_digit d3 = true
           ∧ list_ascii_of_string href
             = d1 :: "."%char :: d2 :: d3 :: "/"%char :: rest)
  ∧ krb_version "1.20/" = Some "1.20" ∧ krb_version "1.20.1/" = None
  ∧ krb_version "1.20/x" = Some "1.20/".
Proof.
  split; [|repeat split; reflexivity].
  intros href v. unfold krb_version.
  destruct (re_match krb_re (list_ascii_of_string href)) eqn:Hm.
  - apply re_match_spec in Hm as (p & q & Heq & Hp).
    apply matches_krb_re in Hp as (d1 & d2 & d3 & H1 & H2 & H3 & ->).
    split.
    + intros [= <-]. split; [done|]. exists d1, d2, d3, q. done.
    + by intros [-> _].
  - split; [done|]. intros (_ & d1 & d2 & d3 & rest & H1 & H2 & H3 & Heq).
    assert (Ht : re_match krb_re (list_ascii_of_string href) = true).
    { apply re_match_spec. exists [d1; "."%char; d2; d3; "/"%char], rest.
      split; [done|]. apply matches_krb_re. exists d1, d2, d3. done. }
    congruence.
Qed.

Lemma groups_end_in_dot gs :
  gs ≠ [] → Forall digits gs →
  ∃ pre, List.concat (map (λ g, g ++ ["."%char]) gs) = pre ++ ["."%char]
         ∧ "/"%char ∉ pre.
Proof.
  intros Hne Hgs. induction Hgs as [|g gs [_ Hg] Hgs IH]; [done|].
  assert (Hng : "/"%char ∉ g).
  { intros Hin. rewrite Forall_forall in Hg. by specialize (Hg _ Hin). }
  destruct gs as [|g' gs].
  - exists g. simpl. by rewrite app_nil_r.
  - destruct IH as (pre & Heq & Hpre); [done|].
    exists (g ++ "."%char :: pre). split.
    + cbn [map List.concat] in *. rewrite Heq.
      by rewrite <- !app_assoc.
    + rewrite elem_of_app, elem_of_cons. intros [?|[?|?]]; done.
Qed.

Lemma split_at_first (c : ascii) l1 : ∀ l2 r1 r2,
  c ∉ l1 → c ∉ l2 → l1 ++ c :: r1 = l2 ++ c :: r2 → l1 = l2 ∧ r1 = r2.
Proof.
  induction l1 as [|x l1 IH]; intros l2 r1 r2 H1 H2 Heq.
  - destruct l2 as [|y l2]; simpl in Heq; [by injection Heq|].
    injection Heq as <- _. destruct H2. by left.
  - destruct l2 as [|y l2]; simpl in Heq.
    + injection Heq as -> _. destruct H1. by left.
    + injection Heq as -> Heq.
      destruct (IH l2 r1 r2) as [-> ->]; [| |done|done].
      * intros ?. apply H1. by right.
      * intros ?. apply H2. by right.
Qed.

(** X17 ([python_version]): a version is extracted only from a hyperlink in
    which a dot, one digit and the first slash follow one another, and it is
    the hyperlink without its last character; so a directory whose last
    component has two or more digits, like [3.10.10/], yields no version. *)
Theorem python_version_last_component :
  (∀ href v, python_version href = Some v →
     v = Text.drop_last 1 href
     ∧ ∃ pre d rest, is_digit d = true ∧ ("/"%char ∉ pre)
         ∧ list_ascii_of_string href = pre ++ "."%char :: d :: "/"%char :: rest)
  ∧ (∀ t x y, "/"%char ∉ list_ascii_of_string t →
       x ≠ "."%char → x ≠ "/"%char → y ≠ "/"%char →
       python_version (t +:+ String x (String y "/")) = None)
  ∧ python_version "3.10.9/" = Some "3.10.9"
  ∧ python_version "3.10.10/" = None ∧ python_version "3.10/" = None.
Proof.
  assert (Hshape : ∀ href v, python_version href = Some v →
     v = Text.drop_last 1 href
     ∧ ∃ pre d rest, is_digit d = true ∧ ("/"%char ∉ pre)
         ∧ list_ascii_of_string href = pre ++ "."%char :: d :: "/"%char :: rest).
  { intros href v. unfold python_version.
    destruct (re_match python_re (list_ascii_of_string href)) eqn:Hm; [|done].
    intros [= <-]. split; [done|].
    apply re_match_spec in Hm as (p & q & Heq & Hp).
    apply matches_python_re in Hp as (gs & d & Hne & Hgs & Hd & ->).
    destruct (groups_end_in_dot gs Hne Hgs) as (pre & Hpre & Hno).
    exists pre, d, q. split; [done|]. split; [done|].
    rewrite Heq, Hpre. by rewrite <- !app_assoc. }
  split; [exact Hshape|]. split; [|repeat split; reflexivity].
  intros t x y Ht Hx Hxs Hy.
  destruct (python_version (t +:+ String x (String y "/"))) as [v|] eqn:Hv; [|done].
  exfalso. apply Hshape in Hv as (_ & pre & d & rest & Hd & Hpre & Heq).
  rewrite Text.list_ascii_of_string_append in Heq. simpl in Heq.
  assert (Hsplit : list_ascii_of_string t ++ [x; y] = pre ++ ["."%char; d]
                   ∧ [] = rest).
  { apply (split_at_first "/"%char).
    - rewrite elem_of_app, !elem_of_cons.
      intros [H|[H|[H|H]]];
        [by apply Ht|by apply Hxs|by apply Hy|by apply elem_of_nil in H].
    - rewrite elem_of_app, !elem_of_cons.
      intros [H|[H|[H|H]]];
        [by apply Hpre|discriminate H| |by apply elem_of_nil in H].
      subst d. vm_compute in Hd. discriminate Hd.
    - by rewrite <- !app_assoc. }
  destruct Hsplit as [Hsplit _].
  change (list_ascii_of_string t ++ [x; y])
    with (list_ascii_of_string t ++ [x] ++ [y]) in Hsplit.
  change (pre ++ ["."%char; d]) with (pre ++ ["."%char] ++ [d]) in Hsplit.
  rewrite !app_assoc in Hsplit.
  apply app_inj_tail in Hsplit as [Hsplit _].
  apply app_inj_tail in Hsplit as [_ ->]. done.
Qed.

(** *** [tarball_version] *)

Lemma after_first_dash_append (name rest : string) :
  Text.contains "-" name = false →
  Versions.after_first_dash (name +:+ String "-" rest) = Some rest.
Proof.
  induction name as [|c name IH]; [done|].
  rewrite Text.contains_cons. intros Hc. apply orb_false_iff in Hc as [Hp Hc].
  rewrite Text.append_cons. simpl.
  destruct (Ascii.eqb c "-") eqn:Heq; [|by apply IH].
  apply Ascii.eqb_eq in Heq as ->. by destruct name.
Qed.

Lemma after_first_dash_none (s : string) :
  Text.contains "-" s = false → Versions.after_first_dash s = None.
Proof.
  induction s as [|c s IH]; [done|].
  rewrite Text.contains_cons. intros Hc. apply orb_false_iff in Hc as [Hp Hc].
  simpl. destruct (Ascii.eqb c "-") eqn:Heq; [|by apply IH].
  apply Ascii.eqb_eq in Heq as ->. by destruct s.
Qed.

(** X18 ([tarball_version] round trip): from a link made of a name without a
    dash, a dash, a version and [.tar.gz], [tarball_version] extracts the
    version, unless the version is [latest]; a [tar.gz] link without a dash
    gives no version. *)
Theorem tarball_version_round_trip name v :
  Text.contains "-" name = false →
  Versions.tarball_version (name +:+ "-" +:+ v +:+ ".tar.gz")
  = (if String.eqb v "latest" then None else Some v)
  ∧ Versions.tarball_version (name +:+ ".tar.gz") = None.
Proof.
  intros Hname. unfold Versions.tarball_version. split.
  - assert (He : Versions.ends_with "tar.gz" (name +:+ "-" +:+ v +:+ ".tar.gz") = true).
    { apply Text.ends_with_spec. exists (name +:+ "-" +:+ v +:+ ".").
      by rewrite !Text.append_assoc. }
    rewrite He. change (name +:+ "-" +:+ v +:+ ".tar.gz")
      with (name +:+ String "-" (v +:+ ".tar.gz")).
    rewrite (after_first_dash_append name _ Hname).
    assert (Hd : Versions.drop_last7 (v +:+ ".tar.gz") = v)
      by exact (Text.drop_last_append v ".tar.gz").
    by rewrite Hd.
  - destruct (Versions.ends_with "tar.gz" (name +:+ ".tar.gz")); [|done].
    rewrite after_first_dash_none; [done|].
    destruct (Text.contains "-" (name +:+ ".tar.gz")) eqn:Hc; [|done].
    apply Text.contains_spec in Hc as (a & b & Heq). exfalso.
    assert (Hin : "-"%char ∈ list_ascii_of_string (name +:+ ".tar.gz")).
    { rewrite Heq, !Text.list_ascii_of_string_append. simpl.
      rewrite elem_of_app. right. by left. }
    rewrite Text.list_ascii_of_string_append, elem_of_app in Hin.
    destruct Hin as [Hin|Hin].
    + apply list_elem_of_split in Hin as (l1 & l2 & Hl).
      assert (Hc : Text.contains "-" name = true); [|congruence].
      apply Text.contains_spec.
      exists (string_of_list_ascii l1), (string_of_list_ascii l2).
      rewrite <- (string_of_list_ascii_of_string name), Hl.
      by rewrite Text.string_of_list_ascii_app.
    + simpl in Hin. repeat (apply elem_of_cons in Hin as [?|Hin]; [done|]).
      by apply elem_of_nil in Hin.
Qed.

Lemma tarball_version_round_trip_witness :
  Versions.tarball_version "openssl-1.1.1t.tar.gz" = Some "1.1.1t"
  ∧ Versions.tarball_version "openssl.tar.gz" = None.
Proof.
  exact (tarball_version_round_trip "openssl" "1.1.1t" eq_refl).
Defined.

(** *** [github_version] *)

Lemma after_last_v_none (s : string) :
  Text.contains "/v" s = false → after_last_v s = None.
Proof.
  induction s as [|c s IH]; [done|].
  rewrite Text.contains_cons. intros Hc. apply orb_false_iff in Hc as [Hp Hc].
  simpl. rewrite (IH Hc). destruct s as [|x s]; [done|].
  destruct (ascii_dec x "v") as [->|Hx].
  - destruct (Ascii.eqb c "/") eqn:Heq; [|done].
    apply Ascii.eqb_eq in Heq as ->. by destruct s.
  - destruct x as [[] [] [] [] [] [] [] []]; done.
Qed.

Lemma after_last_v_append (base ver : string) :
  Text.contains "/v" ver = false →
  after_last_v (base +:+ "/v" +:+ ver) = Some ver.
Proof.
  intros Hver. induction base as [|c base IH].
  - change (EmptyString +:+ "/v" +:+ ver) with (String "/" (String "v" ver)).
    cbn [after_last_v]. rewrite (after_last_v_none ver Hver).
    by destruct ver as [|[[] [] [] [] [] [] [] []] t].
  - rewrite Text.append_cons. cbn [after_last_v]. by rewrite IH.
Qed.

(** X19 ([github_version]): for a hyperlink that contains [tag/], the version
    is the text after the last [/v]; a version text without [/v] that
    follows a [/v] is recovered as it is, and a hyperlink without any [/v]
    is returned whole.  Hyperlinks without [tag/] give no version. *)
Theorem github_version_spec :
  (∀ base ver, Text.contains "tag/" (base +:+ "/v" +:+ ver) = true →
     Text.contains "/v" ver = false →
     github_version (base +:+ "/v" +:+ ver) = Some ver)
  ∧ (∀ href, Text.contains "tag/" href = true → Text.contains "/v" href = false →
       github_version href = Some href)
  ∧ (∀ href, Text.contains "tag/" href = false → github_version href = None)
  ∧ github_version "/repo/releases/tag/v1.2.3" = Some "1.2.3"
  ∧ github_version "/repo/releases/tag/1.2.3" = Some "/repo/releases/tag/1.2.3".
Proof.
  unfold github_version. split; [|split; [|split; [|split; reflexivity]]].
  - intros base ver -> Hver. by rewrite after_last_v_append.
  - intros href -> Hv. by rewrite after_last_v_none.
  - by intros href ->.
Qed.

End Extractors.

(** ** Version check: the order of loose versions *)
Module LooseOrder.
Import Py Versions.

(** Is the component a number? *)
Definition is_int (x : component) : bool :=
  match x with CInt _ => true | CStr _ => false end.

(** What [compare_versions] prints for one discovered version. *)
Definition verdict (current v : Loose) : list message :=
  match loose_gt v current with
  | Ok true => [Found (vstring v) (vstring current)]
  | Ok false => []
  | Raise _ => [Unable (vstring v)]
  end.

(** Two versions that [<] can compare. *)
Definition comparable (x y : Loose) : Prop := ∃ b, loose_lt x y = Ok b.

(** *** Comparison of component lists *)

Lemma cmp_components_outcome a : ∀ b,
  (∃ c, cmp_components a b = Ok c) ∨ cmp_components a b = Raise mixed.
Proof.
  induction a as [|x a IH]; intros [|y b]; simpl; eauto.
  destruct x as [m|s], y as [n|t]; auto.
  - destruct (N.compare m n); eauto.
  - destruct (String.compare s t); eauto.
Qed.

Lemma string_compare_refl (s : string) : String.compare s s = Eq.
Proof.
  pose proof (String.compare_antisym s s) as H.
  by destruct (String.compare s s).
Qed.

Lemma cmp_components_refl a : cmp_components a a = Ok Eq.
Proof.
  induction a as [|[m|s] a IH]; simpl; [done| |].
  - by rewrite N.compare_refl.
  - by rewrite string_compare_refl.
Qed.

(** Comparing two component lists never raises anything but the [TypeError]
    of a number against a string, and it raises exactly when the lists agree
    up to a position at which one holds a number and the other a string; a
    version compares equal to itself. *)
Lemma cmp_components_raises a b :
  ((∃ c, cmp_components a b = Ok c) ∨ cmp_components a b = Raise mixed)
  ∧ (cmp_components a b = Raise mixed
     ↔ ∃ p x y ta tb, a = p ++ x :: ta ∧ b = p ++ y :: tb ∧ is_int x ≠ is_int y)
  ∧ cmp_components a a = Ok Eq.
Proof.
  split; [apply cmp_components_outcome|]. split; [|apply cmp_components_refl].
  revert b. induction a as [|x a IH]; intros b.
  - split.
    + destruct b; discriminate.
    + intros (p & x & y & ta & tb & Ha & _). by destruct p.
  - destruct b as [|y b].
    + split; [discriminate|].
      intros (p & x' & y' & ta & tb & _ & Hb & _). by destruct p.
    + simpl. destruct x as [m|s], y as [n|t].
      * destruct (N.compare m n) eqn:Hc.
        -- apply N.compare_eq_iff in Hc as ->. rewrite IH. split.
           ++ intros (p & x & y & ta & tb & -> & -> & Hk).
              exists (CInt n :: p), x, y, ta, tb. done.
           ++ intros (p & x & y & ta & tb & Ha & Hb & Hk). destruct p as [|z p].
              ** simpl in Ha, Hb. injection Ha as <- _. injection Hb as <- _. done.
              ** simpl in Ha, Hb. injection Ha as _ ->. injection Hb as _ ->.
                 exists p, x, y, ta, tb. done.
        -- split; [discriminate|].
           intros (p & x & y & ta & tb & Ha & Hb & Hk). destruct p as [|z p].
           ++ simpl in Ha, Hb. injection Ha as <- _. injection Hb as <- _. done.
           ++ simpl in Ha, Hb. injection Ha as <- _. injection Hb as <- _. by rewrite N.compare_refl in Hc.
        -- split; [discriminate|].
           intros (p & x & y & ta & tb & Ha & Hb & Hk). destruct p as [|z p].
           ++ simpl in Ha, Hb. injection Ha as <- _. injection Hb as <- _. done.
           ++ simpl in Ha, Hb. injection Ha as <- _. injection Hb as <- _. by rewrite N.compare_refl in Hc.
      * split; [intros _|done]. by exists [], (CInt m), (CStr t), a, b.
      * split; [intros _|done]. by exists [], (CStr s), (CInt n), a, b.
      * destruct (String.compare s t) eqn:Hc.
        -- apply String.compare_eq_iff in Hc as ->. rewrite IH. split.
           ++ intros (p & x & y & ta & tb & -> & -> & Hk).
              exists (CStr t :: p), x, y, ta, tb. done.
           ++ intros (p & x & y & ta & tb & Ha & Hb & Hk). destruct p as [|z p].
              ** simpl in Ha, Hb. injection Ha as <- _. injection Hb as <- _. done.
              ** simpl in Ha, Hb. injection Ha as _ ->. injection Hb as _ ->.
                 exists p, x, y, ta, tb. done.
        -- split; [discriminate|].
           intros (p & x & y & ta & tb & Ha & Hb & Hk). destruct p as [|z p].
           ++ simpl in Ha, Hb. injection Ha as <- _. injection Hb as <- _. done.
           ++ simpl in Ha, Hb. injection Ha as <- _. injection Hb as <- _. by rewrite string_compare_refl in Hc.
        -- split; [discriminate|].
           intros (p & x & y & ta & tb & Ha & Hb & Hk). destruct p as [|z p].
           ++ simpl in Ha, Hb. injection Ha as <- _. injection Hb as <- _. done.
           ++ simpl in Ha, Hb. injection Ha as <- _. injection Hb as <- _. by rewrite string_compare_refl in Hc.
Qed.

(** *** The report *)

Lemma loose_gt_outcome x y :
  version x ≠ None → version y ≠ None →
  (∃ b, loose_gt x y = Ok b) ∨ loose_gt x y = Raise mixed.
Proof.
  unfold loose_gt, loose_cmp. intros Hx Hy.
  destruct (version x) as [a|]; [|done]. destruct (version y) as [b|]; [|done].
  destruct (cmp_components_outcome a b) as [[c ->]| ->]; eauto.
Qed.

Lemma compare_versions_verdicts current versions :
  version current ≠ None → Forall (λ v, version v ≠ None) versions →
  compare_versions loose_gt vstring current versions
  = Ok (flat_map (verdict current) versions).
Proof.
  intros Hcur Hall. induction Hall as [|v versions Hv Hall IH]; [done|].
  cbn [compare_versions flat_map]. rewrite IH.
  generalize (flat_map (verdict current) versions). intros out. unfold verdict.
  destruct (loose_gt_outcome v current Hv Hcur) as [[b ->]| ->]; [|done].
  by destruct b.
Qed.

Lemma verdict_length current v : List.length (verdict current v) ≤ 1.
Proof. unfold verdict. destruct (loose_gt v current) as [[]|]; simpl; lia. Qed.

(** X20 (the report never fails): given loose versions that were all parsed
    (built from non-empty strings, as [check_files] builds them),
    [compare_versions] does not raise.  It prints at most one line for each
    version: the line of a new version exactly for those greater than the
    current one, and the line of a failed comparison exactly for those that
    cannot be compared with it. *)
Theorem compare_versions_loose current versions :
  version current ≠ None → Forall (λ v, version v ≠ None) versions →
  ∃ out, compare_versions loose_gt vstring current versions = Ok out
    ∧ List.length out ≤ List.length versions
    ∧ (∀ new cur, Found new cur ∈ out ↔
         cur = vstring current
         ∧ ∃ v, v ∈ versions ∧ vstring v = new ∧ loose_gt v current = Ok true)
    ∧ (∀ bad, Unable bad ∈ out ↔
         ∃ v, v ∈ versions ∧ vstring v = bad ∧ loose_gt v current = Raise mixed).
Proof.
  intros Hcur Hall. rewrite (compare_versions_verdicts _ _ Hcur Hall).
  eexists. split; [done|]. split; [|split].
  - clear Hall. induction versions as [|v versions IH]; [done|].
    cbn [flat_map]. rewrite length_app. pose proof (verdict_length current v).
    simpl. lia.
  - intros new cur. rewrite list_elem_of_In, in_flat_map. split.
    + intros (v & Hv & Hm). apply list_elem_of_In in Hv.
      unfold verdict in Hm. destruct (loose_gt v current) as [[]|] eqn:Hgt.
      * destruct Hm as [[= <- <-]|[]]. eauto.
      * destruct Hm.
      * by destruct Hm as [|[]].
    + intros (-> & v & Hv & <- & Hgt). exists v.
      split; [by apply list_elem_of_In|]. unfold verdict. rewrite Hgt. by left.
  - intros bad. rewrite list_elem_of_In, in_flat_map. split.
    + intros (v & Hv & Hm). apply list_elem_of_In in Hv.
      assert (Hvv : version v ≠ None).
      { rewrite Forall_forall in Hall. by apply Hall. }
      unfold verdict in Hm.
      destruct (loose_gt_outcome v current Hvv Hcur) as [[b Hgt]|Hgt];
        rewrite Hgt in Hm.
      * destruct b; [by destruct Hm as [|[]]|destruct Hm].
      * destruct Hm as [[= <-]|[]]. eauto.
    + intros (v & Hv & <- & Hgt). exists v.
      split; [by apply list_elem_of_In|]. unfold verdict. rewrite Hgt. by left.
Qed.

Lemma compare_versions_loose_witness :
  ∃ out, compare_versions loose_gt vstring (LooseVersion "1.1.1t")
           [LooseVersion "1.1.1s"; LooseVersion "1.1.1.2"; LooseVersion "3.0.8"]
         = Ok out
    ∧ List.length out ≤ 3.
Proof.
  destruct (compare_versions_loose (LooseVersion "1.1.1t")
              [LooseVersion "1.1.1s"; LooseVersion "1.1.1.2"; LooseVersion "3.0.8"])
    as (out & Hout & Hlen & _).
  - discriminate.
  - repeat constructor; discriminate.
  - exists out. split; [exact Hout|exact Hlen].
Defined.

(** *** Sorting comparable versions *)

Lemma insert_comparable (x : Loose) (l : list Loose) :
  Forall (comparable x) l →
  ∃ l', insert loose_lt x l = Ok l' ∧ l' ≡ₚ x :: l.
Proof.
  induction 1 as [|y r [b Hb] _ (r' & Hr & Hp)]; simpl.
  - by exists [x].
  - rewrite Hb. destruct b.
    + by exists (x :: y :: r).
    + rewrite Hr. exists (y :: r'). split; [done|].
      rewrite Hp. apply Permutation_swap.
Qed.

Lemma sort_comparable (l : list Loose) :
  (∀ x y, x ∈ l → y ∈ l → comparable x y) →
  ∃ l', sort loose_lt l = Ok l' ∧ l' ≡ₚ l.
Proof.
  unfold sort. intros Hall.
  assert (Hgen : ∀ acc, (∀ x y, x ∈ l → y ∈ acc → comparable x y) → ∃ l',
    foldl (λ acc x, match acc with
                    | Ok s0 => insert loose_lt x s0
                    | Raise e => Raise e
                    end) (Ok acc) l = Ok l' ∧ l' ≡ₚ acc ++ l).
  { induction l as [|x l IH]; intros acc Hacc; simpl.
    - exists acc. by rewrite app_nil_r.
    - destruct (insert_comparable x acc) as (acc' & -> & Hp).
      { apply Forall_forall. intros y Hy. apply Hacc; [by left|done]. }
      destruct (IH (λ a b Ha Hb, Hall a b (list_elem_of_further _ _ _ Ha)
                                   (list_elem_of_further _ _ _ Hb)) acc')
        as (l' & -> & Hp').
      { intros a b Ha Hb. rewrite Hp in Hb. apply elem_of_cons in Hb as [->|Hb].
        - apply Hall; [by right|by left].
        - apply Hacc; [by right|done]. }
      exists l'. split; [done|]. rewrite Hp', Hp. simpl.
      apply Permutation_middle. }
  destruct (Hgen []) as (l' & Hl & Hp); [|eauto].
  intros x y _ Hy. by apply elem_of_nil in Hy.
Qed.

(** X21 (when the loose check fails): when the current version does not parse
    strictly and is not empty, [check_files] raises only if two of the
    discovered versions cannot be compared with each other; when they all
    can, it prints one line for each discovered version that is greater
    than the current one or cannot be compared with it. *)
Theorem check_files_loose {V : Type} (parse : string → option V)
    (vlt : V → V → bool) (vstr : V → string) links func current :
  parse current = None → current ≠ EmptyString →
  (∀ x y, x ∈ extracted func links → y ∈ extracted func links →
     comparable (LooseVersion x) (LooseVersion y)) →
  ∃ out, check_files parse vlt vstr links func current = Ok out
    ∧ (∀ m, m ∈ out ↔ ∃ v, v ∈ extracted func links
                          ∧ m ∈ verdict (LooseVersion current) (LooseVersion v)).
Proof.
  intros Hparse Hcur Hcmp. unfold check_files. rewrite Hparse.
  destruct (sort_comparable (map LooseVersion (extracted func links)))
    as (sorted & -> & Hperm).
  { intros x y Hx Hy. apply list_elem_of_fmap in Hx as (x' & -> & Hx).
    apply list_elem_of_fmap in Hy as (y' & -> & Hy). by apply Hcmp. }
  assert (Hnonempty : ∀ v, v ∈ extracted func links → v ≠ EmptyString).
  { intros v Hv. unfold extracted in Hv.
    apply list_elem_of_In, in_flat_map in Hv as (l & _ & Hv).
    destruct (func l) as [w|]; [|done].
    destruct (String.eqb w EmptyString) eqn:Hw; [done|].
    destruct Hv as [<-|[]]. by apply String.eqb_neq. }
  assert (Hversion : ∀ s, s ≠ EmptyString → version (LooseVersion s) ≠ None).
  { intros s Hs. unfold LooseVersion. simpl.
    destruct (String.eqb s EmptyString) eqn:He; [|done].
    by apply String.eqb_eq in He. }
  rewrite compare_versions_verdicts.
  - eexists. split; [done|]. intros m.
    rewrite list_elem_of_In, in_flat_map. split.
    + intros (x & Hx & Hm). apply list_elem_of_In in Hx, Hm.
      rewrite Hperm in Hx. apply list_elem_of_fmap in Hx as (v & -> & Hv). eauto.
    + intros (v & Hv & Hm). exists (LooseVersion v).
      split; [|by apply list_elem_of_In].
      apply list_elem_of_In. rewrite Hperm. by apply list_elem_of_fmap_2.
  - by apply Hversion.
  - apply Forall_forall. intros x Hx. rewrite Hperm in Hx.
    apply list_elem_of_fmap in Hx as (v & -> & Hv). by apply Hversion, Hnonempty.
Qed.

(** A current version and a page for the check in loose mode. *)
Lemma check_files_loose_witness :
  ∃ out, check_files parse_release release_lt release_str
           ["openssl-3.0.8.tar.gz"; "openssl-1.1.1.2.tar.gz"]
           tarball_version "1.1.1t" = Ok out
    ∧ Found "3.0.8" "1.1.1t" ∈ out ∧ Unable "1.1.1.2" ∈ out.
Proof.
  destruct (check_files_loose parse_release release_lt release_str
              ["openssl-3.0.8.tar.gz"; "openssl-1.1.1.2.tar.gz"]
              tarball_version "1.1.1t") as (out & Hout & Hiff).
  - reflexivity.
  - discriminate.
  - intros x y Hx Hy.
    assert (Hin : ∀ z, z ∈ ["3.0.8"; "1.1.1.2"] → z = "3.0.8" ∨ z = "1.1.1.2").
    { intros z Hz. repeat (apply elem_of_cons in Hz as [->|Hz]; [tauto|]).
      by apply elem_of_nil in Hz. }
    apply Hin in Hx as [->| ->]; apply Hin in Hy as [->| ->];
      eexists; reflexivity.
  - exists out. split; [exact Hout|]. split; apply Hiff.
    + exists "3.0.8". split; [|by left]. by left.
    + exists "1.1.1.2". split; [|by left]. by right; left.
Defined.

End LooseOrder.
